(** * vinext: request normalisation, middleware matching and the worker entry

    A shallow embedding of the request-pipeline code of
    [packages/vinext/src/server] and of the properties its specification
    states about it:

    - [normalize-path.ts]      : [normalizePath]
    - [middleware-codegen.ts]  : [__isSafeRegex], [__safeRegExp],
                                 [matchMiddlewarePattern], [matchesMiddleware]
    - [middleware.ts]          : [matchPattern], [matchesMiddleware],
                                 [runMiddleware], [isProxyFile],
                                 [resolveMiddlewareHandler],
                                 [findMiddlewareFile]
    - [app-router-entry.ts] and the Pages Router worker entry : [fetch]
    - [worker/index.ts] of an application and the worker [deploy.ts]
      writes : the first steps of [fetch], [mergeHeaders]

    JavaScript strings are modelled as lists of characters ([list ascii]),
    arrays as lists, [undefined]/[null] results as [option], thrown
    exceptions as an explicit error result. *)

From Equations Require Import Equations.
From Stdlib Require Import Ascii String Bool Arith Lia List.
Import ListNotations.


(* ================================================================== *)
(** * Part I: definitions *)
(* ================================================================== *)

(** ** JavaScript strings *)

Definition str := list ascii.

(** A string literal of the source, as a list of characters. *)
Definition lit (s : string) : str := list_ascii_of_string s.

Definition ch_eqb (a b : ascii) : bool := Ascii.eqb a b.
Arguments ch_eqb : simpl never.

(** [a === b] on strings. *)
Fixpoint str_eqb (a b : str) : bool :=
  match a, b with
  | [], [] => true
  | x :: a', y :: b' => ch_eqb x y && str_eqb a' b'
  | _, _ => false
  end.

(** [s.startsWith(pre)] *)
Fixpoint startsWith (pre s : str) : bool :=
  match pre, s with
  | [], _ => true
  | _ :: _, [] => false
  | x :: pre', y :: s' => ch_eqb x y && startsWith pre' s'
  end.

(** [s.includes(sub)]: [sub] occurs at some position of [s]. *)
Fixpoint includes (sub s : str) : bool :=
  startsWith sub s ||
  match s with
  | [] => false
  | _ :: s' => includes sub s'
  end.

(** [s.endsWith(suf)]: the last [suf.length] characters of [s] are [suf]. *)
Definition endsWith (suf s : str) : bool :=
  (length suf <=? length s) &&
  str_eqb (skipn (length s - length suf) s) suf.

(** [s.split(c)] for a one-character separator [c]; the result is never
    empty: [''.split('/')] is [['']]. *)
Fixpoint split (c : ascii) (s : str) : list str :=
  match s with
  | [] => [[]]
  | x :: s' =>
      if ch_eqb x c then [] :: split c s'
      else match split c s' with
           | [] => [[x]]
           | seg :: segs => (x :: seg) :: segs
           end
  end.

(** [parts.join(sep)] *)
Fixpoint join (sep : str) (parts : list str) : str :=
  match parts with
  | [] => []
  | [p] => p
  | p :: rest => p ++ sep ++ join sep rest
  end.

(** [s.replaceAll(a, b)] for one-character [a] and [b]. *)
Definition replaceAll (a b : ascii) (s : str) : str :=
  map (fun x => if ch_eqb x a then b else x) s.

(** ** normalize-path.ts *)

(** The condition of the fast path of [normalizePath] (lines 23-32). *)
Definition is_canonical (pathname : str) : bool :=
  str_eqb pathname (lit "/") ||
  ((1 <? length pathname) &&
   match nth_error pathname 0 with
   | Some c => ch_eqb c "/"
   | None => false
   end &&
   negb (includes (lit "//") pathname) &&
   negb (includes (lit "/./") pathname) &&
   negb (includes (lit "/../") pathname) &&
   negb (endsWith (lit "/.") pathname) &&
   negb (endsWith (lit "/..") pathname)).

(** One iteration of the loop over the segments (lines 39-50):
    [resolved.pop()] on an empty array does nothing. *)
Definition resolve_segment (resolved : list str) (segment : str) : list str :=
  if str_eqb segment [] || str_eqb segment (lit ".") then resolved
  else if str_eqb segment (lit "..") then removelast resolved
  else resolved ++ [segment].

(** The slow path (lines 36-52): split, resolve, rejoin. *)
Definition resolve_path (pathname : str) : str :=
  let segments := split "/" pathname in
  let resolved := fold_left resolve_segment segments [] in
  lit "/" ++ join (lit "/") resolved.

Definition normalizePath (pathname : str) : str :=
  if is_canonical pathname then pathname else resolve_path pathname.

(** ** middleware-codegen.ts: [__isSafeRegex] and [__safeRegExp] *)

(** [pattern[i]]: [None] is [undefined], past the end of the string. *)
Definition charAt (pattern : str) (i : nat) : option ascii := nth_error pattern i.

(** [pattern[i] === c] *)
Definition char_is (pattern : str) (i : nat) (c : ascii) : bool :=
  match charAt pattern i with
  | Some x => ch_eqb x c
  | None => false
  end.

(** The array [quantifierAtDepth].  Only the truth value of its elements is
    ever read, so a hole or an index past the end ([undefined], falsy) reads
    as [false]. *)
Definition flags := list bool.

(** [arr[k]] as a condition. *)
Definition flag_at (arr : flags) (k : nat) : bool := nth k arr false.

(** [arr[k] = v]: inside the array the element is replaced; an assignment
    past the end extends the array, the skipped indices staying holes. *)
Fixpoint flag_set (arr : flags) (k : nat) (v : bool) : flags :=
  match arr, k with
  | [], 0 => [v]
  | [], S k' => false :: flag_set [] k' v
  | _ :: arr', 0 => v :: arr'
  | x :: arr', S k' => x :: flag_set arr' k' v
  end.

(** [arr.push(v)] *)
Definition flag_push (arr : flags) (v : bool) : flags := arr ++ [v].

(** The state of the scan: [quantifierAtDepth], [depth] and [i]. *)
Record scan_state : Type := mkScan {
  quantifierAtDepth : flags;
  depth : nat;
  pos : nat
}.

(** The inner loop that skips a character class (lines 32-35):
    [while (i < pattern.length && pattern[i] !== "]") { if (pattern[i] === "\\") i++; i++; }].
    Every iteration advances [i], so [n] iterations suffice once [n] is the
    length of the pattern. *)
Fixpoint skip_class (n : nat) (pattern : str) (i : nat) : nat :=
  match n with
  | 0 => i
  | S n' =>
      if (i <? length pattern) && negb (char_is pattern i "]")
      then skip_class n' pattern (if char_is pattern i "\" then i + 2 else i + 1)
      else i
  end.

(** [/[\d,]/.test(c)] *)
Definition is_digit_or_comma (c : ascii) : bool :=
  let n := nat_of_ascii c in
  ((48 <=? n) && (n <=? 57)) || ch_eqb c ",".

(** The inner loop that scans a braced quantifier (line 72):
    [while (j < pattern.length && /[\d,]/.test(pattern[j])) j++]. *)
Fixpoint skip_counts (n : nat) (pattern : str) (j : nat) : nat :=
  match n with
  | 0 => j
  | S n' =>
      if (j <? length pattern) &&
         match charAt pattern j with
         | Some c => is_digit_or_comma c
         | None => false
         end
      then skip_counts n' pattern (j + 1)
      else j
  end.

(** [if (depth > 0) quantifierAtDepth[depth] = true] *)
Definition mark_quantifier (q : flags) (d : nat) : flags :=
  if 0 <? d then flag_set q d true else q.

(** One iteration of the main loop (lines 27-79), from the test of the
    loop condition on: either the next state, or the value returned. *)
Definition scan_step (pattern : str) (st : scan_state) : scan_state + bool :=
  let q := quantifierAtDepth st in
  let d := depth st in
  let i := pos st in
  if negb (i <? length pattern) then inr true
  else if char_is pattern i "\" then inl (mkScan q d (i + 2))
  else if char_is pattern i "[" then
    inl (mkScan q d (skip_class (length pattern) pattern (i + 1) + 1))
  else if char_is pattern i "(" then
    let d' := d + 1 in
    let q' := if length q <=? d' then flag_push q false else flag_set q d' false in
    inl (mkScan q' d' (i + 1))
  else if char_is pattern i ")" then
    let hadQ := (0 <? d) && flag_at q d in
    let d' := if 0 <? d then d - 1 else d in
    if char_is pattern (i + 1) "+" || char_is pattern (i + 1) "*" ||
       char_is pattern (i + 1) "{"
    then
      if hadQ then inr false
      else
        let q' := if d' <? length q then flag_set q d' true else q in
        inl (mkScan q' d' (i + 1))
    else inl (mkScan q d' (i + 1))
  else if char_is pattern i "+" || char_is pattern i "*" then
    inl (mkScan (mark_quantifier q d) d (i + 1))
  else if char_is pattern i "?" then
    let prev_is c := (0 <? i) && char_is pattern (i - 1) c in
    if negb (prev_is "+"%char) && negb (prev_is "*"%char) &&
       negb (prev_is "?"%char) && negb (prev_is "}"%char)
    then inl (mkScan (mark_quantifier q d) d (i + 1))
    else inl (mkScan q d (i + 1))
  else if char_is pattern i "{" then
    let j := skip_counts (length pattern) pattern (i + 1) in
    if (j <? length pattern) && char_is pattern j "}" && (i + 1 <? j)
    then inl (mkScan (mark_quantifier q d) d (j + 1))
    else inl (mkScan q d (i + 1))
  else inl (mkScan q d (i + 1)).

Definition inspect {A : Type} (a : A) : {b : A | a = b} := exist _ a eq_refl.

(** The main loop; it terminates because every iteration that does not
    return moves [i] forward. *)
Equations? scan_loop (pattern : str) (st : scan_state) : bool
  by wf (length pattern - pos st) lt :=
  scan_loop pattern st with inspect (scan_step pattern st) := {
    | exist _ (inr b) _ => b;
    | exist _ (inl st') H => scan_loop pattern st' }.
Proof.
  assert (M : forall n j, j <= skip_class n pattern j).
  { induction n as [|n IH]; intros j; simpl; [lia|].
    destruct (_ && _); [|lia].
    destruct (char_is pattern j "\"); eapply Nat.le_trans; [|apply IH| |apply IH]; lia. }
  assert (N : forall n j, j <= skip_counts n pattern j).
  { induction n as [|n IH]; intros j; simpl; [lia|].
    destruct (_ && _); [|lia]. eapply Nat.le_trans; [|apply IH]; lia. }
  unfold scan_step in H. destruct st as [q d i]. simpl in *.
  destruct (i <? length pattern) eqn:L; simpl in H; [|discriminate].
  apply Nat.ltb_lt in L.
  specialize (M (length pattern) (i + 1)).
  specialize (N (length pattern) (i + 1)).
  repeat match type of H with
         | (if ?c then _ else _) = _ => destruct c eqn:?
         | (let _ := _ in _) = _ => cbv zeta in H
         end;
    try discriminate; injection H as <-; simpl; try lia.
Qed.

(** [__isSafeRegex(pattern)] *)
Definition __isSafeRegex (pattern : str) : bool :=
  scan_loop pattern (mkScan [] 0 0).
(** ** The regular-expression engine of the platform

    [new RegExp(source, flags)] and [re.test(s)] belong to the JavaScript
    engine, not to the repository: the matcher is parametrised by them.
    [RegExp_new] answers [None] when the constructor throws a [SyntaxError]. *)

Record RegExpEngine : Type := mkEngine {
  RegExp : Type;
  RegExp_new : str -> option str -> option RegExp;
  RegExp_test : RegExp -> str -> bool
}.

Section Matcher.

Variable engine : RegExpEngine.

(** [__safeRegExp(pattern, flags)] (middleware-codegen.ts, lines 83-89):
    [null] for a pattern the scan rejects (after a [console.warn]),
    [null] when the constructor throws, the compiled expression
    otherwise. *)
Definition __safeRegExp (pattern : str) (flags : option str)
  : option (RegExp engine) :=
  if negb (__isSafeRegex pattern) then None
  else RegExp_new engine pattern flags.

(** Modelled from the spec: [safeRegExp] of [config/config-matchers.js],
    which [middleware.ts] imports and which is not among the sources.
    Section 4.2 gives its contract: [null] when [isSafeRegex] rejects the
    pattern, [null] when native construction fails, the compiled
    expression otherwise; the scan is the one [middleware-codegen.ts]
    inlines as [__isSafeRegex]. *)
Definition isSafeRegex (pattern : str) : bool := __isSafeRegex pattern.

Definition safeRegExp (pattern : str) (flags : option str)
  : option (RegExp engine) :=
  if negb (isSafeRegex pattern) then None
  else RegExp_new engine pattern flags.

(** *** The single-pass tokenizer *)

(** [[\w-]] *)
Definition is_name_char (c : ascii) : bool :=
  let n := nat_of_ascii c in
  ((48 <=? n) && (n <=? 57)) || ((65 <=? n) && (n <=? 90)) ||
  ((97 <=? n) && (n <=? 122)) || ch_eqb c "_" || ch_eqb c "-".

(** [[^/:.]] *)
Definition is_literal_char (c : ascii) : bool :=
  negb (ch_eqb c "/" || ch_eqb c ":" || ch_eqb c ".").

(** What [.] does not match in a regular expression without the [s] flag
    (the line terminators that fit in one byte). *)
Definition is_line_terminator (c : ascii) : bool :=
  (nat_of_ascii c =? 10) || (nat_of_ascii c =? 13).

Fixpoint take_while (f : ascii -> bool) (s : str) : str :=
  match s with
  | x :: s' => if f x then x :: take_while f s' else []
  | [] => []
  end.

Fixpoint drop_while (f : ascii -> bool) (s : str) : str :=
  match s with
  | x :: s' => if f x then drop_while f s' else s
  | [] => []
  end.

(** The result of [tokenRe.exec]: the matched text [tok[0]] and the three
    capture groups, [None] for [undefined]. *)
Record token : Type := mkToken {
  tok0 : str;
  tok1 : option str;
  tok2 : option str;
  tok3 : option str
}.

(** A match of
    [/\/:([\w-]+)\*|\/:([\w-]+)\+|:([\w-]+)|[.]|[^/:.]+|./]
    at the beginning of [s]: the alternatives are tried in order, the
    repetitions are greedy (giving characters back never helps: the
    character after a shortened name is a name character, neither [*]
    nor [+]).  The result is the token and the text after it. *)
Definition tokenRe_match_here (s : str) : option (token * str) :=
  let alt3_onwards :=
    match s with
    | [] => None
    | c :: r =>
        let name := take_while is_name_char r in
        if ch_eqb c ":" && negb (str_eqb name []) then
          Some (mkToken (c :: name) None None (Some name),
                drop_while is_name_char r)
        else if ch_eqb c "." then
          Some (mkToken [c] None None None, r)
        else if is_literal_char c then
          Some (mkToken (take_while is_literal_char s) None None None,
                drop_while is_literal_char s)
        else if negb (is_line_terminator c) then
          Some (mkToken [c] None None None, r)
        else None
    end in
  match s with
  | c1 :: c2 :: r =>
      if ch_eqb c1 "/" && ch_eqb c2 ":" then
        let name := take_while is_name_char r in
        match str_eqb name [], drop_while is_name_char r with
        | false, q :: rest =>
            if ch_eqb q "*" then
              Some (mkToken (c1 :: c2 :: name ++ [q]) (Some name) None None, rest)
            else if ch_eqb q "+" then
              Some (mkToken (c1 :: c2 :: name ++ [q]) None (Some name) None, rest)
            else alt3_onwards
        | _, _ => alt3_onwards
        end
      else alt3_onwards
  | _ => alt3_onwards
  end.

(** [tokenRe.exec(pattern)] with the [g] flag, on the text from
    [lastIndex] on: the leftmost match, [None] when there is none. *)
Fixpoint tokenRe_exec (s : str) : option (token * str) :=
  match tokenRe_match_here s with
  | Some r => Some r
  | None =>
      match s with
      | [] => None
      | _ :: s' => tokenRe_exec s'
      end
  end.

(** What one token adds to [regexStr] (lines 185-198). *)
Definition token_regex (tok : token) : str :=
  match tok1 tok, tok2 tok, tok3 tok with
  | Some _, _, _ => lit "(?:/.*)?"
  | None, Some _, _ => lit "(?:/.+)"
  | None, None, Some _ => lit "([^/]+)"
  | None, None, None =>
      if str_eqb (tok0 tok) (lit ".") then lit "\." else tok0 tok
  end.

(** The loop [while ((tok = tokenRe.exec(pattern)) !== null)] (lines
    184-199), on the text that remains to be tokenized. *)
Equations? tokenize_loop (rest : str) (regexStr : str) : str
  by wf (length rest) lt :=
  tokenize_loop rest regexStr with inspect (tokenRe_exec rest) := {
    | exist _ None _ => regexStr;
    | exist _ (Some (tok, rest')) H =>
        tokenize_loop rest' (regexStr ++ token_regex tok) }.
Proof.
  assert (D : forall f s, length (drop_while f s) <= length s).
  { intros f s. induction s as [|x s IH]; simpl; [lia|].
    destruct (f x); simpl; lia. }
  assert (M : forall s t r, tokenRe_match_here s = Some (t, r) ->
                       length r < length s).
  { intros s t r. unfold tokenRe_match_here.
    assert (A : match s with
                | [] => None
                | c :: r0 =>
                    let name := take_while is_name_char r0 in
                    if ch_eqb c ":" && negb (str_eqb name []) then
                      Some (mkToken (c :: name) None None (Some name),
                            drop_while is_name_char r0)
                    else if ch_eqb c "." then
                      Some (mkToken [c] None None None, r0)
                    else if is_literal_char c then
                      Some (mkToken (take_while is_literal_char s) None None None,
                            drop_while is_literal_char s)
                    else if negb (is_line_terminator c) then
                      Some (mkToken [c] None None None, r0)
                    else None
                end = Some (t, r) -> length r < length s).
    { destruct s as [|c r0]; [discriminate|]. cbv zeta.
      pose proof (D is_name_char r0). pose proof (D is_literal_char r0).
      destruct (_ && _).
      - intros E; injection E as _ <-. simpl. lia.
      - destruct (ch_eqb c "."); [intros E; injection E as _ <-; simpl; lia|].
        destruct (is_literal_char c) eqn:L.
        + intros E; injection E as _ <-. simpl. rewrite L. simpl. lia.
        + destruct (negb _); [|discriminate].
          intros E; injection E as _ <-. simpl. lia. }
    destruct s as [|c1 [|c2 r0]]; try exact A.
    cbv zeta. destruct (_ && _); [|exact A].
    destruct (str_eqb _ _); [exact A|].
    pose proof (D is_name_char r0) as K.
    destruct (drop_while is_name_char r0) as [|q rest0]; [exact A|].
    destruct (ch_eqb q "*"); [intros E; injection E as _ <-; simpl in *; lia|].
    destruct (ch_eqb q "+"); [intros E; injection E as _ <-; simpl in *; lia|].
    exact A. }
  clear tokenize_loop regexStr.
  revert tok rest' H. induction rest as [|x rest IH]; intros tok rest' H.
  - simpl in H. discriminate.
  - change (tokenRe_exec (x :: rest))
      with (match tokenRe_match_here (x :: rest) with
            | Some r => Some r
            | None => tokenRe_exec rest
            end) in H.
    destruct (tokenRe_match_here (x :: rest)) as [[t r]|] eqn:E.
    + injection H as <- <-. apply M in E. exact E.
    + apply IH in H. simpl. lia.
Qed.

(** [matchPattern(pathname, pattern)] (middleware.ts, lines 170-204). *)
Definition matchPattern (pathname pattern : str) : bool :=
  let tokenized :=
    let regexStr := tokenize_loop pattern [] in
    match safeRegExp (lit "^" ++ regexStr ++ lit "$") None with
    | Some re => RegExp_test engine re pathname
    | None => str_eqb pathname pattern
    end in
  if includes (lit "(") pattern || includes (lit "\") pattern then
    match safeRegExp (lit "^" ++ pattern ++ lit "$") None with
    | Some re => RegExp_test engine re pathname
    | None => tokenized
    end
  else tokenized.

(** [matchMiddlewarePattern(pathname, pattern)], the generated twin
    (middleware-codegen.ts, lines 152-174). *)
Definition matchMiddlewarePattern (pathname pattern : str) : bool :=
  let tokenized :=
    let regexStr := tokenize_loop pattern [] in
    match __safeRegExp (lit "^" ++ regexStr ++ lit "$") None with
    | Some re2 => RegExp_test engine re2 pathname
    | None => str_eqb pathname pattern
    end in
  if includes (lit "(") pattern || includes (lit "\") pattern then
    match __safeRegExp (lit "^" ++ pattern ++ lit "$") None with
    | Some re => RegExp_test engine re pathname
    | None => tokenized
    end
  else tokenized.

(** *** The matcher configuration *)

(** An element of a [matcher] array: a string, an object (with or without
    a [source] field), or anything else ([null], a number, ...). *)
Inductive matcher_entry : Type :=
| EntryString (s : str)
| EntryObject (source : option str)
| EntryOther.

(** [MatcherConfig]: a string or an array. *)
Inductive MatcherConfig : Type :=
| MatcherString (s : str)
| MatcherArray (entries : list matcher_entry).

(** [!matcher], for [matcher : MatcherConfig | undefined]: [undefined]
    and the empty string are falsy, every array is truthy. *)
Definition matcher_absent (matcher : option MatcherConfig) : bool :=
  match matcher with
  | None => true
  | Some (MatcherString s) => str_eqb s []
  | Some (MatcherArray _) => false
  end.

(** The loop that fills [patterns] (lines 146-157). *)
Definition entry_patterns (patterns : list str) (m : matcher_entry) : list str :=
  match m with
  | EntryString s => patterns ++ [s]
  | EntryObject (Some source) => patterns ++ [source]
  | EntryObject None => patterns
  | EntryOther => patterns
  end.

Definition matcher_patterns (matcher : MatcherConfig) : list str :=
  match matcher with
  | MatcherString s => [s]
  | MatcherArray entries => fold_left entry_patterns entries []
  end.

(** [matchesMiddleware(pathname, matcher)] (middleware.ts, lines 136-160). *)
Definition matchesMiddleware (pathname : str) (matcher : option MatcherConfig)
  : bool :=
  if matcher_absent matcher then true
  else
    match matcher with
    | Some m => existsb (fun pattern => matchPattern pathname pattern)
                  (matcher_patterns m)
    | None => true
    end.

(** [matchesMiddleware] of the generated code (middleware-codegen.ts,
    lines 176-189), over [matchMiddlewarePattern]. *)
Definition __matchesMiddleware (pathname : str) (matcher : option MatcherConfig)
  : bool :=
  if matcher_absent matcher then true
  else
    match matcher with
    | Some m => existsb (fun p => matchMiddlewarePattern pathname p)
                  (matcher_patterns m)
    | None => true
    end.

End Matcher.
(** ** A reference regular-expression engine

    To evaluate the matcher on concrete inputs the platform's engine is
    instantiated by a small one: a parser for the fragment of the
    ECMAScript pattern syntax that the tokenizer emits (literals, [.],
    identity and class escapes, bracket classes, capturing and [(?:...)]
    groups, [|], [*], [+], [?], [^], [$]) and a matcher by derivatives.
    Outside this fragment (look-around, back-references, braced
    quantifiers, flags) the constructor answers [None], which a real engine
    need not do; the statements that quantify over every engine do not
    depend on it. *)

Module RefEngine.

Inductive re : Type :=
| Fail
| Eps
| Chr (f : ascii -> bool)
| Bol
| Eol
| Cat (a b : re)
| Alt (a b : re)
| Star (a : re).

Definition cat (a b : re) : re :=
  match a, b with
  | Fail, _ => Fail
  | _, Fail => Fail
  | Eps, _ => b
  | _, Eps => a
  | _, _ => Cat a b
  end.

Definition alt (a b : re) : re :=
  match a, b with
  | Fail, _ => b
  | _, Fail => a
  | _, _ => Alt a b
  end.

(** Does [r] match the empty string here, at the start of the input
    when [st], at its end when [en]. *)
Fixpoint nullable (st en : bool) (r : re) : bool :=
  match r with
  | Fail => false
  | Eps => true
  | Chr _ => false
  | Bol => st
  | Eol => en
  | Cat a b => nullable st en a && nullable st en b
  | Alt a b => nullable st en a || nullable st en b
  | Star _ => true
  end.

(** The derivative of [r] by the character [c], read at the start of the
    input when [st]. *)
Fixpoint deriv (st : bool) (c : ascii) (r : re) : re :=
  match r with
  | Fail | Eps | Bol | Eol => Fail
  | Chr f => if f c then Eps else Fail
  | Cat a b =>
      alt (cat (deriv st c a) b)
          (if nullable st false a then deriv st c b else Fail)
  | Alt a b => alt (deriv st c a) (deriv st c b)
  | Star a => cat (deriv st c a) (Star a)
  end.

Fixpoint matches (st : bool) (r : re) (s : str) : bool :=
  match s with
  | [] => nullable st true r
  | c :: s' => matches false (deriv st c r) s'
  end.

Definition any_char : re := Chr (fun _ => true).

(** [re.test(s)]: some substring of [s] matches. *)
Definition test (r : re) (s : str) : bool :=
  matches true (Cat (Star any_char) (Cat r (Star any_char))) s.

(** *** Parsing *)

Definition is_digit (c : ascii) : bool :=
  let n := nat_of_ascii c in (48 <=? n) && (n <=? 57).

Definition is_word (c : ascii) : bool :=
  let n := nat_of_ascii c in
  is_digit c || ((65 <=? n) && (n <=? 90)) || ((97 <=? n) && (n <=? 122)) ||
  ch_eqb c "_".

Definition is_space (c : ascii) : bool :=
  let n := nat_of_ascii c in
  (n =? 32) || ((9 <=? n) && (n <=? 13)).

Definition is_newline (c : ascii) : bool :=
  let n := nat_of_ascii c in (n =? 10) || (n =? 13).

(** The set of characters of an escape [\c]; [None] when not supported. *)
Definition escape_set (c : ascii) : option (ascii -> bool) :=
  if ch_eqb c "d" then Some is_digit
  else if ch_eqb c "D" then Some (fun x => negb (is_digit x))
  else if ch_eqb c "w" then Some is_word
  else if ch_eqb c "W" then Some (fun x => negb (is_word x))
  else if ch_eqb c "s" then Some is_space
  else if ch_eqb c "S" then Some (fun x => negb (is_space x))
  else if is_word c then None
  else Some (ch_eqb c).

(** The items of a bracket class up to the closing bracket. *)
Fixpoint parse_class (s : str) (acc : ascii -> bool)
  : option ((ascii -> bool) * str) :=
  match s with
  | [] => None
  | c :: r =>
      if ch_eqb c "]" then Some (acc, r)
      else if ch_eqb c "\" then
        match r with
        | e :: r' =>
            match escape_set e with
            | Some f => parse_class r' (fun x => acc x || f x)
            | None => None
            end
        | [] => None
        end
      else
        match r with
        | d :: hi :: r' =>
            if ch_eqb d "-" && negb (ch_eqb hi "]") then
              if ch_eqb hi "\" then None
              else parse_class r'
                     (fun x => acc x ||
                               ((nat_of_ascii c <=? nat_of_ascii x) &&
                                (nat_of_ascii x <=? nat_of_ascii hi)))
            else parse_class r (fun x => acc x || ch_eqb c x)
        | _ => parse_class r (fun x => acc x || ch_eqb c x)
        end
  end.

(** A quantifier after an atom, and the [?] that makes it lazy (which
    does not change what [test] answers). *)
Definition parse_quantifier (a : re) (s : str) : option (re * str) :=
  let lazy r := match r with
                | q :: r' => if ch_eqb q "?" then r' else r
                | [] => r
                end in
  match s with
  | q :: r =>
      if ch_eqb q "*" then Some (Star a, lazy r)
      else if ch_eqb q "+" then Some (Cat a (Star a), lazy r)
      else if ch_eqb q "?" then Some (Alt Eps a, lazy r)
      else if ch_eqb q "{" then None
      else Some (a, s)
  | [] => Some (a, s)
  end.

(** A disjunction, up to the end of the input or to a closing
    parenthesis; [alts] are the alternatives read so far, [cur] the terms
    of the current one; [n] bounds the number of calls. *)
Fixpoint parse (n : nat) (alts cur : re) (s : str) : option (re * str) :=
  match n with
  | 0 => None
  | S n' =>
      let atom (a : re) (r : str) :=
        match parse_quantifier a r with
        | Some (q, r') => parse n' alts (Cat cur q) r'
        | None => None
        end in
      match s with
      | [] => Some (Alt alts cur, [])
      | c :: r =>
          if ch_eqb c ")" then Some (Alt alts cur, s)
          else if ch_eqb c "|" then parse n' (Alt alts cur) Eps r
          else if ch_eqb c "^" then parse n' alts (Cat cur Bol) r
          else if ch_eqb c "$" then parse n' alts (Cat cur Eol) r
          else if ch_eqb c "." then atom (Chr (fun x => negb (is_newline x))) r
          else if ch_eqb c "*" || ch_eqb c "+" || ch_eqb c "?" || ch_eqb c "{"
          then None
          else if ch_eqb c "\" then
            match r with
            | e :: r' =>
                match escape_set e with
                | Some f => atom (Chr f) r'
                | None => None
                end
            | [] => None
            end
          else if ch_eqb c "[" then
            match r with
            | x :: r' =>
                if ch_eqb x "^" then
                  match parse_class r' (fun _ => false) with
                  | Some (f, r2) => atom (Chr (fun y => negb (f y))) r2
                  | None => None
                  end
                else
                  match parse_class r (fun _ => false) with
                  | Some (f, r2) => atom (Chr f) r2
                  | None => None
                  end
            | [] => None
            end
          else if ch_eqb c "(" then
            let body :=
              match r with
              | q :: r' =>
                  if ch_eqb q "?" then
                    match r' with
                    | k :: r2 => if ch_eqb k ":" then Some r2 else None
                    | [] => None
                    end
                  else Some r
              | [] => Some r
              end in
            match body with
            | Some b =>
                match parse n' Fail Eps b with
                | Some (g, close :: r2) => atom g r2
                | _ => None
                end
            | None => None
            end
          else atom (Chr (ch_eqb c)) r
      end
  end.

(** [new RegExp(source, flags)]: [None] for a syntax error, and for what
    this engine does not support. *)
Definition compile (source : str) (flags : option str) : option re :=
  match flags with
  | Some (_ :: _) => None
  | _ =>
      match parse (S (length source)) Fail Eps source with
      | Some (r, []) => Some r
      | _ => None
      end
  end.

Definition engine : RegExpEngine := mkEngine re compile test.

End RefEngine.
(** ** Requests, responses and headers *)

(** A [Headers] object, as the sequence of [[key, value]] pairs its
    iterator yields; the keys are in lower case. *)
Definition Headers := list (str * str).

Definition to_lower_char (c : ascii) : ascii :=
  let n := nat_of_ascii c in
  if (65 <=? n) && (n <=? 90) then ascii_of_nat (n + 32) else c.

(** [name.toLowerCase()] on the letters a header name is made of. *)
Definition to_lower (s : str) : str := map to_lower_char s.

(** [headers.get(name)]: the name is compared without regard to case, the
    values under it are joined by a comma and a space, [None] is [null]. *)
Definition headers_get (h : Headers) (name : str) : option str :=
  match filter (fun kv => str_eqb (fst kv) (to_lower name)) h with
  | [] => None
  | vals => Some (join (lit ", ") (map snd vals))
  end.

(** [headers.append(key, value)] *)
Definition headers_append (h : Headers) (key value : str) : Headers :=
  h ++ [(key, value)].

Record Response : Type := mkResponse {
  status : nat;
  body : str;
  headers : Headers
}.

(** [new Response(text, { status })]: a text body sets the content type. *)
Definition new_Response (text : str) (st : nat) : Response :=
  mkResponse st text [(lit "content-type", lit "text/plain;charset=UTF-8")].

(** Of a request the code reads its URL: [new URL(request.url)] has a
    [pathname] and a [search] part. *)
Record Request : Type := mkRequest {
  url_pathname : str;
  url_search : str
}.

(** What a [catch] clause receives, by what the code does with it: a
    value whose [e?.message] is a text ([Some]) or [undefined]/[null]
    ([None]) and whose [String(e)] is a text; or a value for which the
    evaluation of [e?.message ?? String(e)] and of its concatenation to a
    string throws in turn (an object without conversion to a string, a
    [message] that is a symbol): [raised] is what is thrown then. *)
Inductive js_error : Type :=
| mkError (err_message : option str) (err_string : str)
| mkOpaque (raised : js_error).

(** A call that may throw. *)
Inductive outcome (A : Type) : Type :=
| Ok (a : A)
| Thrown (e : js_error).
Arguments Ok {A} a.
Arguments Thrown {A} e.

(** [e?.message ?? String(e)], as a text to concatenate: the text, or
    what its evaluation throws. *)
Definition error_text (e : js_error) : outcome str :=
  match e with
  | mkError (Some m) _ => Ok m
  | mkError None s => Ok s
  | mkOpaque raised => Thrown raised
  end.

(** The functions of the platform the code calls:
    - [decodeURIComponent(s)], [None] when it throws a [URIError];
    - [new Request(u, request)] for [u] the URL of [request] with its
      [pathname] set to a new value;
    - [new URL(target, request.url)], read back as [pathname + search],
      [None] when the constructor throws. *)
Record Platform : Type := mkPlatform {
  decodeURIComponent : str -> option str;
  Request_with_pathname : Request -> str -> Request;
  URL_resolve : str -> Request -> option str
}.

(** ** middleware.ts: loading the handler *)

(** What a middleware handler does with a request: it returns a response,
    or nothing, or it throws (or its promise is rejected). *)
Definition handler := Request -> outcome (option Response).

(** An export of the middleware module. *)
Inductive export : Type :=
| ExUndefined
| ExNull
| ExFunction (f : handler)
| ExOther.

(** [a ?? b] *)
Definition nullish (a b : export) : export :=
  match a with
  | ExUndefined | ExNull => b
  | _ => a
  end.

Record Module : Type := mkModule {
  mod_proxy : export;
  mod_middleware : export;
  mod_default : export;
  (** [mod.config?.matcher] *)
  mod_matcher : option MatcherConfig
}.

(** [path.basename(filePath)], POSIX: the last component, trailing
    slashes aside. *)
Definition basename (filePath : str) : str :=
  let trimmed := rev (drop_while (fun c => ch_eqb c "/") (rev filePath)) in
  last (split "/" trimmed) [].

(** [base.replace(/\.\w+$/, "")]: a final extension is removed. *)
Definition strip_extension (base : str) : str :=
  let r := rev base in
  let ext := take_while RefEngine.is_word r in
  match str_eqb ext [], drop_while RefEngine.is_word r with
  | false, dot :: stem => if ch_eqb dot "." then rev stem else base
  | _, _ => base
  end.

(** [isProxyFile(filePath)] (lines 37-40). *)
Definition isProxyFile (filePath : str) : bool :=
  str_eqb (strip_extension (basename filePath)) (lit "proxy").

(** [resolveMiddlewareHandler(mod, filePath)] (lines 53-71). *)
Definition resolveMiddlewareHandler (mod_ : Module) (filePath : str)
  : outcome handler :=
  let isProxy := isProxyFile filePath in
  let h := if isProxy then nullish (mod_proxy mod_) (mod_default mod_)
           else nullish (mod_middleware mod_) (mod_default mod_) in
  match h with
  | ExFunction f => Ok f
  | _ =>
      let fileType := if isProxy then lit "Proxy" else lit "Middleware" in
      let expectedExport := if isProxy then lit "proxy" else lit "middleware" in
      let msg := lit "The " ++ fileType ++ lit " file " ++ [ascii_of_nat 34] ++
                 filePath ++ [ascii_of_nat 34] ++
                 lit " must export a function named `" ++ expectedExport ++
                 lit "` or a `default` function." in
      Thrown (mkError (Some msg) (lit "Error: " ++ msg))
  end.

(** ** middleware.ts: [runMiddleware] *)

Record MiddlewareResult : Type := mkResult {
  continue : bool;
  redirectUrl : option str;
  redirectStatus : option nat;
  rewriteUrl : option str;
  rewriteStatus : option nat;
  responseHeaders : option Headers;
  response : option Response
}.

(** The object literals the function returns. *)
Definition result_continue : MiddlewareResult :=
  mkResult true None None None None None None.
Definition result_response (r : Response) : MiddlewareResult :=
  mkResult false None None None None None (Some r).
Definition result_next (h : Headers) : MiddlewareResult :=
  mkResult true None None None None (Some h) None.
Definition result_redirect (location : str) (st : nat) : MiddlewareResult :=
  mkResult false (Some location) (Some st) None None None None.
Definition result_rewrite (path : str) (st : option nat) (h : Headers)
  : MiddlewareResult :=
  mkResult true None None (Some path) st (Some h) None.

(** The loop that copies the headers of the response, leaving out the
    keys for which [skip] holds (lines 303-311 and 331-336). *)
Definition copy_headers (skip : str -> bool) (h : Headers) : Headers :=
  fold_left
    (fun responseHeaders kv =>
       if skip (fst kv) then responseHeaders
       else headers_append responseHeaders (fst kv) (snd kv))
    h [].

(** The interpretation of the response of the handler (lines 295-354). *)
Definition interpret_response (platform : Platform) (request : Request)
    (resp : option Response) : MiddlewareResult :=
  match resp with
  | None => result_continue
  | Some response =>
      let get := headers_get (headers response) in
      let is_one v := match v with Some s => str_eqb s (lit "1") | None => false end in
      if is_one (get (lit "x-middleware-next")) then
        result_next
          (copy_headers
             (fun key => str_eqb key (lit "x-middleware-next") ||
                         str_eqb key (lit "x-middleware-rewrite"))
             (headers response))
      else
        let redirect :=
          if (300 <=? status response) && (status response <? 400) then
            match get (lit "Location") with
            | Some l => Some l
            | None => get (lit "location")
            end
          else None in
        match redirect with
        | Some (c :: l) => result_redirect (c :: l) (status response)
        | _ =>
            match get (lit "x-middleware-rewrite") with
            | Some (c :: u) =>
                let rewriteUrl := c :: u in
                let responseHeaders :=
                  copy_headers
                    (fun key => str_eqb key (lit "x-middleware-rewrite"))
                    (headers response) in
                let rewritePath :=
                  match URL_resolve platform rewriteUrl request with
                  | Some p => p
                  | None => rewriteUrl
                  end in
                result_rewrite rewritePath
                  (if status response =? 200 then None
                   else Some (status response))
                  responseHeaders
            | _ => result_response response
            end
        end
  end.

(** [process.env.NODE_ENV === "production"] *)
Definition is_production (NODE_ENV : option str) : bool :=
  match NODE_ENV with
  | Some env => str_eqb env (lit "production")
  | None => false
  end.

(** [runMiddleware(server, middlewarePath, request)] (lines 232-355), from
    the module [server.ssrLoadModule(middlewarePath)] has loaded;
    [NODE_ENV] is [process.env.NODE_ENV]. *)
Definition runMiddleware (engine : RegExpEngine) (platform : Platform)
    (NODE_ENV : option str) (mod_ : Module) (middlewarePath : str)
    (request : Request) : outcome MiddlewareResult :=
  match resolveMiddlewareHandler mod_ middlewarePath with
  | Thrown e => Thrown e
  | Ok middlewareFn =>
      let matcher := mod_matcher mod_ in
      match decodeURIComponent platform (url_pathname request) with
      | None => Ok (result_response (new_Response (lit "Bad Request") 400))
      | Some decodedPathname =>
          let normalizedPathname := normalizePath decodedPathname in
          if negb (matchesMiddleware engine normalizedPathname matcher) then
            Ok result_continue
          else
            let mwRequest :=
              if negb (str_eqb normalizedPathname (url_pathname request))
              then Request_with_pathname platform request normalizedPathname
              else request in
            match middlewareFn mwRequest with
            | Thrown e =>
                let message :=
                  if is_production NODE_ENV then Ok (lit "Internal Server Error")
                  else match error_text e with
                       | Ok text => Ok (lit "Middleware Error: " ++ text)
                       | Thrown raised => Thrown raised
                       end in
                match message with
                | Ok message => Ok (result_response (new_Response message 500))
                | Thrown raised => Thrown raised
                end
            | Ok resp => Ok (interpret_response platform request resp)
            end
      end
  end.

(** ** The worker entries *)

(** The calls a worker entry makes to the handlers behind it. *)
Inductive call : Type :=
| CallRscHandler (request : Request)
| CallHandleApiRoute (request : Request) (url : str)
| CallRenderPage (request : Request) (url : str).

(** What [rscHandler] resolves to: a [Response], [null] or [undefined], or
    some other value, of which [String(result)] is kept. *)
Inductive rsc_result : Type :=
| RscResponse (r : Response)
| RscNullish
| RscOther (text : str).

(** [fetch(request)] of [app-router-entry.ts] (lines 20-61): the response
    (or the exception that escapes), and the calls made on the way. *)
Definition app_router_fetch (platform : Platform)
    (rscHandler : Request -> outcome rsc_result) (request : Request)
  : outcome Response * list call :=
  let rawPathname := replaceAll "\" "/" (url_pathname request) in
  if startsWith (lit "//") rawPathname then
    (Ok (new_Response (lit "404 Not Found") 404), [])
  else
    match decodeURIComponent platform rawPathname with
    | None => (Ok (new_Response (lit "Bad Request") 400), [])
    | Some decoded =>
        let normalizedPathname := normalizePath decoded in
        let normalizedRequest :=
          if negb (str_eqb normalizedPathname (url_pathname request))
          then Request_with_pathname platform request normalizedPathname
          else request in
        let calls := [CallRscHandler normalizedRequest] in
        match rscHandler normalizedRequest with
        | Thrown e => (Thrown e, calls)
        | Ok (RscResponse r) => (Ok r, calls)
        | Ok RscNullish => (Ok (new_Response (lit "Not Found") 404), calls)
        | Ok (RscOther text) => (Ok (new_Response text 200), calls)
        end
    end.

(** [fetch(request)] of the Pages Router worker entry (lines 16-39): every
    exception is caught and answered by a 500. *)
Definition pages_router_fetch
    (handleApiRoute renderPage : Request -> str -> outcome Response)
    (request : Request) : outcome Response * list call :=
  let pathname := url_pathname request in
  let urlWithQuery := pathname ++ url_search request in
  let caught (r : outcome Response) :=
    match r with
    | Ok resp => Ok resp
    | Thrown _ => Ok (new_Response (lit "Internal Server Error") 500)
    end in
  if startsWith (lit "//") (replaceAll "\" "/" pathname) then
    (Ok (new_Response (lit "404 Not Found") 404), [])
  else if startsWith (lit "/api/") pathname || str_eqb pathname (lit "/api") then
    (caught (handleApiRoute request urlWithQuery),
     [CallHandleApiRoute request urlWithQuery])
  else
    (caught (renderPage request urlWithQuery),
     [CallRenderPage request urlWithQuery]).

(** ** A reference platform

    A percent-decoder for pathnames in ASCII (an escape is [%] and two
    hexadecimal digits below [80]; anything else after [%] is malformed),
    a request whose pathname is replaced as it is, and relative references
    resolved only when they are absolute paths. *)

Module RefPlatform.

Definition hex_value (c : ascii) : option nat :=
  let n := nat_of_ascii c in
  if (48 <=? n) && (n <=? 57) then Some (n - 48)
  else if (65 <=? n) && (n <=? 70) then Some (n - 55)
  else if (97 <=? n) && (n <=? 102) then Some (n - 87)
  else None.

Fixpoint decode (s : str) : option str :=
  match s with
  | [] => Some []
  | c :: r =>
      if ch_eqb c "%" then
        match r with
        | h :: l :: r' =>
            match hex_value h, hex_value l, decode r' with
            | Some a, Some b, Some d =>
                if a <? 8 then Some (ascii_of_nat (16 * a + b) :: d) else None
            | _, _, _ => None
            end
        | _ => None
        end
      else
        match decode r with
        | Some d => Some (c :: d)
        | None => None
        end
  end.

Definition with_pathname (r : Request) (p : str) : Request :=
  mkRequest p (url_search r).

Definition resolve (target : str) (base : Request) : option str :=
  if startsWith (lit "/") target then Some target else None.

Definition platform : Platform := mkPlatform decode with_pathname resolve.

End RefPlatform.
(** ** The shape of a pattern, for the statements about [__isSafeRegex]

    The specification speaks of groups, quantifiers and the nesting of
    one in the other.  A pattern is described here by the sequence of its
    items, as a reader of regular expressions sees them; [render] gives
    back the text. *)

Inductive quantifier : Type :=
| QPlus                       (* [+] *)
| QStar                       (* [*] *)
| QQuestion                   (* [?] *)
| QBraces (counts : str).     (* [{m}], [{m,}], [{m,n}] *)

(** An element of a bracket class: a character, or an escaped one. *)
Inductive class_atom : Type :=
| AChar (c : ascii)
| AEscape (c : ascii).

#[local] Unset Elimination Schemes.
Inductive item : Type :=
| IChar (c : ascii)                       (* an ordinary character *)
| IEscape (c : ascii)                     (* [\c] *)
| IClass (atoms : list class_atom)        (* [[...]] *)
| IQuant (q : quantifier)
| IGroup (non_capturing : bool) (body : list item).   (* [(...)], [(?:...)] *)
#[local] Set Elimination Schemes.

Definition render_quantifier (q : quantifier) : str :=
  match q with
  | QPlus => lit "+"
  | QStar => lit "*"
  | QQuestion => lit "?"
  | QBraces counts => lit "{" ++ counts ++ lit "}"
  end.

Definition render_atom (a : class_atom) : str :=
  match a with
  | AChar c => [c]
  | AEscape c => ["\"%char; c]
  end.

Definition render_atoms (atoms : list class_atom) : str :=
  concat (map render_atom atoms).

Fixpoint render_item (it : item) : str :=
  match it with
  | IChar c => [c]
  | IEscape c => ["\"%char; c]
  | IClass atoms => lit "[" ++ render_atoms atoms ++ lit "]"
  | IQuant q => render_quantifier q
  | IGroup nc body =>
      lit "(" ++ (if nc then lit "?:" else []) ++
      concat (map render_item body) ++ lit ")"
  end.

Definition render (items : list item) : str := concat (map render_item items).

(** The characters with a meaning of their own for the scan. *)
Definition is_special (c : ascii) : bool :=
  ch_eqb c "\" || ch_eqb c "[" || ch_eqb c "(" || ch_eqb c ")" ||
  ch_eqb c "+" || ch_eqb c "*" || ch_eqb c "?" || ch_eqb c "{".

Definition wf_quantifier (q : quantifier) : bool :=
  match q with
  | QBraces counts => negb (str_eqb counts []) && forallb is_digit_or_comma counts
  | _ => true
  end.

Definition wf_atom (a : class_atom) : bool :=
  match a with
  | AChar c => negb (ch_eqb c "]" || ch_eqb c "\")
  | AEscape _ => true
  end.

(** Items that read as they are written: an ordinary character is not a
    special one, the counts of a braced quantifier are digits and commas,
    a class ends at its closing bracket. *)
Fixpoint wf_item (it : item) : bool :=
  match it with
  | IChar c => negb (is_special c)
  | IEscape _ => true
  | IClass atoms => forallb wf_atom atoms
  | IQuant q => wf_quantifier q
  | IGroup _ body => forallb wf_item body
  end.

Definition wf_items (items : list item) : bool := forallb wf_item items.

(** [+], [*] and [{...}]: the quantifiers the scan looks for after a
    closing parenthesis. *)
Definition repeats (q : quantifier) : bool :=
  match q with
  | QQuestion => false
  | _ => true
  end.

(** Is the text [s] ended by [+], [*], [?] or [}]: a [?] that follows
    makes a quantifier lazy, or follows a brace, and is not counted. *)
Definition lazy_before (s : str) : bool :=
  match rev s with
  | c :: _ => ch_eqb c "+" || ch_eqb c "*" || ch_eqb c "?" || ch_eqb c "}"
  | [] => false
  end.

(** What the scan looks for after a closing parenthesis:
    [next === "+" || next === "*" || next === "{"]. *)
Definition repeat_follows (s : str) : bool :=
  match s with
  | c :: _ => ch_eqb c "+" || ch_eqb c "*" || ch_eqb c "{"
  | [] => false
  end.

(** A quantifier among the items themselves (not inside a group among
    them), a [?] counting only where it quantifies. *)
Definition directly_quantified (before : str) (items : list item) : Prop :=
  exists l1 q l2,
    items = l1 ++ IQuant q :: l2 /\
    (q = QQuestion -> lazy_before (before ++ render l1) = false).

(** The nested-quantifier shape: somewhere in the pattern, at any depth, a
    group with a quantifier among its own items is followed by [+], [*]
    or [{...}]. *)
Inductive nested_quantifier : list item -> Prop :=
| nested_here (l1 : list item) (nc : bool) (body : list item)
    (q : quantifier) (l2 : list item) :
    directly_quantified (lit "(") body -> repeats q = true ->
    nested_quantifier (l1 ++ IGroup nc body :: IQuant q :: l2)
| nested_inside (l1 : list item) (nc : bool) (body l2 : list item) :
    nested_quantifier body ->
    nested_quantifier (l1 ++ IGroup nc body :: l2).

(** A quantifier anywhere inside, at whatever depth. *)
Fixpoint contains_quantifier (it : item) : bool :=
  match it with
  | IQuant _ => true
  | IGroup _ body => existsb contains_quantifier body
  | _ => false
  end.

(** What the scan does over a stretch of the pattern at depth [d], from
    the flags [q]: it either rejects the pattern, or arrives behind the
    stretch at the same depth with flags [q'] that keep every flag that
    was set at this depth or above it. *)
Definition scans_over (p : str) (done text : str) (q : flags) (d : nat)
    (marked : Prop) : Prop :=
  scan_loop p (mkScan q d (length done)) = false \/
  exists q',
    scan_loop p (mkScan q d (length done)) =
    scan_loop p (mkScan q' d (length (done ++ text))) /\
    (forall k, k <= d -> flag_at q k = true -> flag_at q' k = true) /\
    (0 < d -> marked -> flag_at q' d = true).

Definition item_scanned (it : item) : Prop :=
  wf_item it = true ->
  forall (done rest : str) (q : flags) (d : nat),
    scans_over (done ++ render_item it ++ rest) done (render_item it) q d
      (exists qq, it = IQuant qq /\
                  (qq = QQuestion -> lazy_before done = false)).

Definition items_scanned (items : list item) : Prop :=
  wf_items items = true ->
  forall (done rest : str) (q : flags) (d : nat),
    scans_over (done ++ render items ++ rest) done (render items) q d
      (directly_quantified done items).

(** The text that opens a group. *)
Definition opener (nc : bool) : str := lit "(" ++ (if nc then lit "?:" else []).

(** Induction on items, through the bodies of the groups. *)
Section ItemInduction.

Variable P : item -> Prop.
Hypothesis HChar : forall c, P (IChar c).
Hypothesis HEscape : forall c, P (IEscape c).
Hypothesis HClass : forall atoms, P (IClass atoms).
Hypothesis HQuant : forall q, P (IQuant q).
Hypothesis HGroup : forall nc body, Forall P body -> P (IGroup nc body).

Fixpoint item_induction (it : item) : P it :=
  match it with
  | IChar c => HChar c
  | IEscape c => HEscape c
  | IClass atoms => HClass atoms
  | IQuant q => HQuant q
  | IGroup nc body =>
      HGroup nc body
        ((fix all (l : list item) : Forall P l :=
            match l with
            | [] => Forall_nil P
            | x :: l' => Forall_cons x (item_induction x) (all l')
            end) body)
  end.

End ItemInduction.

(** ** Predicates used in the statements *)

(** A resolved path segment: not empty, not [.], not [..], without [/]. *)
Definition resolved_segment (seg : str) : Prop :=
  seg <> [] /\ seg <> lit "." /\ seg <> lit ".." /\ ~ In "/"%char seg.

(** The canonical shape of a pathname, stated on the string itself:
    no [//], no [/./], no [/../], no final [/.] or [/..], and exactly one
    leading slash. *)
Definition canonical_shape (p : str) : Prop :=
  includes (lit "//") p = false /\
  includes (lit "/./") p = false /\
  includes (lit "/../") p = false /\
  endsWith (lit "/.") p = false /\
  endsWith (lit "/..") p = false /\
  startsWith (lit "/") p = true /\
  startsWith (lit "//") p = false.

(** The text after a greedy run of the class [f]: empty, or begun by a
    character outside the class. *)
Definition stops (f : ascii -> bool) (s : str) : Prop :=
  match s with
  | [] => True
  | c :: _ => f c = false
  end.


(** The routing sentinel headers. *)
Definition is_sentinel (key : str) : bool :=
  str_eqb key (lit "x-middleware-next") ||
  str_eqb key (lit "x-middleware-rewrite").

(** ** Modules used in the examples *)





(** A module whose default export answers every request by a rewrite to
    [/target] that also carries a custom header and [x-middleware-next: 0]. *)
Definition rewriting_response : Response :=
  mkResponse 200 []
    [(lit "x-custom", lit "v");
     (lit "x-middleware-next", lit "0");
     (lit "x-middleware-rewrite", lit "/target")].

Definition rewriting_module : Module :=
  mkModule ExUndefined ExUndefined
    (ExFunction (fun _ => Ok (Some rewriting_response))) None.


(** The line feed, which [%0A] decodes to. *)
Definition line_feed : ascii := ascii_of_nat 10.

(** A module that guards everything under [/optional]: its matcher is
    [/optional/:path*] and its default export answers every request it
    is called with by a 403. *)
Definition guarding_module : Module :=
  mkModule ExUndefined ExUndefined
    (ExFunction (fun _ => Ok (Some (new_Response (lit "Forbidden") 403))))
    (Some (MatcherString (lit "/optional/:path*"))).
(** ** middleware-codegen.ts: [__normalizePath]

    The copy of [normalizePath] that the generated entries inline
    (lines 104-126).  Its loop runs over the indices of [segments]. *)

(** [for (i = 0; i < segments.length; i++) { seg = segments[i]; ... }]:
    [n] bounds the number of iterations, [segments.length] is enough. *)
Fixpoint __resolve_loop (n : nat) (segments : list str) (i : nat)
    (resolved : list str) : list str :=
  match n with
  | 0 => resolved
  | S n' =>
      if i <? length segments then
        let seg := nth i segments [] in
        __resolve_loop n' segments (i + 1) (resolve_segment resolved seg)
      else resolved
  end.

Definition __normalizePath (pathname : str) : str :=
  if is_canonical pathname then pathname
  else
    let segments := split "/" pathname in
    let resolved := __resolve_loop (length segments) segments 0 [] in
    lit "/" ++ join (lit "/") resolved.

(** [n] times the text [s]. *)
Fixpoint times (n : nat) (s : str) : str :=
  match n with
  | 0 => []
  | S n' => s ++ times n' s
  end.

(** The segments that [normalizePath] resolves on its slow path. *)
Definition resolved_of (pathname : str) : list str :=
  fold_left resolve_segment (split "/" pathname) [].

(** A pattern with every dot escaped. *)
Definition escape_dots (pattern : str) : str :=
  flat_map (fun c => if ch_eqb c "." then lit "\." else [c]) pattern.

(** The pattern an element of a [matcher] array stands for, if any. *)
Definition entry_source (m : matcher_entry) : option str :=
  match m with
  | EntryString s => Some s
  | EntryObject (Some source) => Some source
  | EntryObject None => None
  | EntryOther => None
  end.


(** ** middleware.ts: finding the middleware file *)

(** The candidate files, in the order they are tried (lines 77-95). *)
Definition PROXY_FILES : list str :=
  [lit "proxy.ts"; lit "proxy.js"; lit "proxy.mjs";
   lit "src/proxy.ts"; lit "src/proxy.js"; lit "src/proxy.mjs"].

Definition MIDDLEWARE_FILES : list str :=
  [lit "middleware.ts"; lit "middleware.tsx"; lit "middleware.js";
   lit "middleware.mjs"; lit "src/middleware.ts"; lit "src/middleware.tsx";
   lit "src/middleware.js"; lit "src/middleware.mjs"].

(** The file system as [findMiddlewareFile] uses it: [fs.existsSync] and
    [path.join]. *)
Record FileSystem : Type := mkFileSystem {
  existsSync : str -> bool;
  path_join : str -> str -> str
}.

(** One of the two [for (const file of FILES)] loops: the full path of
    the first candidate that exists. *)
Fixpoint first_existing (fs : FileSystem) (root : str) (files : list str)
  : option str :=
  match files with
  | [] => None
  | file :: files' =>
      let fullPath := path_join fs root file in
      if existsSync fs fullPath then Some fullPath
      else first_existing fs root files'
  end.

(** [findMiddlewareFile(root)] (lines 102-123): the path found, or [None]
    for [null], and whether the deprecation warning was logged. *)
Definition findMiddlewareFile (fs : FileSystem) (root : str)
  : option str * bool :=
  match first_existing fs root PROXY_FILES with
  | Some fullPath => (Some fullPath, false)
  | None =>
      match first_existing fs root MIDDLEWARE_FILES with
      | Some fullPath => (Some fullPath, true)
      | None => (None, false)
      end
  end.

(** A [path.join] for a root without a trailing slash and a relative
    file name. *)
Definition simple_join (root file : str) : str := root ++ lit "/" ++ file.

(** A project that has both [src/proxy.js] and [middleware.ts]. *)
Definition both_files : FileSystem :=
  mkFileSystem
    (fun p => str_eqb p (lit "/app/src/proxy.js") ||
              str_eqb p (lit "/app/middleware.ts"))
    simple_join.

(** The candidates that exist under [root], in the order they are
    tried. *)
Definition existing (fs : FileSystem) (root : str) (files : list str)
  : list str :=
  filter (existsSync fs) (map (path_join fs root) files).

(** ** The shapes of a middleware result *)

(** What the callers of [runMiddleware] rely on: a result that does not
    continue carries a response or a redirect to a non-empty URL with a
    3xx status, a result that continues carries neither, and a rewrite is
    a result that continues and forwards headers. *)
Definition result_shape (r : MiddlewareResult) : Prop :=
  (continue r = true ->
   response r = None /\ redirectUrl r = None /\ redirectStatus r = None) /\
  (continue r = false ->
   (exists resp, response r = Some resp /\ redirectUrl r = None) \/
   (exists c u st, redirectUrl r = Some (c :: u) /\ redirectStatus r = Some st /\
                   300 <= st < 400 /\ response r = None)) /\
  (rewriteUrl r <> None -> continue r = true /\ responseHeaders r <> None) /\
  (forall st, rewriteStatus r = Some st -> st <> 200 /\ rewriteUrl r <> None).

(** A response that asks to continue, and also carries a redirect status
    with a location and a rewrite target. *)
Definition next_response : Response :=
  mkResponse 307 []
    [(lit "location", lit "/login");
     (lit "x-middleware-next", lit "1");
     (lit "x-middleware-rewrite", lit "/target");
     (lit "x-custom", lit "v")].

(** ** The guard of the worker entries, on the characters of the pathname *)

Definition is_slash_like (c : ascii) : bool := ch_eqb c "/" || ch_eqb c "\".

(** The pathname begins with two characters that are each a slash or a
    backslash. *)
Definition two_leading_slashes (pathname : str) : bool :=
  match pathname with
  | a :: b :: _ => is_slash_like a && is_slash_like b
  | _ => false
  end.

(** The routing test of the Pages Router entry. *)
Definition is_api_path (pathname : str) : bool :=
  startsWith (lit "/api/") pathname || str_eqb pathname (lit "/api").

(** A handler that throws on every call. *)
Definition failing_handler (_ : Request) (_ : str) : outcome Response :=
  Thrown (mkError (Some (lit "boom")) (lit "Error: boom")).

Definition failing_rsc (_ : Request) : outcome rsc_result :=
  Thrown (mkError (Some (lit "boom")) (lit "Error: boom")).

(** ** The Pages Router worker of an application (worker/index.ts) *)

(** [new Response(null, { status, headers: { Location: location } })];
    the body is empty. *)
Definition redirect_Response (st : nat) (location : str) : Response :=
  mkResponse st [] [(lit "location", location)].

(** [pathname.slice(basePath.length) || "/"] *)
Definition strip_basePath (basePath pathname : str) : str :=
  match skipn (length basePath) pathname with
  | [] => lit "/"
  | stripped => stripped
  end.

(** [pathname.replace(re, "")] for the regular expression of one or more
    slashes at the end of the input: the final run of slashes is
    removed. *)
Definition strip_trailing_slashes (pathname : str) : str :=
  rev (drop_while (fun c => ch_eqb c "/") (rev pathname)).

(** How the first part of [fetch] ends: with a response, or with the
    [pathname] and [urlWithQuery] the rest of the function goes on
    with. *)
Inductive prelude : Type :=
| Respond (r : Response)
| Proceed (pathname urlWithQuery : str).

(** The first part of [fetch] (lines 35-66): the guard against
    protocol-relative URLs, the removal of [basePath], and the
    trailing-slash redirects. [basePath] and [trailingSlash] are the
    values of the configuration. *)
Definition worker_prelude (basePath : str) (trailingSlash : bool)
    (request : Request) : prelude :=
  let search := url_search request in
  let pathname := url_pathname request in
  let urlWithQuery := pathname ++ search in
  if startsWith (lit "//") (replaceAll "\" "/" pathname) then
    Respond (new_Response (lit "404 Not Found") 404)
  else
    let stripping := negb (str_eqb basePath []) && startsWith basePath pathname in
    let stripped := strip_basePath basePath pathname in
    let urlWithQuery := if stripping then stripped ++ search else urlWithQuery in
    let pathname := if stripping then stripped else pathname in
    if negb (str_eqb pathname (lit "/")) && negb (startsWith (lit "/api") pathname)
    then
      let hasTrailing := endsWith (lit "/") pathname in
      if trailingSlash && negb hasTrailing then
        Respond (redirect_Response 308
                   (((basePath ++ pathname) ++ lit "/") ++ search))
      else if negb trailingSlash && hasTrailing then
        Respond (redirect_Response 308
                   ((basePath ++ strip_trailing_slashes pathname) ++ search))
      else Proceed pathname urlWithQuery
    else Proceed pathname urlWithQuery.














(* ================================================================== *)
(** * Part II: properties *)
(* ================================================================== *)

(** ** Facts about the string operations *)

Section StringFacts.

Lemma ch_eqb_eq (a b : ascii) : ch_eqb a b = true <-> a = b.
Proof. apply Ascii.eqb_eq. Qed.

Lemma ch_eqb_refl (a : ascii) : ch_eqb a a = true.
Proof. apply Ascii.eqb_refl. Qed.

Lemma ch_eqb_neq (a b : ascii) : ch_eqb a b = false <-> a <> b.
Proof. apply Ascii.eqb_neq. Qed.

Lemma str_eqb_eq (a b : str) : str_eqb a b = true <-> a = b.
Proof.
  revert b; induction a as [|x a IH]; intros [|y b]; simpl;
    try (split; [discriminate | discriminate]); try tauto.
  rewrite andb_true_iff, ch_eqb_eq, IH.
  split; [intros [-> ->]; reflexivity | intros H; injection H; auto].
Qed.

Lemma str_eqb_refl (a : str) : str_eqb a a = true.
Proof. apply str_eqb_eq; reflexivity. Qed.

Lemma str_eqb_neq (a b : str) : str_eqb a b = false <-> a <> b.
Proof.
  rewrite <- str_eqb_eq. destruct (str_eqb a b); split; congruence.
Qed.

Lemma startsWith_spec (pre s : str) :
  startsWith pre s = true <-> exists r, s = pre ++ r.
Proof.
  revert s; induction pre as [|x pre IH]; intros s; simpl.
  - split; [intros _; exists s; reflexivity | reflexivity].
  - destruct s as [|y s].
    + split; [discriminate | intros [r H]; discriminate].
    + rewrite andb_true_iff, ch_eqb_eq, IH. split.
      * intros [-> [r ->]]. exists r; reflexivity.
      * intros [r H]. injection H as -> ->. split; [reflexivity | eauto].
Qed.

Lemma includes_spec (sub s : str) :
  includes sub s = true <-> exists a b, s = a ++ sub ++ b.
Proof.
  induction s as [|y s IH]; simpl.
  - rewrite orb_false_r, startsWith_spec. split.
    + intros [r H]. exists [], r. exact H.
    + intros [a [b H]]. destruct a; [eauto | discriminate].
  - rewrite orb_true_iff, startsWith_spec, IH. split.
    + intros [[r H] | [a [b H]]].
      * exists [], r. exact H.
      * exists (y :: a), b. simpl. rewrite H. reflexivity.
    + intros [[|x a] [b H]].
      * left. exists b. exact H.
      * right. injection H as _ H. eauto.
Qed.

Lemma includes_false (sub s : str) :
  (forall a b, s <> a ++ sub ++ b) -> includes sub s = false.
Proof.
  intros H. destruct (includes sub s) eqn:E; [|reflexivity].
  apply includes_spec in E. destruct E as [a [b E]]. destruct (H a b E).
Qed.

Lemma endsWith_spec (suf s : str) :
  endsWith suf s = true <-> exists a, s = a ++ suf.
Proof.
  unfold endsWith. rewrite andb_true_iff, Nat.leb_le, str_eqb_eq. split.
  - intros [_ H]. exists (firstn (length s - length suf) s).
    rewrite <- H at 2. symmetry. apply firstn_skipn.
  - intros [a ->]. rewrite length_app. split; [lia|].
    replace (length a + length suf - length suf) with (length a + 0) by lia.
    rewrite skipn_app, Nat.add_0_r, skipn_all.
    replace (length a - length a) with 0 by lia. reflexivity.
Qed.

Lemma endsWith_false (suf s : str) :
  (forall a, s <> a ++ suf) -> endsWith suf s = false.
Proof.
  intros H. destruct (endsWith suf s) eqn:E; [|reflexivity].
  apply endsWith_spec in E. destruct E as [a E]. destruct (H a E).
Qed.

(** *** [split] and [join] *)

Variable c : ascii.

Lemma split_nonempty (s : str) : split c s <> [].
Proof.
  destruct s as [|x s]; simpl; [discriminate|].
  destruct (ch_eqb x c); [discriminate|].
  destruct (split c s); discriminate.
Qed.

Lemma split_cons_sep (s : str) : split c (c :: s) = [] :: split c s.
Proof. simpl. rewrite ch_eqb_refl. reflexivity. Qed.

Lemma split_cons_other (x : ascii) (s : str) :
  x <> c ->
  split c (x :: s) = (x :: hd [] (split c s)) :: tl (split c s).
Proof.
  intros H. simpl. apply ch_eqb_neq in H. rewrite H.
  destruct (split c s) eqn:E; [destruct (split_nonempty _ E)|reflexivity].
Qed.

(** A separator inside a string separates its segments. *)
Lemma split_app (a b : str) :
  split c (a ++ c :: b) = split c a ++ split c b.
Proof.
  induction a as [|x a IH].
  - simpl app. apply split_cons_sep.
  - simpl app. destruct (ch_eqb x c) eqn:E.
    + apply ch_eqb_eq in E. subst x.
      rewrite !split_cons_sep, IH. reflexivity.
    + apply ch_eqb_neq in E.
      rewrite !split_cons_other, IH by assumption.
      destruct (split c a) eqn:Ea; [destruct (split_nonempty _ Ea)|].
      reflexivity.
Qed.

Lemma split_no_sep (x : str) : ~ In c x -> split c x = [x].
Proof.
  induction x as [|y x IH]; intros H; [reflexivity|].
  rewrite split_cons_other, IH; simpl in *; [reflexivity | tauto | intuition].
Qed.

Lemma split_segments_no_sep (s seg : str) :
  In seg (split c s) -> ~ In c seg.
Proof.
  revert seg; induction s as [|y s IH]; intros seg.
  - simpl. intros [<- | []]. exact (fun F => F).
  - destruct (ch_eqb y c) eqn:E.
    + apply ch_eqb_eq in E. subst y. rewrite split_cons_sep.
      intros [<- | H]; [exact (fun F => F) | apply IH; exact H].
    + apply ch_eqb_neq in E. rewrite split_cons_other by assumption.
      destruct (split c s) as [|h t] eqn:Es; [destruct (split_nonempty _ Es)|].
      simpl. intros [<- | H].
      * intros [F | F]; [congruence | exact (IH h (or_introl eq_refl) F)].
      * apply IH. right. exact H.
Qed.

(** [join] undoes [split]. *)
Lemma join_split (s : str) : join [c] (split c s) = s.
Proof.
  induction s as [|y s IH]; [reflexivity|].
  destruct (ch_eqb y c) eqn:E.
  - apply ch_eqb_eq in E. subst y. rewrite split_cons_sep.
    destruct (split c s) as [|h t] eqn:Es; [destruct (split_nonempty _ Es)|].
    change (join [c] ([] :: h :: t)) with (c :: join [c] (h :: t)).
    rewrite IH. reflexivity.
  - apply ch_eqb_neq in E. rewrite split_cons_other by assumption.
    destruct (split c s) as [|h t] eqn:Es; [destruct (split_nonempty _ Es)|].
    simpl hd; simpl tl. rewrite <- IH.
    destruct t; reflexivity.
Qed.

(** [split] undoes [join] on segments free of the separator. *)
Lemma split_join (x : str) (l : list str) :
  Forall (fun seg => ~ In c seg) (x :: l) ->
  split c (join [c] (x :: l)) = x :: l.
Proof.
  revert x; induction l as [|y l IH]; intros x H.
  - simpl. apply split_no_sep. inversion H; assumption.
  - change (join [c] (x :: y :: l)) with (x ++ c :: join [c] (y :: l)).
    inversion H as [|? ? Hx Hl]; subst.
    rewrite split_app, (IH y Hl), (split_no_sep x Hx). reflexivity.
Qed.

(** A segment between two separators, or after the last one, is one of
    the segments that follow the first. *)
Lemma split_middle (a x b : str) :
  ~ In c x -> In x (tl (split c (a ++ c :: x ++ c :: b))).
Proof.
  intros H. rewrite split_app, split_app, (split_no_sep x H).
  destruct (split c a) eqn:E; [destruct (split_nonempty _ E)|].
  simpl. apply in_or_app. right. left. reflexivity.
Qed.

Lemma split_last (a x : str) :
  ~ In c x -> In x (tl (split c (a ++ c :: x))).
Proof.
  intros H. rewrite split_app, (split_no_sep x H).
  destruct (split c a) eqn:E; [destruct (split_nonempty _ E)|].
  simpl. apply in_or_app. right. left. reflexivity.
Qed.

End StringFacts.

(** Comparisons of two character constants are evaluated. *)
Ltac eval_ch_eqb :=
  repeat match goal with
         | |- context [ch_eqb ?a ?b] =>
             let v := eval vm_compute in (ch_eqb a b) in
             match v with
             | true => change (ch_eqb a b) with true
             | false => change (ch_eqb a b) with false
             end
         end.

(** ** Examples for [normalizePath] (rules 1-5 of its documentation) *)

Example normalizePath_ex1 :
  normalizePath (lit "//foo///bar") = lit "/foo/bar" /\
  normalizePath (lit "/foo/./bar") = lit "/foo/bar" /\
  normalizePath (lit "/foo/../bar") = lit "/bar" /\
  normalizePath (lit "foo/bar") = lit "/foo/bar" /\
  normalizePath (lit "/") = lit "/" /\
  normalizePath (lit "/../..") = lit "/" /\
  normalizePath (lit "") = lit "/".
Proof. repeat split; reflexivity. Qed.
(** ** [normalizePath]: canonical output, idempotence, trailing slashes *)

Section NormalizePath.

Local Notation "'slash'" := ("/"%char).

Lemma Forall_removelast {A} (P : A -> Prop) (l : list A) :
  Forall P l -> Forall P (removelast l).
Proof.
  induction 1 as [|x l Hx Hl IH]; simpl; [constructor|].
  destruct l; [constructor | constructor; assumption].
Qed.

Lemma resolve_segment_resolved (acc : list str) (seg : str) :
  Forall resolved_segment acc -> ~ In slash seg ->
  Forall resolved_segment (resolve_segment acc seg).
Proof.
  intros Hacc Hseg. unfold resolve_segment.
  destruct (str_eqb seg []) eqn:E1;
    [rewrite orb_true_l; exact Hacc | rewrite orb_false_l].
  destruct (str_eqb seg (lit ".")) eqn:E2; [exact Hacc|].
  destruct (str_eqb seg (lit "..")) eqn:E3.
  - apply Forall_removelast; assumption.
  - apply Forall_app. split; [assumption|]. constructor; [|constructor].
    apply str_eqb_neq in E1, E2, E3.
    split; [|split; [|split]]; assumption.
Qed.

Lemma fold_resolve_resolved (segs : list str) (acc : list str) :
  Forall resolved_segment acc ->
  Forall (fun seg => ~ In slash seg) segs ->
  Forall resolved_segment (fold_left resolve_segment segs acc).
Proof.
  revert acc; induction segs as [|s segs IH]; intros acc Hacc Hsegs.
  - exact Hacc.
  - simpl. inversion Hsegs; subst.
    apply IH; [apply resolve_segment_resolved|]; assumption.
Qed.

(** The segments the slow path rejoins are all resolved segments. *)
Lemma resolve_path_segments (p : str) :
  Forall resolved_segment (fold_left resolve_segment (split slash p) []).
Proof.
  apply fold_resolve_resolved; [constructor|].
  apply Forall_forall. intros seg. apply split_segments_no_sep.
Qed.

Lemma resolved_no_slash (l : list str) :
  Forall resolved_segment l -> Forall (fun seg => ~ In slash seg) l.
Proof. apply Forall_impl. intros seg H. apply H. Qed.

(** A string whose segments after the leading slash are resolved has no
    occurrence of a forbidden segment. *)
Lemma no_forbidden_segment (q x : str) (l : list str) :
  tl (split slash q) = l -> Forall resolved_segment l ->
  ~ resolved_segment x -> ~ In slash x ->
  (forall a b, q <> a ++ slash :: x ++ slash :: b) /\
  (forall a, q <> a ++ slash :: x).
Proof.
  intros Hq Hl Hx Hs. rewrite Forall_forall in Hl. split.
  - intros a b E. apply Hx, Hl. rewrite <- Hq, E. apply split_middle, Hs.
  - intros a E. apply Hx, Hl. rewrite <- Hq, E. apply split_last, Hs.
Qed.

Lemma not_resolved_empty : ~ resolved_segment [].
Proof. intros [H _]. apply H. reflexivity. Qed.

Lemma not_resolved_dot : ~ resolved_segment (lit ".").
Proof. intros [_ [H _]]. apply H. reflexivity. Qed.

Lemma not_resolved_dotdot : ~ resolved_segment (lit "..").
Proof. intros [_ [_ [H _]]]. apply H. reflexivity. Qed.

Lemma no_slash_dots : ~ In slash [] /\ ~ In slash (lit ".") /\ ~ In slash (lit "..").
Proof.
  repeat split; simpl; intros H;
    repeat (destruct H as [H|H]; [discriminate H|]); exact H.
Qed.

(** The string a non-empty list of resolved segments is rejoined into. *)
Lemma join_resolved_shape (x : str) (l : list str) :
  Forall resolved_segment (x :: l) ->
  let q := lit "/" ++ join (lit "/") (x :: l) in
  canonical_shape q /\ is_canonical q = true.
Proof.
  intros H q.
  assert (Hq : tl (split slash q) = x :: l).
  { unfold q. change (lit "/" ++ ?s) with (slash :: s).
    rewrite split_cons_sep. simpl tl.
    apply (split_join slash), resolved_no_slash, H. }
  destruct no_slash_dots as [S0 [S1 S2]].
  destruct (no_forbidden_segment q [] _ Hq H not_resolved_empty S0) as [A0 _].
  destruct (no_forbidden_segment q (lit ".") _ Hq H not_resolved_dot S1) as [A1 B1].
  destruct (no_forbidden_segment q (lit "..") _ Hq H not_resolved_dotdot S2) as [A2 B2].
  assert (I0 : includes (lit "//") q = false).
  { apply includes_false. intros a b. exact (A0 a b). }
  assert (I1 : includes (lit "/./") q = false).
  { apply includes_false. intros a b. exact (A1 a b). }
  assert (I2 : includes (lit "/../") q = false).
  { apply includes_false. intros a b. exact (A2 a b). }
  assert (E1 : endsWith (lit "/.") q = false).
  { apply endsWith_false. intros a. exact (B1 a). }
  assert (E2 : endsWith (lit "/..") q = false).
  { apply endsWith_false. intros a. exact (B2 a). }
  assert (Hx : x <> []).
  { inversion H as [|? ? [Hx _] _]. exact Hx. }
  assert (P2 : startsWith (lit "//") q = false).
  { destruct (startsWith (lit "//") q) eqn:E; [|reflexivity].
    apply startsWith_spec in E. destruct E as [r E].
    destruct (A0 [] r). exact E. }
  split.
  - repeat split; try assumption.
  - unfold is_canonical. rewrite I0, I1, I2, E1, E2.
    unfold q. destruct x as [|y x]; [congruence|].
    destruct l; reflexivity.
Qed.

(** Whatever the input, the slow path produces the canonical shape and a
    fixed point of the fast-path test. *)
Lemma resolve_path_canonical (p : str) :
  canonical_shape (resolve_path p) /\ is_canonical (resolve_path p) = true.
Proof.
  unfold resolve_path. cbv zeta.
  pose proof (resolve_path_segments p) as H.
  destruct (fold_left resolve_segment (split slash p) []) as [|x l].
  - split; [repeat split|]; reflexivity.
  - apply join_resolved_shape. exact H.
Qed.

(** The fast-path test implies the canonical shape. *)
Lemma is_canonical_shape (p : str) :
  is_canonical p = true -> canonical_shape p.
Proof.
  unfold is_canonical. intros H. apply orb_true_iff in H.
  destruct H as [H | H].
  - apply str_eqb_eq in H. subst p. repeat split; reflexivity.
  - apply andb_true_iff in H; destruct H as [H E2].
    apply andb_true_iff in H; destruct H as [H E1].
    apply andb_true_iff in H; destruct H as [H I2].
    apply andb_true_iff in H; destruct H as [H I1].
    apply andb_true_iff in H; destruct H as [H I0].
    apply andb_true_iff in H; destruct H as [_ H].
    apply negb_true_iff in E2, E1, I2, I1, I0.
    destruct p as [|c p]; [discriminate|]. simpl in H.
    apply ch_eqb_eq in H. subst c.
    repeat split; try assumption.
    destruct (startsWith (lit "//") (slash :: p)) eqn:E; [|reflexivity].
    apply startsWith_spec in E. destruct E as [r E].
    assert (F : includes (lit "//") (slash :: p) = true).
    { apply includes_spec. exists [], r. exact E. }
    congruence.
Qed.

End NormalizePath.

(** C3. For every pathname [p] (so in particular for those containing [//],
    [/./] or [/../]), [normalizePath p] contains no [//], no [/./] and no
    [/../], does not end in [/.] or [/..], begins with exactly one slash, and
    normalising it again changes nothing. *)
Theorem normalizePath_canonical_idempotent (p : str) :
  canonical_shape (normalizePath p) /\
  normalizePath (normalizePath p) = normalizePath p.
Proof.
  unfold normalizePath at 1 3 4.
  destruct (is_canonical p) eqn:E.
  - split; [apply is_canonical_shape; exact E|].
    unfold normalizePath. rewrite E. reflexivity.
  - destruct (resolve_path_canonical p) as [Hs Hc].
    split; [exact Hs|]. unfold normalizePath. rewrite Hc. reflexivity.
Qed.
(** ** The slow path of [normalizePath] on canonical input *)

Section SlowPathOnCanonical.

Local Notation "'slash'" := ("/"%char).

(** Where a segment sits in a rejoined string. *)
Lemma join_segment_position (c : ascii) (l1 : list str) (x : str) (l2 : list str) :
  exists a,
    c :: join [c] (l1 ++ x :: l2) =
    a ++ c :: x ++ match l2 with [] => [] | _ :: _ => c :: join [c] l2 end.
Proof.
  induction l1 as [|y l1 [a IH]].
  - exists []. destruct l2; simpl; [rewrite app_nil_r|]; reflexivity.
  - exists (c :: y ++ a).
    replace (join [c] ((y :: l1) ++ x :: l2))
      with (y ++ c :: join [c] (l1 ++ x :: l2))
      by (destruct l1; reflexivity).
    rewrite IH. simpl. rewrite <- app_assoc. reflexivity.
Qed.

(** A segment of [c :: s] is followed by a separator or ends the string. *)
Lemma split_segment_position (c : ascii) (s x : str) :
  In x (split c s) ->
  (exists a b, c :: s = a ++ c :: x ++ c :: b) \/ (exists a, c :: s = a ++ c :: x).
Proof.
  intros H. apply in_split in H. destruct H as [l1 [l2 H]].
  destruct (join_segment_position c l1 x l2) as [a E].
  rewrite <- H, join_split in E. destruct l2 as [|y l2].
  - right. exists a. rewrite app_nil_r in E. exact E.
  - left. exists a, (join [c] (y :: l2)). exact E.
Qed.

Lemma fold_resolve_pushes (l acc : list str) :
  Forall resolved_segment l ->
  fold_left resolve_segment l acc = acc ++ l.
Proof.
  revert acc; induction l as [|x l IH]; intros acc H.
  - rewrite app_nil_r. reflexivity.
  - inversion H as [|? ? [H0 [H1 [H2 _]]] Hl]; subst. simpl.
    unfold resolve_segment at 2.
    apply str_eqb_neq in H0, H1, H2. rewrite H0, H1, H2. simpl.
    rewrite IH, <- app_assoc by assumption. reflexivity.
Qed.

(** On a canonical pathname that does not end in a slash, the slow path
    would return the pathname itself: the two branches of
    [normalizePath] differ on trailing slashes only. *)
Lemma resolve_path_canonical_no_trailing (p : str) :
  is_canonical p = true -> endsWith (lit "/") p = false ->
  resolve_path p = p.
Proof.
  intros Hc Ht. destruct (is_canonical_shape p Hc) as [I0 [I1 [I2 [E1 [E2 [S1 _]]]]]].
  destruct p as [|c s]; [discriminate|].
  simpl in S1. rewrite andb_true_r in S1. apply ch_eqb_eq in S1. subst c.
  assert (R : Forall resolved_segment (split slash s)).
  { apply Forall_forall. intros x Hx.
    pose proof (split_segments_no_sep slash s x Hx) as Hs.
    pose proof (split_segment_position slash s x Hx) as Hp.
    assert (N : forall y, x = y ->
              (includes (slash :: y ++ [slash]) (slash :: s) = false) ->
              (endsWith (slash :: y) (slash :: s) = false) -> False).
    { intros y -> Hi He. destruct Hp as [[a [b Hp]] | [a Hp]].
      - assert (F : includes (slash :: y ++ [slash]) (slash :: s) = true).
        { apply includes_spec. exists a, b. rewrite Hp. simpl.
          rewrite <- app_assoc. reflexivity. }
        congruence.
      - assert (F : endsWith (slash :: y) (slash :: s) = true).
        { apply endsWith_spec. exists a. exact Hp. }
        congruence. }
    split; [|split; [|split]]; try assumption; intros Hy.
    - exact (N [] Hy I0 Ht).
    - exact (N (lit ".") Hy I1 E1).
    - exact (N (lit "..") Hy I2 E2). }
  unfold resolve_path. cbv zeta. rewrite split_cons_sep.
  change (fold_left resolve_segment ([] :: split slash s) [])
    with (fold_left resolve_segment (split slash s) []).
  rewrite (fold_resolve_pushes _ [] R). simpl app.
  change (lit "/") with [slash]. rewrite join_split. reflexivity.
Qed.

(** The slow path never leaves a trailing slash, except on the root. *)
Lemma resolve_path_no_trailing (p : str) :
  resolve_path p = lit "/" \/ endsWith (lit "/") (resolve_path p) = false.
Proof.
  unfold resolve_path. cbv zeta.
  pose proof (resolve_path_segments p) as H.
  destruct (fold_left resolve_segment (split slash p) []) as [|x l].
  - left. reflexivity.
  - right. apply endsWith_false. intros a E.
    set (q := lit "/" ++ join (lit "/") (x :: l)) in *.
    assert (Hq : tl (split slash q) = x :: l).
    { unfold q. change (lit "/" ++ ?s) with (slash :: s).
      rewrite split_cons_sep. simpl tl.
      apply (split_join slash), resolved_no_slash, H. }
    destruct no_slash_dots as [S0 _].
    destruct (no_forbidden_segment q [] _ Hq H not_resolved_empty S0) as [_ B].
    exact (B a E).
Qed.

End SlowPathOnCanonical.

(** C4 (the code departs from the claim). The fast-path test accepts
    [/foo/], which [normalizePath] returns unchanged, while the slow-path
    computation on [/foo/] yields [/foo]; accordingly [/foo//bar/], which
    takes the slow path, loses its trailing slash although the function's
    documentation says it neither strips nor adds trailing slashes. *)
Theorem slow_path_drops_trailing_slash :
  is_canonical (lit "/foo/") = true /\
  normalizePath (lit "/foo/") = lit "/foo/" /\
  resolve_path (lit "/foo/") = lit "/foo" /\
  normalizePath (lit "/foo//bar/") = lit "/foo/bar" /\
  normalizePath (lit "/foo/bar/") = lit "/foo/bar/".
Proof. repeat split; reflexivity. Qed.

(** C5, as stated, fails: [/a/..] does not end in a slash, its normal form
    is the root [/], which does. *)
Lemma normalizePath_trailing_slash_counterexample :
  endsWith (lit "/") (lit "/a/..") = false /\
  normalizePath (lit "/a/..") = lit "/" /\
  endsWith (lit "/") (normalizePath (lit "/a/..")) = true.
Proof. repeat split; reflexivity. Qed.

(** C5 (amended). A pathname that is already canonical is returned as it
    is, so its trailing slash, if any, is kept; and for every pathname that
    does not end in a slash, the output does not end in a slash either,
    unless the output is the root [/] itself. *)
Theorem normalizePath_trailing_slash (p : str) :
  (is_canonical p = true -> endsWith (lit "/") p = true ->
   endsWith (lit "/") (normalizePath p) = true) /\
  (endsWith (lit "/") p = false ->
   normalizePath p = lit "/" \/ endsWith (lit "/") (normalizePath p) = false).
Proof.
  unfold normalizePath. split.
  - intros Hc Ht. rewrite Hc. exact Ht.
  - intros Ht. destruct (is_canonical p).
    + right. exact Ht.
    + apply resolve_path_no_trailing.
Qed.

Lemma normalizePath_trailing_slash_witness :
  endsWith (lit "/") (normalizePath (lit "/docs/")) = true /\
  (normalizePath (lit "/a/./b") = lit "/" \/
   endsWith (lit "/") (normalizePath (lit "/a/./b")) = false).
Proof.
  split.
  - apply (proj1 (normalizePath_trailing_slash (lit "/docs/"))); reflexivity.
  - apply (proj2 (normalizePath_trailing_slash (lit "/a/./b"))); reflexivity.
Defined.
(** ** The tokenizer of [matchPattern] *)

Section Tokenizer.

Lemma tokenize_loop_eq (rest regexStr : str) :
  tokenize_loop rest regexStr =
  match tokenRe_exec rest with
  | None => regexStr
  | Some (tok, rest') => tokenize_loop rest' (regexStr ++ token_regex tok)
  end.
Proof.
  rewrite tokenize_loop_equation_1.
  destruct (inspect (tokenRe_exec rest)) as [[[tok rest']|] H];
    unfold tokenize_loop_unfold_clause_1; rewrite H; reflexivity.
Qed.

Lemma tokenize_loop_nil (regexStr : str) : tokenize_loop [] regexStr = regexStr.
Proof. rewrite tokenize_loop_eq. reflexivity. Qed.

Lemma tokenRe_exec_eq (s : str) :
  tokenRe_exec s =
  match tokenRe_match_here s with
  | Some r => Some r
  | None =>
      match s with
      | [] => None
      | _ :: s' => tokenRe_exec s'
      end
  end.
Proof. destruct s; reflexivity. Qed.

(** One token, found where the text begins. *)
Lemma tokenize_loop_here (s rest' regexStr : str) (tok : token) :
  tokenRe_match_here s = Some (tok, rest') ->
  tokenize_loop s regexStr = tokenize_loop rest' (regexStr ++ token_regex tok).
Proof.
  intros H. rewrite tokenize_loop_eq, tokenRe_exec_eq, H. reflexivity.
Qed.

Lemma take_while_run (f : ascii -> bool) (run rest : str) :
  forallb f run = true -> stops f rest ->
  take_while f (run ++ rest) = run /\ drop_while f (run ++ rest) = rest.
Proof.
  intros H S. induction run as [|c run IH]; simpl.
  - destruct rest as [|c rest]; [split; reflexivity|].
    simpl in S. simpl. rewrite S. split; reflexivity.
  - simpl in H. apply andb_true_iff in H. destruct H as [Hc H].
    rewrite Hc. destruct (IH H) as [-> ->]. split; reflexivity.
Qed.

Lemma literal_chars (c : ascii) :
  is_literal_char c = true ->
  ch_eqb c "/" = false /\ ch_eqb c ":" = false /\ ch_eqb c "." = false.
Proof.
  unfold is_literal_char. intros H. apply negb_true_iff in H.
  apply orb_false_iff in H. destruct H as [H H3].
  apply orb_false_iff in H. destruct H as [H1 H2]. auto.
Qed.

(** A slash that a parameter does not follow is a token by itself. *)
Lemma token_slash (c : ascii) (rest : str) :
  ch_eqb c ":" = false ->
  tokenRe_match_here ("/"%char :: c :: rest) =
  Some (mkToken (lit "/") None None None, c :: rest).
Proof.
  intros H. unfold tokenRe_match_here. rewrite H. eval_ch_eqb. reflexivity.
Qed.

(** A run of literal characters is one token. *)
Lemma token_literal (c : ascii) (run rest : str) :
  forallb is_literal_char (c :: run) = true -> stops is_literal_char rest ->
  tokenRe_match_here ((c :: run) ++ rest) =
  Some (mkToken (c :: run) None None None, rest).
Proof.
  intros H S. destruct (take_while_run is_literal_char (c :: run) rest H S) as [T D].
  simpl in H. apply andb_true_iff in H. destruct H as [Hc H].
  destruct (literal_chars c Hc) as [H1 [H2 H3]].
  simpl app in *. remember (run ++ rest) as tail eqn:E. clear E.
  unfold tokenRe_match_here.
  destruct tail as [|c2 r]; [|rewrite H1; cbn [andb]];
    cbv zeta; rewrite H2, H3, Hc, T, D; reflexivity.
Qed.

(** [/:name*] and [/:name+] are one token each. *)
Lemma token_star (name rest : str) :
  forallb is_name_char name = true -> name <> [] ->
  tokenRe_match_here (lit "/:" ++ name ++ "*"%char :: rest) =
  Some (mkToken (lit "/:" ++ name ++ lit "*") (Some name) None None, rest).
Proof.
  intros H N.
  destruct (take_while_run is_name_char name ("*"%char :: rest) H eq_refl) as [T D].
  unfold tokenRe_match_here. simpl app. eval_ch_eqb. cbn [andb].
  cbv zeta. rewrite T, D.
  apply str_eqb_neq in N. rewrite N. eval_ch_eqb. reflexivity.
Qed.

Lemma token_plus (name rest : str) :
  forallb is_name_char name = true -> name <> [] ->
  tokenRe_match_here (lit "/:" ++ name ++ "+"%char :: rest) =
  Some (mkToken (lit "/:" ++ name ++ lit "+") None (Some name) None, rest).
Proof.
  intros H N.
  destruct (take_while_run is_name_char name ("+"%char :: rest) H eq_refl) as [T D].
  unfold tokenRe_match_here. simpl app. eval_ch_eqb. cbn [andb].
  cbv zeta. rewrite T, D.
  apply str_eqb_neq in N. rewrite N. eval_ch_eqb. reflexivity.
Qed.

(** At the end of the pattern [/:name] is a slash, then the parameter. *)
Lemma token_slash_before_param (name : str) :
  forallb is_name_char name = true -> name <> [] ->
  tokenRe_match_here (lit "/:" ++ name) =
  Some (mkToken (lit "/") None None None, lit ":" ++ name).
Proof.
  intros H N.
  destruct (take_while_run is_name_char name [] H I) as [T D].
  rewrite app_nil_r in T, D.
  unfold tokenRe_match_here. simpl app. eval_ch_eqb. cbn [andb].
  cbv zeta. rewrite T, D.
  apply str_eqb_neq in N. rewrite N. reflexivity.
Qed.

Lemma token_param (name : str) :
  forallb is_name_char name = true -> name <> [] ->
  tokenRe_match_here (lit ":" ++ name) =
  Some (mkToken (lit ":" ++ name) None None (Some name), []).
Proof.
  intros H N.
  destruct (take_while_run is_name_char name [] H I) as [T D].
  rewrite app_nil_r in T, D.
  apply str_eqb_neq in N.
  unfold tokenRe_match_here. simpl app.
  destruct name as [|c name]; [discriminate|].
  eval_ch_eqb. cbn [andb]. cbv zeta. rewrite T, D, N. reflexivity.
Qed.

Lemma literal_not_dot (c : ascii) (run : str) :
  forallb is_literal_char (c :: run) = true ->
  str_eqb (c :: run) (lit ".") = false.
Proof.
  intros H. simpl in H. apply andb_true_iff in H. destruct H as [Hc _].
  destruct (literal_chars c Hc) as [_ [_ H3]].
  change (str_eqb (c :: run) (lit ".")) with (ch_eqb c "." && str_eqb run []).
  rewrite H3. reflexivity.
Qed.

(** The regular expression of [/segment/:name], [/segment/:name*] and
    [/segment/:name+], for every literal segment and every parameter
    name. *)
Lemma tokenize_templates (segment name : str) :
  forallb is_literal_char segment = true -> segment <> [] ->
  forallb is_name_char name = true -> name <> [] ->
  tokenize_loop (lit "/" ++ segment ++ lit "/:" ++ name) [] =
    lit "/" ++ segment ++ lit "/([^/]+)" /\
  tokenize_loop (lit "/" ++ segment ++ lit "/:" ++ name ++ lit "*") [] =
    lit "/" ++ segment ++ lit "(?:/.*)?" /\
  tokenize_loop (lit "/" ++ segment ++ lit "/:" ++ name ++ lit "+") [] =
    lit "/" ++ segment ++ lit "(?:/.+)".
Proof.
  intros Hs Ns Hn Nn. destruct segment as [|c run]; [congruence|].
  assert (Hc : ch_eqb c ":" = false).
  { simpl in Hs. apply andb_true_iff in Hs. destruct Hs as [Hc _].
    apply (literal_chars c Hc). }
  assert (first : forall tail,
            stops is_literal_char tail ->
            tokenize_loop (lit "/" ++ (c :: run) ++ tail) [] =
            tokenize_loop tail (lit "/" ++ c :: run)).
  { intros tail St.
    rewrite (tokenize_loop_here _ ((c :: run) ++ tail) []
               (mkToken (lit "/") None None None))
      by (apply token_slash, Hc).
    rewrite (tokenize_loop_here _ tail _ (mkToken (c :: run) None None None))
      by (apply token_literal; assumption).
    unfold token_regex. cbn [tok0 tok1 tok2 tok3].
    rewrite (literal_not_dot c run Hs). reflexivity. }
  split; [|split].
  - rewrite first by reflexivity.
    rewrite (tokenize_loop_here _ _ _ _ (token_slash_before_param name Hn Nn)).
    rewrite (tokenize_loop_here _ _ _ _ (token_param name Hn Nn)).
    rewrite tokenize_loop_nil. simpl. rewrite <- ?app_assoc. reflexivity.
  - rewrite first by reflexivity.
    rewrite (tokenize_loop_here _ _ _ _ (token_star name [] Hn Nn)).
    rewrite tokenize_loop_nil. simpl. rewrite <- ?app_assoc. reflexivity.
  - rewrite first by reflexivity.
    rewrite (tokenize_loop_here _ _ _ _ (token_plus name [] Hn Nn)).
    rewrite tokenize_loop_nil. simpl. rewrite <- ?app_assoc. reflexivity.
Qed.

End Tokenizer.
(** ** The matcher: rejected patterns, path templates, matcher lists *)

Section MatcherFacts.

Variable engine : RegExpEngine.

Lemma safeRegExp_rejected (pattern : str) (flags : option str) :
  isSafeRegex pattern = false -> safeRegExp engine pattern flags = None.
Proof. intros H. unfold safeRegExp. rewrite H. reflexivity. Qed.

(** The two copies of the matcher agree. *)
Lemma matchMiddlewarePattern_matchPattern (pathname pattern : str) :
  matchMiddlewarePattern engine pathname pattern =
  matchPattern engine pathname pattern.
Proof. reflexivity. Qed.

Lemma __matchesMiddleware_matchesMiddleware pathname matcher :
  __matchesMiddleware engine pathname matcher =
  matchesMiddleware engine pathname matcher.
Proof. reflexivity. Qed.

(** An entry that is not a string and has no [source] adds nothing to
    [patterns], wherever it stands in the array. *)
Lemma fold_entry_patterns_app (l : list matcher_entry) (acc : list str) :
  fold_left entry_patterns l acc = acc ++ fold_left entry_patterns l [].
Proof.
  revert acc; induction l as [|m l IH]; intros acc; simpl.
  - rewrite app_nil_r. reflexivity.
  - rewrite IH. rewrite (IH (entry_patterns [] m)).
    destruct m as [s | [src|] |]; simpl;
      rewrite ?app_nil_r, <- ?app_assoc; reflexivity.
Qed.

Lemma matcher_patterns_skip (l1 l2 : list matcher_entry) (m : matcher_entry) :
  entry_patterns [] m = [] ->
  matcher_patterns (MatcherArray (l1 ++ m :: l2)) =
  matcher_patterns (MatcherArray (l1 ++ l2)).
Proof.
  intros H. simpl. rewrite !fold_left_app. simpl.
  rewrite (fold_entry_patterns_app l1 []).
  rewrite (fold_entry_patterns_app l2).
  rewrite (fold_entry_patterns_app l2 ([] ++ _)).
  f_equal. simpl.
  destruct m as [s | [src|] |]; simpl in *; try discriminate; reflexivity.
Qed.

End MatcherFacts.

(** C1, as stated, fails: the scan rejects [^(a+)+$], and still the
    pattern [(a+)+] matches the pathname [(a+)+], by the comparison of the
    two strings the function falls back to.  And the scan rejects
    [^(/:x+)+$] but accepts the tokenized form [^((?:/.+))+$] of the same
    pattern, which is then compiled and run: the pattern matches [/a]. *)
Lemma matchPattern_rejected_counterexample :
  isSafeRegex (lit "^(a+)+$") = false /\
  safeRegExp RefEngine.engine (lit "^(a+)+$") None = None /\
  matchPattern RefEngine.engine (lit "(a+)+") (lit "(a+)+") = true /\
  isSafeRegex (lit "^(/:x+)+$") = false /\
  tokenize_loop (lit "(/:x+)+") [] = lit "((?:/.+))+" /\
  isSafeRegex (lit "^((?:/.+))+$") = true /\
  matchPattern RefEngine.engine (lit "/a") (lit "(/:x+)+") = true.
Proof. repeat split; vm_compute; reflexivity. Qed.

(** C1 (amended). For every engine, every pattern whose anchored form the
    scan rejects, and every pathname: [safeRegExp] answers [null] for the
    anchored pattern, which is therefore neither compiled nor run, and
    [matchPattern] returns what the tokenized form of the pattern gives,
    that is the test of the expression compiled from it or, when that one
    is rejected or does not compile either, the comparison
    [pathname === pattern].  The generated copy of the matcher does the
    same. *)
Theorem matchPattern_rejected (engine : RegExpEngine) (pathname pattern : str)
  (H : isSafeRegex (lit "^" ++ pattern ++ lit "$") = false) :
  safeRegExp engine (lit "^" ++ pattern ++ lit "$") None = None /\
  matchPattern engine pathname pattern =
    match safeRegExp engine (lit "^" ++ tokenize_loop pattern [] ++ lit "$") None with
    | Some re => RegExp_test engine re pathname
    | None => str_eqb pathname pattern
    end /\
  (safeRegExp engine (lit "^" ++ tokenize_loop pattern [] ++ lit "$") None = None ->
   (matchPattern engine pathname pattern = true <-> pathname = pattern)) /\
  matchMiddlewarePattern engine pathname pattern =
  matchPattern engine pathname pattern.
Proof.
  pose proof (safeRegExp_rejected engine _ None H) as R.
  assert (E : matchPattern engine pathname pattern =
    match safeRegExp engine (lit "^" ++ tokenize_loop pattern [] ++ lit "$") None with
    | Some re => RegExp_test engine re pathname
    | None => str_eqb pathname pattern
    end).
  { unfold matchPattern. cbv zeta. rewrite R.
    destruct (includes _ _ || includes _ _); reflexivity. }
  split; [exact R|]. split; [exact E|]. split; [|reflexivity].
  intros T. rewrite E, T. apply str_eqb_eq.
Qed.

Lemma matchPattern_rejected_witness :
  safeRegExp RefEngine.engine (lit "^" ++ lit "(a+)+" ++ lit "$") None = None /\
  matchPattern RefEngine.engine (lit "/a") (lit "(a+)+") = false.
Proof.
  assert (H : isSafeRegex (lit "^" ++ lit "(a+)+" ++ lit "$") = false)
    by (vm_compute; reflexivity).
  destruct (matchPattern_rejected RefEngine.engine (lit "/a") (lit "(a+)+") H)
    as [R [E _]].
  split; [exact R|]. rewrite E. vm_compute. reflexivity.
Defined.

(** The examples of the specification for the path-template tokens.
    For every literal segment and every parameter name made of letters,
    digits, [_] and [-], the tokenizer turns [/segment/:name] into the
    segment followed by a slash and a group of one or more characters
    other than a slash, [/segment/:name+] into the segment followed by a
    group of a slash and one or more characters matched by a dot and
    [/segment/:name*] into the segment followed by an optional group of a
    slash and any characters matched by a dot.  With the reference engine
    the patterns of the specification, hyphenated names included, match
    as it says; [matchMiddlewarePattern], the generated copy, answers the
    same on every input. *)
Lemma matchPattern_path_templates :
  let m := matchPattern RefEngine.engine in
  (forall pathname pattern,
     matchMiddlewarePattern RefEngine.engine pathname pattern =
     m pathname pattern) /\
  (* [:name]: exactly one segment *)
  m (lit "/posts/42") (lit "/posts/:id") = true /\
  m (lit "/posts") (lit "/posts/:id") = false /\
  m (lit "/posts/") (lit "/posts/:id") = false /\
  m (lit "/posts/42/comments") (lit "/posts/:id") = false /\
  (* [/:name+]: one or more segments *)
  m (lit "/docs") (lit "/docs/:slug+") = false /\
  m (lit "/docs/a") (lit "/docs/:slug+") = true /\
  m (lit "/docs/a/b") (lit "/docs/:slug+") = true /\
  (* [/:name*]: zero or more segments *)
  m (lit "/optional") (lit "/optional/:path*") = true /\
  m (lit "/optional/a") (lit "/optional/:path*") = true /\
  m (lit "/optional/a/b") (lit "/optional/:path*") = true /\
  m (lit "/optionally") (lit "/optional/:path*") = false /\
  (* hyphenated names *)
  m (lit "/auth/password") (lit "/auth/:auth-method") = true /\
  m (lit "/auth/password/x") (lit "/auth/:auth-method") = false /\
  m (lit "/sign-in") (lit "/sign-in/:sign-in*") = true /\
  m (lit "/sign-in/a/b") (lit "/sign-in/:sign-in*") = true /\
  m (lit "/sign-up") (lit "/sign-up/:sign-up+") = false /\
  m (lit "/sign-up/a/b") (lit "/sign-up/:sign-up+") = true /\
  (* the regular expressions the tokens become *)
  (forall segment name,
     forallb is_literal_char segment = true -> segment <> [] ->
     forallb is_name_char name = true -> name <> [] ->
     tokenize_loop (lit "/" ++ segment ++ lit "/:" ++ name) [] =
       lit "/" ++ segment ++ lit "/([^/]+)" /\
     tokenize_loop (lit "/" ++ segment ++ lit "/:" ++ name ++ lit "*") [] =
       lit "/" ++ segment ++ lit "(?:/.*)?" /\
     tokenize_loop (lit "/" ++ segment ++ lit "/:" ++ name ++ lit "+") [] =
       lit "/" ++ segment ++ lit "(?:/.+)").
Proof.
  cbv zeta. split; [intros; reflexivity|].
  do 17 (split; [vm_compute; reflexivity|]).
  apply tokenize_templates.
Qed.

(** C6 (the code departs from the claim).  The groups that [/:name*] and
    [/:name+] become match their characters with a dot, and a dot matches
    no line terminator: a pathname with a line feed in a segment after
    the prefix, which [runMiddleware] gets by decoding [%0A], is matched
    neither by [/optional/:path*] nor by [/docs/:slug+], while the same
    pathname without the line feed is, and while the group of [:name],
    which is a negated class, does match such a segment.  So a
    middleware that guards [/optional/:path*] is not run on
    [/optional/a%0Ab]: the result is [continue] with no response, where
    [/optional/ab] gets the 403 of the handler.  The generated copy
    answers the same. *)
Theorem path_template_misses_line_terminator :
  let m := matchPattern RefEngine.engine in
  let m' := matchMiddlewarePattern RefEngine.engine in
  let run := runMiddleware RefEngine.engine RefPlatform.platform None
               guarding_module (lit "/app/middleware.ts") in
  tokenize_loop (lit "/optional/:path*") [] = lit "/optional(?:/.*)?" /\
  tokenize_loop (lit "/docs/:slug+") [] = lit "/docs(?:/.+)" /\
  (* zero or more segments, one or more segments: not these *)
  m (lit "/optional/a" ++ [line_feed] ++ lit "b") (lit "/optional/:path*") = false /\
  m (lit "/optional/a/" ++ [line_feed]) (lit "/optional/:path*") = false /\
  m (lit "/docs/a" ++ [line_feed] ++ lit "b") (lit "/docs/:slug+") = false /\
  m' (lit "/optional/a" ++ [line_feed] ++ lit "b") (lit "/optional/:path*") = false /\
  m' (lit "/docs/a" ++ [line_feed] ++ lit "b") (lit "/docs/:slug+") = false /\
  (* the same pathnames without the line feed *)
  m (lit "/optional/ab") (lit "/optional/:path*") = true /\
  m (lit "/docs/ab") (lit "/docs/:slug+") = true /\
  (* the single-segment token matches the segment with the line feed *)
  m (lit "/posts/a" ++ [line_feed] ++ lit "b") (lit "/posts/:id") = true /\
  (* the guard is skipped *)
  decodeURIComponent RefPlatform.platform (lit "/optional/a%0Ab") =
    Some (lit "/optional/a" ++ [line_feed] ++ lit "b") /\
  run (mkRequest (lit "/optional/a%0Ab") []) = Ok result_continue /\
  run (mkRequest (lit "/optional/ab") []) =
    Ok (result_response (new_Response (lit "Forbidden") 403)).
Proof.
  cbv zeta. do 12 (split; [vm_compute; reflexivity|]). vm_compute. reflexivity.
Qed.

(** C10. Without a matcher the middleware runs on every path; with an
    empty array it runs on none; and an array entry that is neither a
    string nor an object with a [source] field adds no pattern.  The same
    holds of the generated copy. *)
Theorem matchesMiddleware_absent_vs_empty
  (engine : RegExpEngine) (pathname : str) :
  matchesMiddleware engine pathname None = true /\
  matchesMiddleware engine pathname (Some (MatcherArray [])) = false /\
  __matchesMiddleware engine pathname None = true /\
  __matchesMiddleware engine pathname (Some (MatcherArray [])) = false /\
  (forall l1 l2,
     matcher_patterns (MatcherArray (l1 ++ EntryOther :: l2)) =
     matcher_patterns (MatcherArray (l1 ++ l2)) /\
     matcher_patterns (MatcherArray (l1 ++ EntryObject None :: l2)) =
     matcher_patterns (MatcherArray (l1 ++ l2)) /\
     matchesMiddleware engine pathname (Some (MatcherArray (l1 ++ EntryOther :: l2))) =
     matchesMiddleware engine pathname (Some (MatcherArray (l1 ++ l2))) /\
     matchesMiddleware engine pathname (Some (MatcherArray (l1 ++ EntryObject None :: l2))) =
     matchesMiddleware engine pathname (Some (MatcherArray (l1 ++ l2))) /\
     __matchesMiddleware engine pathname (Some (MatcherArray (l1 ++ EntryOther :: l2))) =
     __matchesMiddleware engine pathname (Some (MatcherArray (l1 ++ l2))) /\
     __matchesMiddleware engine pathname (Some (MatcherArray (l1 ++ EntryObject None :: l2))) =
     __matchesMiddleware engine pathname (Some (MatcherArray (l1 ++ l2)))).
Proof.
  repeat split; try reflexivity;
    try (apply matcher_patterns_skip; reflexivity);
    unfold matchesMiddleware, __matchesMiddleware; cbn [matcher_absent];
    rewrite matcher_patterns_skip by reflexivity; reflexivity.
Qed.
(** ** [runMiddleware]: errors become responses *)





(** ** [runMiddleware]: the headers that are forwarded *)

Section ForwardedHeaders.

Lemma copy_headers_from (skip : str -> bool) (h acc : Headers) :
  fold_left
    (fun responseHeaders kv =>
       if skip (fst kv) then responseHeaders
       else headers_append responseHeaders (fst kv) (snd kv))
    h acc
  = acc ++ filter (fun kv => negb (skip (fst kv))) h.
Proof.
  revert acc; induction h as [|[k v] h IH]; intros acc; simpl.
  - rewrite app_nil_r. reflexivity.
  - rewrite IH. destruct (skip k); simpl; [reflexivity|].
    unfold headers_append. rewrite <- app_assoc. reflexivity.
Qed.

(** The copying loop keeps, in order, the pairs it does not skip. *)
Lemma copy_headers_filter (skip : str -> bool) (h : Headers) :
  copy_headers skip h = filter (fun kv => negb (skip (fst kv))) h.
Proof. apply copy_headers_from. Qed.

Variable platform : Platform.
Variable request : Request.

(** A response that carries [x-middleware-next: 1] is a continue
    directive that forwards every header except the two sentinels. *)
Lemma interpret_next (resp : Response) :
  headers_get (headers resp) (lit "x-middleware-next") = Some (lit "1") ->
  interpret_response platform request (Some resp) =
  result_next (filter (fun kv => negb (is_sentinel (fst kv))) (headers resp)).
Proof.
  intros H. unfold interpret_response. cbv zeta. rewrite H.
  cbn [str_eqb]. rewrite str_eqb_refl.
  rewrite copy_headers_filter. reflexivity.
Qed.

(** A rewrite directive forwards every header except [x-middleware-rewrite]
    itself: its own sentinel never appears, the other one is not
    filtered. *)
Lemma interpret_rewrite_headers (resp : Response) (r : MiddlewareResult) :
  interpret_response platform request (Some resp) = r ->
  rewriteUrl r <> None ->
  responseHeaders r =
  Some (filter (fun kv => negb (str_eqb (fst kv) (lit "x-middleware-rewrite")))
          (headers resp)).
Proof.
  intros E Hr.
  rewrite <- (copy_headers_filter
                (fun key => str_eqb key (lit "x-middleware-rewrite"))
                (headers resp)).
  unfold interpret_response in E. cbv zeta in E.
  destruct (match headers_get (headers resp) (lit "x-middleware-next") with
            | Some s => str_eqb s (lit "1")
            | None => false
            end); [subst r; destruct Hr; reflexivity|].
  match type of E with
  | match ?x with _ => _ end = _ => destruct x as [[|c l]|]
  end; try (subst r; destruct Hr; reflexivity);
  (destruct (headers_get (headers resp) (lit "x-middleware-rewrite"))
     as [[|c' u]|]; subst r; try (destruct Hr; reflexivity); reflexivity).
Qed.

End ForwardedHeaders.

(** C8 (the code departs from the claim). The response of
    [rewriting_module], which carries [x-middleware-rewrite] and
    [x-middleware-next: 0], is interpreted as a rewrite directive, and the headers it forwards still
    contain the sentinel [x-middleware-next]: the loop of the rewrite branch
    leaves out [x-middleware-rewrite] only, while the loop of the continue
    branch leaves out both sentinels. *)
Theorem rewrite_forwards_next_sentinel :
  runMiddleware RefEngine.engine RefPlatform.platform None
    rewriting_module (lit "/app/middleware.ts") (mkRequest (lit "/page") [])
  = Ok (result_rewrite (lit "/target") None
          [(lit "x-custom", lit "v"); (lit "x-middleware-next", lit "0")]) /\
  interpret_response RefPlatform.platform (mkRequest (lit "/page") [])
    (Some (mkResponse 200 []
             [(lit "x-custom", lit "v");
              (lit "x-middleware-next", lit "1");
              (lit "x-middleware-rewrite", lit "/target")]))
  = result_next [(lit "x-custom", lit "v")].
Proof. split; vm_compute; reflexivity. Qed.

(** ** The worker entries: protocol-relative paths *)

(** C9. When the pathname of the request, its backslashes replaced by
    slashes, starts with [//], both worker entries answer
    [404 Not Found] and call no handler. *)
Theorem fetch_blocks_protocol_relative
  (platform : Platform) (rscHandler : Request -> outcome rsc_result)
  (handleApiRoute renderPage : Request -> str -> outcome Response)
  (request : Request)
  (H : startsWith (lit "//") (replaceAll "\" "/" (url_pathname request)) = true) :
  app_router_fetch platform rscHandler request =
    (Ok (new_Response (lit "404 Not Found") 404), []) /\
  pages_router_fetch handleApiRoute renderPage request =
    (Ok (new_Response (lit "404 Not Found") 404), []) /\
  status (new_Response (lit "404 Not Found") 404) = 404.
Proof.
  unfold app_router_fetch, pages_router_fetch. cbv zeta. rewrite H.
  repeat split.
Qed.

Lemma fetch_blocks_protocol_relative_witness :
  let request := mkRequest (lit "/\evil.com/") [] in
  let rsc := fun _ : Request => Ok (RscOther (lit "never")) in
  let h := fun (_ : Request) (_ : str) => Ok (new_Response (lit "never") 200) in
  app_router_fetch RefPlatform.platform rsc request =
    (Ok (new_Response (lit "404 Not Found") 404), []) /\
  pages_router_fetch h h request =
    (Ok (new_Response (lit "404 Not Found") 404), []) /\
  status (new_Response (lit "404 Not Found") 404) = 404.
Proof.
  cbv zeta. apply fetch_blocks_protocol_relative. reflexivity.
Defined.
(** ** [__isSafeRegex]: how the scan reads a pattern *)

Section ScanFacts.

Lemma scan_loop_eq (p : str) (st : scan_state) :
  scan_loop p st =
  match scan_step p st with
  | inr b => b
  | inl st' => scan_loop p st'
  end.
Proof.
  rewrite scan_loop_equation_1.
  destruct (inspect (scan_step p st)) as [[st'|b] H];
    unfold scan_loop_unfold_clause_1; rewrite H; reflexivity.
Qed.

Lemma scan_loop_step (p : str) (st st' : scan_state) :
  scan_step p st = inl st' -> scan_loop p st = scan_loop p st'.
Proof. intros H. rewrite scan_loop_eq, H. reflexivity. Qed.

Lemma scan_loop_return (p : str) (st : scan_state) (b : bool) :
  scan_step p st = inr b -> scan_loop p st = b.
Proof. intros H. rewrite scan_loop_eq, H. reflexivity. Qed.

(** *** Reading the pattern at the position reached *)

Lemma charAt_here (done : str) (c : ascii) (rest : str) :
  charAt (done ++ c :: rest) (length done) = Some c.
Proof.
  unfold charAt. rewrite nth_error_app2, Nat.sub_diag by lia. reflexivity.
Qed.

Lemma char_is_here (done : str) (c : ascii) (rest : str) (x : ascii) :
  char_is (done ++ c :: rest) (length done) x = ch_eqb c x.
Proof. unfold char_is. rewrite charAt_here. reflexivity. Qed.

Lemma char_is_at (done rest : str) (k : nat) (x : ascii) :
  char_is (done ++ rest) (length done + k) x =
  match nth_error rest k with
  | Some c => ch_eqb c x
  | None => false
  end.
Proof.
  unfold char_is, charAt. rewrite nth_error_app2 by lia.
  replace (length done + k - length done) with k by lia. reflexivity.
Qed.

Lemma in_range (done : str) (c : ascii) (rest : str) :
  (length done <? length (done ++ c :: rest)) = true.
Proof. apply Nat.ltb_lt. rewrite length_app. simpl. lia. Qed.

(** The character before the position, as the [?] case reads it. *)
Lemma prev_is_last (done rest : str) (x : ascii) :
  (0 <? length done) && char_is (done ++ rest) (length done - 1) x =
  match rev done with
  | c :: _ => ch_eqb c x
  | [] => false
  end.
Proof.
  destruct done as [|a done'] using rev_ind; [reflexivity|].
  rewrite rev_app_distr. simpl rev. simpl app.
  rewrite length_app. simpl length.
  replace (length done' + 1 - 1) with (length done') by lia.
  rewrite <- app_assoc. simpl app. rewrite char_is_here.
  replace (0 <? length done' + 1) with true
    by (symmetry; apply Nat.ltb_lt; lia).
  reflexivity.
Qed.

Lemma lazy_before_snoc (s : str) (c : ascii) :
  lazy_before (s ++ [c]) =
  (ch_eqb c "+" || ch_eqb c "*" || ch_eqb c "?" || ch_eqb c "}").
Proof. unfold lazy_before. rewrite rev_app_distr. reflexivity. Qed.

Lemma lazy_before_app (a b : str) :
  b <> [] -> lazy_before (a ++ b) = lazy_before b.
Proof.
  intros H. unfold lazy_before. rewrite rev_app_distr.
  destruct b as [|x b'] using rev_ind; [congruence|].
  rewrite rev_app_distr. reflexivity.
Qed.

(** *** The array of flags *)

Lemma flag_at_set_same (q : flags) (k : nat) (v : bool) :
  flag_at (flag_set q k v) k = v.
Proof.
  unfold flag_at. revert q. induction k as [|k IH]; intros [|x q]; simpl; auto.
Qed.

Lemma flag_at_set_other (q : flags) (k j : nat) (v : bool) :
  j <> k -> flag_at (flag_set q k v) j = flag_at q j.
Proof.
  unfold flag_at. revert q j.
  induction k as [|k IH]; intros [|x q] [|j] H; simpl; try congruence; auto.
  - destruct j; reflexivity.
  - rewrite (IH [] j) by congruence. destruct j; reflexivity.
Qed.

Lemma flag_at_push_false (q : flags) (j : nat) :
  flag_at (flag_push q false) j = flag_at q j.
Proof.
  unfold flag_at, flag_push. revert j.
  induction q as [|x q IH]; intros [|j]; simpl; auto.
  destruct j; reflexivity.
Qed.

Lemma flag_at_true_length (q : flags) (k : nat) :
  flag_at q k = true -> k < length q.
Proof.
  unfold flag_at. intros H. destruct (Nat.lt_ge_cases k (length q)) as [L|L]; [exact L|].
  rewrite nth_overflow in H by exact L. discriminate.
Qed.

Lemma flag_at_mark (q : flags) (d : nat) :
  0 < d -> flag_at (mark_quantifier q d) d = true.
Proof.
  intros H. unfold mark_quantifier.
  replace (0 <? d) with true by (symmetry; apply Nat.ltb_lt; exact H).
  apply flag_at_set_same.
Qed.

Lemma flag_at_mark_mono (q : flags) (d k : nat) :
  flag_at q k = true -> flag_at (mark_quantifier q d) k = true.
Proof.
  intros H. unfold mark_quantifier. destruct (0 <? d); [|exact H].
  destruct (Nat.eq_dec k d) as [->|N].
  - apply flag_at_set_same.
  - rewrite flag_at_set_other by exact N. exact H.
Qed.

End ScanFacts.
(** *** The inner loops run to their end

    [skip_class] and [skip_counts] unfold the inner [while] loops as many
    times as the pattern has characters; that is enough for the loop
    condition to fail at the index they return. *)

Section InnerLoopsExit.

Lemma skip_class_stops (n : nat) (pattern : str) :
  forall i, length pattern <= i + n ->
    (skip_class n pattern i <? length pattern) &&
    negb (char_is pattern (skip_class n pattern i) "]") = false.
Proof.
  induction n as [|n IH]; intros i H.
  - simpl. replace (i <? length pattern) with false; [reflexivity|].
    symmetry. apply Nat.ltb_ge. lia.
  - cbn [skip_class].
    destruct ((i <? length pattern) && negb (char_is pattern i "]")) eqn:E.
    + apply IH. destruct (char_is pattern i "\"); lia.
    + exact E.
Qed.

Lemma skip_counts_stops (n : nat) (pattern : str) :
  forall j, length pattern <= j + n ->
    (skip_counts n pattern j <? length pattern) &&
    match charAt pattern (skip_counts n pattern j) with
    | Some c => is_digit_or_comma c
    | None => false
    end = false.
Proof.
  induction n as [|n IH]; intros j H.
  - simpl. replace (j <? length pattern) with false; [reflexivity|].
    symmetry. apply Nat.ltb_ge. lia.
  - cbn [skip_counts].
    destruct ((j <? length pattern) &&
              match charAt pattern j with
              | Some c => is_digit_or_comma c
              | None => false
              end) eqn:E.
    + apply IH. lia.
    + exact E.
Qed.

End InnerLoopsExit.
(** *** One iteration of the scan, by the character it reads *)

(** The beginning of every iteration: the position is inside the pattern
    and the character read is known. *)
Ltac scan_step_at :=
  unfold scan_step;
  cbn [pos depth quantifierAtDepth];
  rewrite in_range; cbn [negb];
  rewrite ?char_is_here.

Section ScanSteps.

Variable done : str.
Variable rest : str.
Variable q : flags.
Variable d : nat.

Lemma special_false (c : ascii) :
  is_special c = false ->
  ch_eqb c "\" = false /\ ch_eqb c "[" = false /\ ch_eqb c "(" = false /\
  ch_eqb c ")" = false /\ ch_eqb c "+" = false /\ ch_eqb c "*" = false /\
  ch_eqb c "?" = false /\ ch_eqb c "{" = false.
Proof.
  unfold is_special. intros H.
  repeat (apply orb_false_iff in H; destruct H as [H ?]).
  repeat split; assumption.
Qed.

Lemma step_ordinary (c : ascii) :
  is_special c = false ->
  scan_step (done ++ c :: rest) (mkScan q d (length done)) =
  inl (mkScan q d (length done + 1)).
Proof.
  intros H. apply special_false in H.
  destruct H as [H1 [H2 [H3 [H4 [H5 [H6 [H7 H8]]]]]]].
  scan_step_at. rewrite H1, H2, H3, H4, H5, H6, H7, H8. reflexivity.
Qed.

Lemma step_escape :
  scan_step (done ++ "\"%char :: rest) (mkScan q d (length done)) =
  inl (mkScan q d (length done + 2)).
Proof. scan_step_at. eval_ch_eqb. reflexivity. Qed.

Lemma step_open :
  scan_step (done ++ "("%char :: rest) (mkScan q d (length done)) =
  inl (mkScan (if length q <=? d + 1 then flag_push q false
               else flag_set q (d + 1) false)
              (d + 1) (length done + 1)).
Proof. scan_step_at. eval_ch_eqb. reflexivity. Qed.

Lemma step_close :
  scan_step (done ++ ")"%char :: rest) (mkScan q d (length done)) =
  if repeat_follows rest then
    if (0 <? d) && flag_at q d then inr false
    else inl (mkScan (if (if 0 <? d then d - 1 else d) <? length q
                      then flag_set q (if 0 <? d then d - 1 else d) true
                      else q)
                     (if 0 <? d then d - 1 else d) (length done + 1))
  else inl (mkScan q (if 0 <? d then d - 1 else d) (length done + 1)).
Proof.
  scan_step_at. eval_ch_eqb. cbv zeta. cbn [orb].
  change (done ++ ")"%char :: rest) with (done ++ [")"%char] ++ rest).
  rewrite app_assoc.
  replace (length done + 1) with (length (done ++ [")"%char]))
    by (rewrite length_app; reflexivity).
  replace (length (done ++ [")"%char])) with (length (done ++ [")"%char]) + 0)
    at 1 2 3 by lia.
  rewrite !char_is_at.
  destruct rest as [|c rest']; reflexivity.
Qed.

Lemma step_plus :
  scan_step (done ++ "+"%char :: rest) (mkScan q d (length done)) =
  inl (mkScan (mark_quantifier q d) d (length done + 1)).
Proof. scan_step_at. eval_ch_eqb. reflexivity. Qed.

Lemma step_star :
  scan_step (done ++ "*"%char :: rest) (mkScan q d (length done)) =
  inl (mkScan (mark_quantifier q d) d (length done + 1)).
Proof. scan_step_at. eval_ch_eqb. reflexivity. Qed.

Lemma step_question :
  scan_step (done ++ "?"%char :: rest) (mkScan q d (length done)) =
  inl (mkScan (if lazy_before done then q else mark_quantifier q d)
              d (length done + 1)).
Proof.
  scan_step_at. eval_ch_eqb. cbv zeta. cbn [orb].
  rewrite !prev_is_last. unfold lazy_before.
  destruct (rev done) as [|c r]; [reflexivity|].
  destruct (ch_eqb c "+"), (ch_eqb c "*"), (ch_eqb c "?"), (ch_eqb c "}");
    reflexivity.
Qed.

End ScanSteps.
(** *** Classes and braced quantifiers: the inner loops *)

Section InnerLoops.

Lemma render_atoms_length (atoms : list class_atom) :
  length atoms <= length (render_atoms atoms).
Proof.
  induction atoms as [|a atoms IH]; simpl; [lia|].
  unfold render_atoms in *. simpl. rewrite length_app.
  destruct a; simpl; lia.
Qed.

(** The class loop stops on the closing bracket. *)
Lemma skip_class_atoms (atoms : list class_atom) :
  forall (pre rest : str) (n : nat),
    forallb wf_atom atoms = true -> length atoms < n ->
    skip_class n (pre ++ render_atoms atoms ++ "]"%char :: rest) (length pre) =
    length pre + length (render_atoms atoms).
Proof.
  induction atoms as [|a atoms IH]; intros pre rest n W L.
  - destruct n as [|n]; [lia|]. simpl render_atoms. simpl app.
    cbn [skip_class]. rewrite in_range, char_is_here. eval_ch_eqb.
    simpl. lia.
  - destruct n as [|n]; [simpl in L; lia|].
    simpl in W. apply andb_true_iff in W. destruct W as [Wa W].
    assert (L' : length atoms < n) by (simpl in L; lia).
    change (render_atoms (a :: atoms)) with (render_atom a ++ render_atoms atoms).
    destruct a as [c|c]; simpl render_atom.
    + simpl in Wa. apply negb_true_iff, orb_false_iff in Wa.
      destruct Wa as [W1 W2].
      simpl app. cbn [skip_class]. rewrite in_range, !char_is_here, W1, W2.
      cbn [negb andb].
      change (pre ++ c :: render_atoms atoms ++ "]"%char :: rest)
        with (pre ++ [c] ++ render_atoms atoms ++ "]"%char :: rest).
      rewrite app_assoc.
      replace (length pre + 1) with (length (pre ++ [c]))
        by (rewrite length_app; reflexivity).
      rewrite IH by assumption. rewrite length_app. simpl. lia.
    + simpl app. cbn [skip_class]. rewrite in_range, !char_is_here.
      eval_ch_eqb. cbn [negb andb].
      change (pre ++ "\"%char :: c :: render_atoms atoms ++ "]"%char :: rest)
        with (pre ++ ["\"%char; c] ++ render_atoms atoms ++ "]"%char :: rest).
      rewrite app_assoc.
      replace (length pre + 2) with (length (pre ++ ["\"%char; c]))
        by (rewrite length_app; reflexivity).
      rewrite IH by assumption. rewrite length_app. simpl. lia.
Qed.

(** The loop over the counts stops on the closing brace. *)
Lemma skip_counts_counts (counts : str) :
  forall (pre rest : str) (n : nat),
    forallb is_digit_or_comma counts = true -> length counts < n ->
    skip_counts n (pre ++ counts ++ "}"%char :: rest) (length pre) =
    length pre + length counts.
Proof.
  induction counts as [|c counts IH]; intros pre rest n W L.
  - destruct n as [|n]; [lia|]. simpl app.
    cbn [skip_counts]. rewrite in_range, charAt_here.
    replace (is_digit_or_comma "}") with false by (vm_compute; reflexivity).
    simpl. lia.
  - destruct n as [|n]; [simpl in L; lia|].
    simpl in W. apply andb_true_iff in W. destruct W as [Wc W].
    simpl app. cbn [skip_counts]. rewrite in_range, charAt_here, Wc.
    cbn [andb].
    change (pre ++ c :: counts ++ "}"%char :: rest)
      with (pre ++ [c] ++ counts ++ "}"%char :: rest).
    rewrite app_assoc.
    replace (length pre + 1) with (length (pre ++ [c]))
      by (rewrite length_app; reflexivity).
    rewrite IH by (assumption || (simpl in L; lia)).
    rewrite length_app. simpl. lia.
Qed.

Variable done : str.
Variable rest : str.
Variable q : flags.
Variable d : nat.

Lemma step_class (atoms : list class_atom) :
  forallb wf_atom atoms = true ->
  scan_step (done ++ "["%char :: render_atoms atoms ++ "]"%char :: rest)
            (mkScan q d (length done)) =
  inl (mkScan q d (length done + 1 + length (render_atoms atoms) + 1)).
Proof.
  intros W. scan_step_at. eval_ch_eqb. cbn iota.
  set (p := done ++ "["%char :: render_atoms atoms ++ "]"%char :: rest).
  assert (E : skip_class (length p) p (length done + 1) =
              length done + 1 + length (render_atoms atoms)).
  { unfold p.
    change (done ++ "["%char :: render_atoms atoms ++ "]"%char :: rest)
      with (done ++ ["["%char] ++ render_atoms atoms ++ "]"%char :: rest).
    rewrite app_assoc.
    replace (length done + 1) with (length (done ++ ["["%char]))
      by (rewrite length_app; reflexivity).
    apply skip_class_atoms; [exact W|].
    pose proof (render_atoms_length atoms).
    rewrite !length_app; cbn [length]; rewrite ?length_app; cbn [length]; lia. }
  rewrite E. reflexivity.
Qed.

Lemma step_braces (counts : str) :
  wf_quantifier (QBraces counts) = true ->
  scan_step (done ++ "{"%char :: counts ++ "}"%char :: rest)
            (mkScan q d (length done)) =
  inl (mkScan (mark_quantifier q d) d (length done + 1 + length counts + 1)).
Proof.
  intros W. simpl in W. apply andb_true_iff in W. destruct W as [Wn W].
  apply negb_true_iff, str_eqb_neq in Wn.
  scan_step_at. eval_ch_eqb. cbn iota. cbv zeta.
  set (p := done ++ "{"%char :: counts ++ "}"%char :: rest).
  assert (E : skip_counts (length p) p (length done + 1) =
              length done + 1 + length counts).
  { unfold p.
    change (done ++ "{"%char :: counts ++ "}"%char :: rest)
      with (done ++ ["{"%char] ++ counts ++ "}"%char :: rest).
    rewrite app_assoc.
    replace (length done + 1) with (length (done ++ ["{"%char]))
      by (rewrite length_app; reflexivity).
    apply skip_counts_counts; [exact W|].
    rewrite !length_app; cbn [length]; rewrite ?length_app; cbn [length]; lia. }
  rewrite E.
  assert (L : (length done + 1 + length counts <? length p) = true).
  { apply Nat.ltb_lt. unfold p.
    rewrite !length_app; cbn [length]; rewrite ?length_app; cbn [length]; lia. }
  assert (C : char_is p (length done + 1 + length counts) "}" = true).
  { unfold p.
    change (done ++ "{"%char :: counts ++ "}"%char :: rest)
      with (done ++ ["{"%char] ++ counts ++ "}"%char :: rest).
    rewrite !app_assoc.
    replace (length done + 1 + length counts)
      with (length ((done ++ ["{"%char]) ++ counts))
      by (rewrite !length_app; reflexivity).
    rewrite char_is_here. reflexivity. }
  assert (J : (length done + 1 <? length done + 1 + length counts) = true).
  { apply Nat.ltb_lt. destruct counts; [congruence|]. simpl. lia. }
  rewrite L, C, J. reflexivity.
Qed.

End InnerLoops.
(** *** The scan over the items of a pattern *)

Section ScanItems.

Lemma render_cons (it : item) (items : list item) :
  render (it :: items) = render_item it ++ render items.
Proof. reflexivity. Qed.

Lemma render_app (l1 l2 : list item) :
  render (l1 ++ l2) = render l1 ++ render l2.
Proof. unfold render. rewrite map_app, concat_app. reflexivity. Qed.

Lemma render_group (nc : bool) (body : list item) :
  render_item (IGroup nc body) =
  (lit "(" ++ (if nc then lit "?:" else [])) ++ render body ++ lit ")".
Proof. destruct nc; reflexivity. Qed.

(** One iteration that goes on, over the text [text]. *)
Lemma reach (p done text rest : str) (q q' : flags) (d d' : nat) :
  p = done ++ text ++ rest ->
  scan_step (done ++ text ++ rest) (mkScan q d (length done)) =
    inl (mkScan q' d' (length done + length text)) ->
  scan_loop p (mkScan q d (length done)) =
  scan_loop p (mkScan q' d' (length (done ++ text))).
Proof.
  intros -> H. rewrite length_app. apply scan_loop_step. exact H.
Qed.

Lemma scans_over_same (p done text : str) (q q' : flags) (d : nat) (marked : Prop) :
  scan_loop p (mkScan q d (length done)) =
  scan_loop p (mkScan q' d (length (done ++ text))) ->
  (forall k, k <= d -> flag_at q k = true -> flag_at q' k = true) ->
  (0 < d -> marked -> flag_at q' d = true) ->
  scans_over p done text q d marked.
Proof. intros H1 H2 H3. right. exists q'. auto. Qed.

(** Scanning one stretch and then the next. *)
Lemma scans_over_app (p done t1 t2 : str) (q : flags) (d : nat)
    (m1 m2 m : Prop) :
  scans_over p done t1 q d m1 ->
  (forall q1, scans_over p (done ++ t1) t2 q1 d m2) ->
  (m -> m1 \/ m2) ->
  scans_over p done (t1 ++ t2) q d m.
Proof.
  intros [F | [q1 [E1 [K1 M1]]]] H2 Hm; [left; exact F|].
  destruct (H2 q1) as [F | [q2 [E2 [K2 M2]]]].
  - left. rewrite E1. exact F.
  - right. exists q2. rewrite app_assoc. split; [congruence|]. split.
    + intros k Hk Hq. apply K2, K1; assumption.
    + intros Hd Hmk. destruct (Hm Hmk) as [A | B].
      * apply K2; [lia|]. apply M1; assumption.
      * apply M2; assumption.
Qed.

End ScanItems.
Section ScanEachItem.

Ltac lengths := rewrite ?length_app; cbn [length]; rewrite ?length_app; cbn [length]; lia.

Lemma not_quantifier_marked (it : item) (done : str) :
  (forall qq, it <> IQuant qq) ->
  (exists qq, it = IQuant qq /\ (qq = QQuestion -> lazy_before done = false)) ->
  False.
Proof. intros N [qq [E _]]. exact (N qq E). Qed.

Lemma scan_char (c : ascii) : item_scanned (IChar c).
Proof.
  intros W done rest q d. simpl in W. apply negb_true_iff in W.
  apply scans_over_same with (q' := q).
  - apply (reach _ done [c] rest); [reflexivity|].
    apply (step_ordinary done rest q d c W).
  - auto.
  - intros _ M. destruct (not_quantifier_marked (IChar c) done); [discriminate|exact M].
Qed.

Lemma scan_escape (c : ascii) : item_scanned (IEscape c).
Proof.
  intros W done rest q d.
  apply scans_over_same with (q' := q).
  - apply (reach _ done ["\"%char; c] rest); [reflexivity|].
    apply (step_escape done (c :: rest) q d).
  - auto.
  - intros _ M. destruct (not_quantifier_marked (IEscape c) done); [discriminate|exact M].
Qed.

Lemma scan_class (atoms : list class_atom) : item_scanned (IClass atoms).
Proof.
  intros W done rest q d. simpl in W.
  apply scans_over_same with (q' := q).
  - apply (reach _ done (render_item (IClass atoms)) rest); [reflexivity|].
    simpl render_item.
    change (lit "[" ++ render_atoms atoms ++ lit "]")
      with ("["%char :: render_atoms atoms ++ ["]"%char]).
    simpl app. rewrite <- app_assoc. simpl app.
    rewrite (step_class done rest q d atoms W). do 2 f_equal. lengths.
  - auto.
  - intros _ M. destruct (not_quantifier_marked (IClass atoms) done); [discriminate|exact M].
Qed.

Lemma scan_quantifier (qq : quantifier) : item_scanned (IQuant qq).
Proof.
  intros W done rest q d. simpl in W.
  destruct qq as [| | |counts].
  - apply scans_over_same with (q' := mark_quantifier q d).
    + apply (reach _ done (lit "+") rest); [reflexivity|].
      apply (step_plus done rest q d).
    + intros k _. apply flag_at_mark_mono.
    + intros Hd _. apply flag_at_mark, Hd.
  - apply scans_over_same with (q' := mark_quantifier q d).
    + apply (reach _ done (lit "*") rest); [reflexivity|].
      apply (step_star done rest q d).
    + intros k _. apply flag_at_mark_mono.
    + intros Hd _. apply flag_at_mark, Hd.
  - apply scans_over_same
      with (q' := if lazy_before done then q else mark_quantifier q d).
    + apply (reach _ done (lit "?") rest); [reflexivity|].
      apply (step_question done rest q d).
    + intros k _ H. destruct (lazy_before done); [exact H|].
      apply flag_at_mark_mono, H.
    + intros Hd [q0 [E L]]. injection E as <-. rewrite (L eq_refl).
      apply flag_at_mark, Hd.
  - apply scans_over_same with (q' := mark_quantifier q d).
    + apply (reach _ done (render_item (IQuant (QBraces counts))) rest);
        [reflexivity|].
      simpl render_item. unfold render_quantifier.
      change (lit "{" ++ counts ++ lit "}") with ("{"%char :: counts ++ ["}"%char]).
      simpl app. rewrite <- app_assoc. simpl app.
      rewrite (step_braces done rest q d counts W). do 2 f_equal. lengths.
    + intros k _. apply flag_at_mark_mono.
    + intros Hd _. apply flag_at_mark, Hd.
Qed.

(** From the items to their sequence. *)
Lemma items_of_Forall (items : list item) :
  Forall item_scanned items -> items_scanned items.
Proof.
  induction 1 as [|it items Hit _ IH]; intros W done rest q d.
  - apply scans_over_same with (q' := q).
    + simpl. rewrite app_nil_r. reflexivity.
    + auto.
    + intros _ [l1 [qq [l2 [E _]]]]. destruct l1; discriminate.
  - simpl in W. apply andb_true_iff in W. destruct W as [W1 W2].
    rewrite render_cons.
    apply scans_over_app
      with (m1 := exists qq, it = IQuant qq /\
                             (qq = QQuestion -> lazy_before done = false))
           (m2 := directly_quantified (done ++ render_item it) items).
    + pose proof (Hit W1 done (render items ++ rest) q d) as S.
      rewrite <- app_assoc. exact S.
    + intros q1.
      pose proof (IH W2 (done ++ render_item it) rest q1 d) as S.
      rewrite <- !app_assoc in S. rewrite <- !app_assoc. exact S.
    + intros [l1 [qq [l2 [E L]]]]. destruct l1 as [|x l1].
      * left. exists qq. simpl in E. injection E as -> _.
        split; [reflexivity|]. intros Hq. specialize (L Hq).
        simpl in L. rewrite app_nil_r in L. exact L.
      * right. simpl in E. injection E as -> ->.
        exists l1, qq, l2. split; [reflexivity|].
        intros Hq. specialize (L Hq). rewrite render_cons in L.
        rewrite <- app_assoc. exact L.
Qed.

(** Entering a group: one level deeper, the flags of the levels above
    untouched. *)
Lemma scan_opener (nc : bool) (done rest : str) (q : flags) (d : nat) :
  exists q0,
    scan_loop (done ++ opener nc ++ rest) (mkScan q d (length done)) =
    scan_loop (done ++ opener nc ++ rest)
              (mkScan q0 (d + 1) (length (done ++ opener nc))) /\
    (forall k, k <= d -> flag_at q k = true -> flag_at q0 k = true).
Proof.
  set (q1 := if length q <=? d + 1 then flag_push q false
             else flag_set q (d + 1) false).
  assert (K1 : forall k, k <= d -> flag_at q k = true -> flag_at q1 k = true).
  { intros k Hk H. unfold q1. destruct (length q <=? d + 1).
    - rewrite flag_at_push_false. exact H.
    - rewrite flag_at_set_other by lia. exact H. }
  assert (E1 : forall text,
             scan_loop (done ++ lit "(" ++ text) (mkScan q d (length done)) =
             scan_loop (done ++ lit "(" ++ text)
                       (mkScan q1 (d + 1) (length (done ++ lit "(")))).
  { intros text. apply (reach _ done (lit "(") text); [reflexivity|].
    apply (step_open done text q d). }
  destruct nc; unfold opener.
  - exists (mark_quantifier q1 (d + 1)). split.
    + change ((lit "(" ++ lit "?:") ++ rest) with (lit "(" ++ lit "?:" ++ rest).
      rewrite E1.
      set (p := done ++ lit "(" ++ lit "?:" ++ rest).
      assert (E2 : scan_loop p (mkScan q1 (d + 1) (length (done ++ lit "("))) =
                   scan_loop p (mkScan (mark_quantifier q1 (d + 1)) (d + 1)
                                  (length ((done ++ lit "(") ++ lit "?")))).
      { apply (reach p (done ++ lit "(") (lit "?") (lit ":" ++ rest));
          [unfold p; rewrite <- app_assoc; reflexivity|].
        pose proof (step_question (done ++ lit "(") (lit ":" ++ rest) q1 (d + 1)) as S.
        change (lit "(") with ["("%char] in S.
        rewrite lazy_before_snoc in S. exact S. }
      assert (E3 : scan_loop p (mkScan (mark_quantifier q1 (d + 1)) (d + 1)
                                  (length ((done ++ lit "(") ++ lit "?"))) =
                   scan_loop p (mkScan (mark_quantifier q1 (d + 1)) (d + 1)
                                  (length (((done ++ lit "(") ++ lit "?") ++ lit ":")))).
      { apply (reach p ((done ++ lit "(") ++ lit "?") (lit ":") rest);
          [unfold p; rewrite <- !app_assoc; reflexivity|].
        apply (step_ordinary ((done ++ lit "(") ++ lit "?") rest). reflexivity. }
      rewrite E2, E3. f_equal. f_equal. rewrite <- !app_assoc. reflexivity.
    + intros k Hk H. apply flag_at_mark_mono, K1; assumption.
  - exists q1. split; [|exact K1].
    rewrite app_nil_r. apply E1.
Qed.

Lemma scan_group (nc : bool) (body : list item) :
  items_scanned body -> item_scanned (IGroup nc body).
Proof.
  intros IB W done rest q d. simpl in W.
  rewrite render_group. fold (opener nc).
  set (p := done ++ (opener nc ++ render body ++ lit ")") ++ rest).
  assert (Ep : p = done ++ opener nc ++ (render body ++ lit ")" ++ rest)).
  { unfold p. rewrite <- !app_assoc. reflexivity. }
  destruct (scan_opener nc done (render body ++ lit ")" ++ rest) q d)
    as [q0 [E0 K0]].
  rewrite <- Ep in E0.
  destruct (IB W (done ++ opener nc) (lit ")" ++ rest) q0 (d + 1))
    as [F | [q2 [E2 [K2 _]]]].
  { left. rewrite E0. rewrite app_assoc in Ep. rewrite <- Ep in F. exact F. }
  rewrite <- app_assoc, <- Ep in E2.
  pose proof (step_close ((done ++ opener nc) ++ render body) rest q2 (d + 1)) as S.
  replace (0 <? d + 1) with true in S by (symmetry; apply Nat.ltb_lt; lia).
  replace (d + 1 - 1) with d in S by lia. cbn [andb] in S.
  assert (Ep' : p = ((done ++ opener nc) ++ render body) ++ ")"%char :: rest).
  { rewrite Ep. rewrite <- !app_assoc. reflexivity. }
  rewrite <- Ep' in S.
  assert (L : length (done ++ opener nc ++ render body ++ lit ")") =
              length ((done ++ opener nc) ++ render body) + 1).
  { change (lit ")") with [")"%char]. lengths. }
  destruct (repeat_follows rest).
  - destruct (flag_at q2 (d + 1)).
    + left. rewrite E0, E2. apply scan_loop_return. exact S.
    + right.
      exists (if d <? length q2 then flag_set q2 d true else q2).
      split; [|split].
      * rewrite E0, E2, L. apply scan_loop_step. exact S.
      * intros k Hk H.
        assert (H2 : flag_at q2 k = true) by (apply K2; [lia|]; apply K0; assumption).
        destruct (d <? length q2); [|exact H2].
        destruct (Nat.eq_dec k d) as [->|N].
        -- apply flag_at_set_same.
        -- rewrite flag_at_set_other by exact N. exact H2.
      * intros _ M.
        destruct (not_quantifier_marked (IGroup nc body) done);
          [discriminate|exact M].
  - right. exists q2. split; [|split].
    + rewrite E0, E2, L. apply scan_loop_step. exact S.
    + intros k Hk H. apply K2; [lia|]. apply K0; assumption.
    + intros _ M.
      destruct (not_quantifier_marked (IGroup nc body) done);
        [discriminate|exact M].
Qed.

Lemma scan_item (it : item) : item_scanned it.
Proof.
  induction it using item_induction.
  - apply scan_char.
  - apply scan_escape.
  - apply scan_class.
  - apply scan_quantifier.
  - apply scan_group, items_of_Forall. assumption.
Qed.

Lemma scan_items (items : list item) : items_scanned items.
Proof.
  apply items_of_Forall, Forall_forall. intros it _. apply scan_item.
Qed.

End ScanEachItem.
(** ** [__isSafeRegex] rejects the nested-quantifier shape *)

Section NestedQuantifier.

Lemma wf_items_app (l1 l2 : list item) :
  wf_items (l1 ++ l2) = true -> wf_items l1 = true /\ wf_items l2 = true.
Proof. unfold wf_items. rewrite forallb_app. apply andb_true_iff. Qed.

Lemma lazy_before_opener (done : str) (nc : bool) :
  lazy_before (done ++ opener nc) = false.
Proof.
  rewrite lazy_before_app by (destruct nc; discriminate).
  destruct nc; reflexivity.
Qed.

(** A quantifier that counts behind [(] counts behind any opener. *)
Lemma directly_quantified_opener (done : str) (nc : bool) (body : list item) :
  directly_quantified (lit "(") body ->
  directly_quantified (done ++ opener nc) body.
Proof.
  intros [l1 [q [l2 [E L]]]]. exists l1, q, l2. split; [exact E|].
  intros Hq. specialize (L Hq).
  destruct (render l1) as [|c r] eqn:R.
  - rewrite app_nil_r. apply lazy_before_opener.
  - rewrite lazy_before_app by discriminate.
    rewrite lazy_before_app in L by discriminate. exact L.
Qed.

(** From the beginning of a sequence of items to the inside of a group
    among them. *)
Lemma scan_into_group (l1 : list item) (nc : bool) (done rest : str)
    (q : flags) (d : nat) :
  wf_items l1 = true ->
  scan_loop (done ++ render l1 ++ opener nc ++ rest) (mkScan q d (length done))
    = false \/
  exists q0,
    scan_loop (done ++ render l1 ++ opener nc ++ rest) (mkScan q d (length done)) =
    scan_loop (done ++ render l1 ++ opener nc ++ rest)
              (mkScan q0 (d + 1) (length ((done ++ render l1) ++ opener nc))).
Proof.
  intros W.
  destruct (scan_items l1 W done (opener nc ++ rest) q d)
    as [F | [q1 [E1 _]]]; [left; exact F|].
  destruct (scan_opener nc (done ++ render l1) rest q1 d) as [q0 [E0 _]].
  rewrite <- app_assoc in E0.
  right. exists q0. rewrite E1. exact E0.
Qed.

Lemma repeat_follows_quantifier (q : quantifier) (rest : str) :
  repeats q = true -> repeat_follows (render_quantifier q ++ rest) = true.
Proof. destruct q; [reflexivity | reflexivity | discriminate | reflexivity]. Qed.

(** Wherever the scan stands when it meets the shape, it rejects the
    pattern. *)
Lemma scan_nested (items : list item) :
  nested_quantifier items -> wf_items items = true ->
  forall (done rest : str) (q : flags) (d : nat),
    scan_loop (done ++ render items ++ rest) (mkScan q d (length done)) = false.
Proof.
  induction 1 as [l1 nc body qq l2 DQ R | l1 nc body l2 N IH];
    intros W done rest q d.
  - apply wf_items_app in W. destruct W as [W1 W].
    simpl in W. apply andb_true_iff in W. destruct W as [Wb _].
    rewrite render_app, !render_cons, render_group. fold (opener nc).
    simpl (render_item (IQuant qq)).
    set (tail := render_quantifier qq ++ render l2 ++ rest).
    set (p := done ++ (render l1 ++ (opener nc ++ render body ++ lit ")") ++
                        render_quantifier qq ++ render l2) ++ rest).
    assert (Ep : p = done ++ render l1 ++ opener nc ++
                       (render body ++ ")"%char :: tail)).
    { unfold p, tail. rewrite <- !app_assoc. reflexivity. }
    destruct (scan_into_group l1 nc done (render body ++ ")"%char :: tail) q d W1)
      as [F | [q0 E0]]; rewrite <- Ep in *; [exact F|].
    rewrite E0.
    assert (Ep2 : p = ((done ++ render l1) ++ opener nc) ++ render body ++
                        ")"%char :: tail).
    { rewrite Ep. rewrite <- !app_assoc. reflexivity. }
    destruct (scan_items body Wb ((done ++ render l1) ++ opener nc)
                (")"%char :: tail) q0 (d + 1))
      as [F | [q2 [E2 [_ M2]]]]; rewrite <- Ep2 in *; [exact F|].
    rewrite E2.
    assert (H2 : flag_at q2 (d + 1) = true).
    { apply M2; [lia|]. apply directly_quantified_opener. exact DQ. }
    apply scan_loop_return.
    pose proof (step_close (((done ++ render l1) ++ opener nc) ++ render body)
                  tail q2 (d + 1)) as S.
    unfold tail in S at 2. rewrite repeat_follows_quantifier in S by exact R.
    replace (0 <? d + 1) with true in S by (symmetry; apply Nat.ltb_lt; lia).
    rewrite H2 in S. cbn [andb] in S.
    rewrite Ep2, app_assoc. exact S.
  - apply wf_items_app in W. destruct W as [W1 W].
    simpl in W. apply andb_true_iff in W. destruct W as [Wb _].
    rewrite render_app, render_cons, render_group. fold (opener nc).
    set (tail := render l2 ++ rest).
    set (p := done ++ (render l1 ++ (opener nc ++ render body ++ lit ")") ++
                        render l2) ++ rest).
    assert (Ep : p = done ++ render l1 ++ opener nc ++
                       (render body ++ ")"%char :: tail)).
    { unfold p, tail. rewrite <- !app_assoc. reflexivity. }
    destruct (scan_into_group l1 nc done (render body ++ ")"%char :: tail) q d W1)
      as [F | [q0 E0]]; rewrite <- Ep in *; [exact F|].
    rewrite E0.
    assert (Ep2 : p = ((done ++ render l1) ++ opener nc) ++ render body ++
                        ")"%char :: tail).
    { rewrite Ep. rewrite <- !app_assoc. reflexivity. }
    rewrite Ep2. apply (IH Wb).
Qed.

End NestedQuantifier.

(** C2, as stated, fails: in [((a+))+] the outer group contains the
    quantified [a+] and is followed by [+], and the scan accepts the
    pattern; the flag of a depth records the quantifiers met at that depth
    only. *)
Lemma isSafeRegex_nested_counterexample :
  let inner := IGroup false [IChar "a"; IQuant QPlus] in
  let outer := IGroup false [inner] in
  render [outer; IQuant QPlus] = lit "((a+))+" /\
  contains_quantifier outer = true /\
  __isSafeRegex (lit "((a+))+") = true.
Proof. cbv zeta. repeat split; vm_compute; reflexivity. Qed.

(** C2 (amended). For every pattern in which, at any depth, a capturing
    or non-capturing group that has a quantifier among its own items (not
    only inside a deeper group; a [?] counting where it quantifies) is
    immediately followed by [+], [*] or [{...}], [__isSafeRegex] returns
    false; and for every engine, [__safeRegExp] returns [null] for every
    pattern [__isSafeRegex] rejects and for every pattern the constructor
    fails on.  It is a total function: it does not throw. *)
Theorem isSafeRegex_rejects_nested_quantifier
  (engine : RegExpEngine) (items : list item) (pattern : str)
  (flags : option str) :
  (wf_items items = true -> nested_quantifier items ->
   __isSafeRegex (render items) = false) /\
  (__isSafeRegex pattern = false -> __safeRegExp engine pattern flags = None) /\
  (RegExp_new engine pattern flags = None ->
   __safeRegExp engine pattern flags = None).
Proof.
  split; [|split].
  - intros W N. unfold __isSafeRegex.
    pose proof (scan_nested items N W [] [] [] 0) as S.
    simpl in S. rewrite app_nil_r in S. exact S.
  - intros H. unfold __safeRegExp. rewrite H. reflexivity.
  - intros H. unfold __safeRegExp. rewrite H.
    destruct (negb _); reflexivity.
Qed.

Lemma isSafeRegex_rejects_nested_quantifier_witness :
  __isSafeRegex (render [IGroup false [IChar "a"; IQuant QPlus]; IQuant QPlus])
    = false /\
  __safeRegExp RefEngine.engine (lit "(a+)+") None = None /\
  __safeRegExp RefEngine.engine (lit "a)") None = None.
Proof.
  assert (N : nested_quantifier
                [IGroup false [IChar "a"; IQuant QPlus]; IQuant QPlus]).
  { apply (nested_here [] false [IChar "a"; IQuant QPlus] QPlus []);
      [|reflexivity].
    exists [IChar "a"], QPlus, []. split; [reflexivity | discriminate]. }
  split; [|split].
  - apply (proj1 (isSafeRegex_rejects_nested_quantifier RefEngine.engine
                    [IGroup false [IChar "a"; IQuant QPlus]; IQuant QPlus]
                    [] None)); [reflexivity | exact N].
  - apply (proj1 (proj2 (isSafeRegex_rejects_nested_quantifier RefEngine.engine
                           [] (lit "(a+)+") None))).
    vm_compute. reflexivity.
  - apply (proj2 (proj2 (isSafeRegex_rejects_nested_quantifier RefEngine.engine
                           [] (lit "a)") None))).
    vm_compute. reflexivity.
Defined.
(** ** More about [normalizePath] *)

Section NormalizePathMore.

Local Notation "'slash'" := ("/"%char).

Lemma skipn_nth (A : Type) (d : A) (l : list A) :
  forall i, i < length l -> skipn i l = nth i l d :: skipn (i + 1) l.
Proof.
  induction l as [|x l IH]; intros i H; [simpl in H; lia|].
  destruct i as [|i]; [reflexivity|].
  simpl. apply IH. simpl in H. lia.
Qed.

Lemma __resolve_loop_fold (n : nat) (segments : list str) :
  forall i resolved,
    length segments <= i + n ->
    __resolve_loop n segments i resolved =
    fold_left resolve_segment (skipn i segments) resolved.
Proof.
  induction n as [|n IH]; intros i resolved H.
  - simpl. rewrite skipn_all2 by lia. reflexivity.
  - cbn [__resolve_loop]. destruct (i <? length segments) eqn:L.
    + apply Nat.ltb_lt in L. cbv zeta. rewrite IH by lia.
      rewrite (skipn_nth str [] segments i L). reflexivity.
    + apply Nat.ltb_ge in L. rewrite skipn_all2 by lia. reflexivity.
Qed.

Lemma resolve_path_resolved_of (p : str) :
  resolve_path p = lit "/" ++ join (lit "/") (resolved_of p).
Proof. reflexivity. Qed.

(** The segments before a slash are resolved first, then those after it. *)
Lemma resolved_of_app (a b : str) :
  resolved_of (a ++ slash :: b) =
  fold_left resolve_segment (split slash b) (resolved_of a).
Proof. unfold resolved_of. rewrite split_app, fold_left_app. reflexivity. Qed.

Lemma is_canonical_includes (p : str) :
  includes (lit "//") p = true \/ includes (lit "/./") p = true \/
  includes (lit "/../") p = true ->
  is_canonical p = false.
Proof.
  intros H. destruct (is_canonical p) eqn:E; [|reflexivity].
  destruct (is_canonical_shape p E) as [I0 [I1 [I2 _]]].
  destruct H as [H | [H | H]]; congruence.
Qed.

Lemma includes_middle (a sub b : str) : includes sub (a ++ sub ++ b) = true.
Proof. apply includes_spec. exists a, b. reflexivity. Qed.

(** An empty segment or a dot between two slashes changes nothing; a
    segment followed by [..] neither. *)
Lemma resolved_of_double_slash (a b : str) :
  resolved_of (a ++ lit "//" ++ b) = resolved_of (a ++ lit "/" ++ b).
Proof.
  change (a ++ lit "//" ++ b) with (a ++ slash :: slash :: b).
  change (a ++ lit "/" ++ b) with (a ++ slash :: b).
  rewrite !resolved_of_app. rewrite split_cons_sep. reflexivity.
Qed.

Lemma resolved_of_dot (a b : str) :
  resolved_of (a ++ lit "/./" ++ b) = resolved_of (a ++ lit "/" ++ b).
Proof.
  change (a ++ lit "/./" ++ b) with (a ++ slash :: lit "." ++ slash :: b).
  change (a ++ lit "/" ++ b) with (a ++ slash :: b).
  rewrite !resolved_of_app, split_app. reflexivity.
Qed.

Lemma resolved_of_parent (a x b : str) :
  resolved_segment x ->
  resolved_of (a ++ lit "/" ++ x ++ lit "/../" ++ b) =
  resolved_of (a ++ lit "/" ++ b).
Proof.
  intros [H0 [H1 [H2 Hs]]].
  change (a ++ lit "/" ++ x ++ lit "/../" ++ b)
    with (a ++ slash :: x ++ slash :: lit ".." ++ slash :: b).
  change (a ++ lit "/" ++ b) with (a ++ slash :: b).
  rewrite !resolved_of_app, !split_app, (split_no_sep slash x Hs).
  rewrite !fold_left_app. f_equal. simpl.
  unfold resolve_segment at 2.
  apply str_eqb_neq in H0, H1, H2. rewrite H0, H1, H2. simpl.
  unfold resolve_segment. simpl. apply removelast_last.
Qed.

Lemma normalizePath_slow (p : str) :
  is_canonical p = false ->
  normalizePath p = lit "/" ++ join (lit "/") (resolved_of p).
Proof. intros H. unfold normalizePath. rewrite H. reflexivity. Qed.

(** A [/..] in front of an absolute path is dropped. *)
Lemma resolved_of_parent_of_root (s : str) :
  resolved_of (lit "/.." ++ slash :: s) = resolved_of (slash :: s).
Proof.
  change (lit "/.." ++ slash :: s) with ((slash :: lit "..") ++ slash :: s).
  change (slash :: s) with ([] ++ slash :: s) at 2.
  rewrite !resolved_of_app. reflexivity.
Qed.

Lemma times_parent_absolute (n : nat) (s : str) :
  exists s', times n (lit "/..") ++ slash :: s = slash :: s'.
Proof. destruct n; simpl; eauto. Qed.

End NormalizePathMore.

(** The generated copy of [normalizePath] computes the same function. *)
Theorem __normalizePath_normalizePath (pathname : str) :
  __normalizePath pathname = normalizePath pathname.
Proof.
  unfold __normalizePath, normalizePath, resolve_path.
  destruct (is_canonical pathname); [reflexivity|]. cbv zeta.
  rewrite __resolve_loop_fold by lia. reflexivity.
Qed.

(** A doubled slash, a [/./] and a segment followed by [/../] are three
    spellings of one path: [normalizePath] sends them to the same output,
    which is also the output for the plain spelling with one slash when
    that one is not returned by the fast path. *)
Theorem normalizePath_equivalent_spellings (a b x : str)
  (Hx : resolved_segment x) :
  normalizePath (a ++ lit "/./" ++ b) = normalizePath (a ++ lit "//" ++ b) /\
  normalizePath (a ++ lit "/" ++ x ++ lit "/../" ++ b) =
    normalizePath (a ++ lit "//" ++ b) /\
  (is_canonical (a ++ lit "/" ++ b) = false ->
   normalizePath (a ++ lit "/" ++ b) = normalizePath (a ++ lit "//" ++ b)).
Proof.
  assert (C0 : is_canonical (a ++ lit "//" ++ b) = false).
  { apply is_canonical_includes. left. apply includes_middle. }
  assert (C1 : is_canonical (a ++ lit "/./" ++ b) = false).
  { apply is_canonical_includes. right. left. apply includes_middle. }
  assert (C2 : is_canonical (a ++ lit "/" ++ x ++ lit "/../" ++ b) = false).
  { apply is_canonical_includes. right. right.
    replace (a ++ lit "/" ++ x ++ lit "/../" ++ b)
      with ((a ++ lit "/" ++ x) ++ lit "/../" ++ b)
      by (rewrite <- !app_assoc; reflexivity).
    apply includes_middle. }
  rewrite (normalizePath_slow _ C0), (normalizePath_slow _ C1),
    (normalizePath_slow _ C2).
  rewrite resolved_of_double_slash, resolved_of_dot,
    (resolved_of_parent a x b Hx).
  split; [reflexivity|]. split; [reflexivity|].
  intros C. rewrite (normalizePath_slow _ C). reflexivity.
Qed.

Lemma normalizePath_equivalent_spellings_witness :
  normalizePath (lit "/dashboard" ++ lit "/./" ++ lit "settings") =
    normalizePath (lit "/dashboard" ++ lit "//" ++ lit "settings") /\
  normalizePath (lit "/dashboard" ++ lit "/" ++ lit "x" ++ lit "/../" ++ lit "settings") =
    normalizePath (lit "/dashboard" ++ lit "//" ++ lit "settings") /\
  (is_canonical (lit "dashboard" ++ lit "/" ++ lit "settings") = false ->
   normalizePath (lit "dashboard" ++ lit "/" ++ lit "settings") =
   normalizePath (lit "dashboard" ++ lit "//" ++ lit "settings")).
Proof.
  assert (Hx : resolved_segment (lit "x")).
  { repeat split; try discriminate.
    simpl. intros [H | []]. discriminate. }
  destruct (normalizePath_equivalent_spellings (lit "/dashboard") (lit "settings")
              (lit "x") Hx) as [A [B _]].
  destruct (normalizePath_equivalent_spellings (lit "dashboard") (lit "settings")
              (lit "x") Hx) as [_ [_ C]].
  split; [exact A|]. split; [exact B|exact C].
Defined.

(** Going up from the root stays at the root: any number of [/..] in front
    of a canonical pathname (one that does not end in a slash) is dropped. *)
Theorem normalizePath_parent_of_root (n : nat) (q : str)
  (Hc : is_canonical q = true) (Ht : endsWith (lit "/") q = false) :
  normalizePath (times n (lit "/..") ++ q) = q.
Proof.
  assert (Hq : exists s, q = "/"%char :: s).
  { destruct (is_canonical_shape q Hc) as [_ [_ [_ [_ [_ [S1 _]]]]]].
    apply startsWith_spec in S1. destruct S1 as [r ->]. exists r. reflexivity. }
  destruct Hq as [s ->].
  assert (R : resolved_of (times n (lit "/..") ++ "/"%char :: s) =
              resolved_of ("/"%char :: s)).
  { induction n as [|n IH]; [reflexivity|].
    cbn [times]. rewrite <- app_assoc.
    destruct (times_parent_absolute n s) as [s' E]. rewrite E.
    rewrite resolved_of_parent_of_root, <- E. exact IH. }
  destruct n as [|n].
  - simpl. unfold normalizePath. rewrite Hc. reflexivity.
  - rewrite normalizePath_slow.
    + rewrite R, <- resolve_path_resolved_of.
      apply resolve_path_canonical_no_trailing; assumption.
    + apply is_canonical_includes. right. right.
      cbn [times]. rewrite <- app_assoc.
      destruct (times_parent_absolute n s) as [s' E]. rewrite E.
      apply includes_spec. exists [], s'. reflexivity.
Qed.

Lemma normalizePath_parent_of_root_witness :
  normalizePath (times 3 (lit "/..") ++ lit "/admin/users") = lit "/admin/users".
Proof.
  apply (normalizePath_parent_of_root 3 (lit "/admin/users")); reflexivity.
Defined.

(** The fast path of [normalizePath] is an optimisation only on pathnames
    without a trailing slash: on a canonical pathname that does not end in
    a slash, splitting, resolving and joining gives the pathname back, as
    the early return does. *)
Theorem fast_path_agrees_with_slow_path (p : str)
  (Hc : is_canonical p = true) (Ht : endsWith (lit "/") p = false) :
  resolve_path p = normalizePath p /\ normalizePath p = p.
Proof.
  unfold normalizePath. rewrite Hc. split; [|reflexivity].
  apply resolve_path_canonical_no_trailing; assumption.
Qed.

Lemma fast_path_agrees_with_slow_path_witness :
  resolve_path (lit "/docs/guide.md") = normalizePath (lit "/docs/guide.md") /\
  normalizePath (lit "/docs/guide.md") = lit "/docs/guide.md".
Proof.
  apply (fast_path_agrees_with_slow_path (lit "/docs/guide.md")); reflexivity.
Defined.
(** ** What [__isSafeRegex] never rejects *)

Section ScanNeverRejects.

(** Every iteration that goes on moves forward, inside the pattern. *)
Lemma scan_step_progress (p : str) (st st' : scan_state) :
  scan_step p st = inl st' -> pos st < pos st' /\ pos st < length p.
Proof.
  intros H.
  assert (M : forall n j, j <= skip_class n p j).
  { induction n as [|n IH]; intros j; simpl; [lia|].
    destruct (_ && _); [|lia].
    destruct (char_is p j "\"); eapply Nat.le_trans; [|apply IH| |apply IH]; lia. }
  assert (N : forall n j, j <= skip_counts n p j).
  { induction n as [|n IH]; intros j; simpl; [lia|].
    destruct (_ && _); [|lia]. eapply Nat.le_trans; [|apply IH]; lia. }
  unfold scan_step in H. destruct st as [q d i]. simpl in *.
  destruct (i <? length p) eqn:L; simpl in H; [|discriminate].
  apply Nat.ltb_lt in L.
  specialize (M (length p) (i + 1)).
  specialize (N (length p) (i + 1)).
  repeat match type of H with
         | (if ?c then _ else _) = _ => destruct c eqn:?
         | (let _ := _ in _) = _ => cbv zeta in H
         end;
    try discriminate; injection H as <-; simpl; lia.
Qed.

(** The only iteration that returns [false] reads a closing parenthesis
    followed by [+], [*] or [{]. *)
Lemma scan_step_rejects (p : str) (st : scan_state) :
  scan_step p st = inr false ->
  char_is p (pos st) ")" = true /\
  (char_is p (pos st + 1) "+" || char_is p (pos st + 1) "*" ||
   char_is p (pos st + 1) "{") = true.
Proof.
  unfold scan_step. destruct st as [q d i]. cbn [pos depth quantifierAtDepth].
  cbv zeta.
  repeat match goal with
         | |- (if ?c then _ else _) = _ -> _ => destruct c eqn:?
         end; try discriminate; intros _; auto.
Qed.

Lemma scan_loop_rejects (p : str) (n : nat) :
  forall st, length p - pos st <= n ->
    scan_loop p st = false ->
    exists i,
      char_is p i ")" = true /\
      (char_is p (i + 1) "+" || char_is p (i + 1) "*" ||
       char_is p (i + 1) "{") = true.
Proof.
  induction n as [|n IH]; intros st Hn H; rewrite scan_loop_eq in H;
    destruct (scan_step p st) as [st'|b] eqn:E.
  - apply scan_step_progress in E. lia.
  - subst b. exists (pos st). apply scan_step_rejects, E.
  - apply (IH st'); [|exact H]. apply scan_step_progress in E. lia.
  - subst b. exists (pos st). apply scan_step_rejects, E.
Qed.

(** Two characters read one after the other are a substring. *)
Lemma char_is_pair (p : str) (i : nat) (c1 c2 : ascii) :
  char_is p i c1 = true -> char_is p (i + 1) c2 = true ->
  includes [c1; c2] p = true.
Proof.
  unfold char_is, charAt. intros H1 H2.
  destruct (nth_error p i) as [x|] eqn:E1; [|discriminate].
  destruct (nth_error p (i + 1)) as [y|] eqn:E2; [|discriminate].
  apply ch_eqb_eq in H1, H2. subst x y.
  apply nth_error_split in E1. destruct E1 as [l1 [l2 [-> L]]].
  rewrite nth_error_app2 in E2 by lia.
  replace (i + 1 - length l1) with 1 in E2 by lia.
  destruct l2 as [|y l2]; [discriminate|]. simpl in E2. injection E2 as ->.
  apply includes_spec. exists l1, l2. reflexivity.
Qed.

End ScanNeverRejects.

Lemma scan_accepts_without_quantified_close (pattern : str)
  (H1 : includes (lit ")+") pattern = false)
  (H2 : includes (lit ")*") pattern = false)
  (H3 : includes (lit "){") pattern = false) :
  __isSafeRegex pattern = true.
Proof.
  destruct (__isSafeRegex pattern) eqn:E; [reflexivity|].
  unfold __isSafeRegex in E.
  destruct (scan_loop_rejects pattern (length pattern) (mkScan [] 0 0)
              (Nat.le_sub_l _ _) E) as [i [C Q]].
  apply orb_true_iff in Q. destruct Q as [Q | Q];
    [apply orb_true_iff in Q; destruct Q as [Q | Q]|].
  - pose proof (char_is_pair pattern i _ _ C Q) as F.
    change [")"%char; "+"%char] with (lit ")+") in F. congruence.
  - pose proof (char_is_pair pattern i _ _ C Q) as F.
    change [")"%char; "*"%char] with (lit ")*") in F. congruence.
  - pose proof (char_is_pair pattern i _ _ C Q) as F.
    change [")"%char; "{"%char] with (lit "){") in F. congruence.
Qed.

(** [__isSafeRegex] rejects a pattern only where a closing parenthesis is
    directly followed by [+], [*] or [{]: a pattern without such a pair of
    characters is always accepted. *)
Theorem isSafeRegex_accepts_unquantified_groups (pattern : str)
  (H1 : includes (lit ")+") pattern = false)
  (H2 : includes (lit ")*") pattern = false)
  (H3 : includes (lit "){") pattern = false) :
  __isSafeRegex pattern = true.
Proof. exact (scan_accepts_without_quantified_close pattern H1 H2 H3). Qed.

Lemma isSafeRegex_accepts_unquantified_groups_witness :
  __isSafeRegex (lit "^/((?!api|_next/static|favicon.ico).*)$") = true.
Proof.
  apply isSafeRegex_accepts_unquantified_groups; reflexivity.
Defined.
(** ** More about the tokenizer *)

Section TokenizerMore.

Lemma take_drop_while (f : ascii -> bool) (s : str) :
  s = take_while f s ++ drop_while f s /\
  forallb f (take_while f s) = true /\
  stops f (drop_while f s).
Proof.
  induction s as [|c s [E [A S]]]; simpl; [auto|].
  destruct (f c) eqn:F; simpl.
  - rewrite F, A. rewrite <- E. auto.
  - rewrite F. auto.
Qed.

Lemma drop_while_length (f : ascii -> bool) (s : str) :
  length (drop_while f s) <= length s.
Proof.
  induction s as [|c s IH]; simpl; [lia|]. destruct (f c); simpl; lia.
Qed.

Lemma drop_while_In (f : ascii -> bool) (s : str) (x : ascii) :
  In x (drop_while f s) -> In x s.
Proof.
  induction s as [|c s IH]; simpl; [auto|].
  destruct (f c); simpl; auto.
Qed.

Lemma escape_dots_literal (run : str) :
  forallb is_literal_char run = true -> escape_dots run = run.
Proof.
  induction run as [|c run IH]; intros H; [reflexivity|].
  simpl in H. apply andb_true_iff in H. destruct H as [Hc H].
  destruct (literal_chars c Hc) as [_ [_ H3]].
  change (escape_dots (c :: run))
    with ((if ch_eqb c "." then lit "\." else [c]) ++ escape_dots run).
  rewrite H3, IH by exact H. reflexivity.
Qed.

Lemma escape_dots_app (a b : str) :
  escape_dots (a ++ b) = escape_dots a ++ escape_dots b.
Proof. unfold escape_dots. apply flat_map_app. Qed.

(** Without a colon there are three kinds of tokens: a slash, a dot, a run
    of other characters. *)
Lemma tokenize_no_colon (n : nat) :
  forall (pattern regexStr : str),
    length pattern <= n -> ~ In ":"%char pattern ->
    tokenize_loop pattern regexStr = regexStr ++ escape_dots pattern.
Proof.
  induction n as [|n IH]; intros pattern regexStr L C.
  - destruct pattern; [|simpl in L; lia].
    rewrite tokenize_loop_nil, app_nil_r. reflexivity.
  - destruct pattern as [|c r].
    { rewrite tokenize_loop_nil, app_nil_r. reflexivity. }
    assert (Cc : ch_eqb c ":" = false).
    { apply ch_eqb_neq. intros ->. apply C. left. reflexivity. }
    assert (Cr : ~ In ":"%char r) by (intros F; apply C; right; exact F).
    simpl in L.
    destruct (ch_eqb c "/") eqn:E1.
    { apply ch_eqb_eq in E1. subst c.
      assert (T : tokenRe_match_here ("/"%char :: r) =
                  Some (mkToken (lit "/") None None None, r)).
      { destruct r as [|c2 r']; [reflexivity|].
        apply token_slash. apply ch_eqb_neq. intros ->.
        apply Cr. left. reflexivity. }
      rewrite (tokenize_loop_here _ _ _ _ T).
      rewrite IH by (assumption || lia).
      rewrite <- app_assoc. reflexivity. }
    destruct (ch_eqb c ".") eqn:E2.
    { apply ch_eqb_eq in E2. subst c.
      assert (T : tokenRe_match_here ("."%char :: r) =
                  Some (mkToken (lit ".") None None None, r)).
      { destruct r as [|c2 r']; reflexivity. }
      rewrite (tokenize_loop_here _ _ _ _ T).
      rewrite IH by (assumption || lia).
      rewrite <- app_assoc. reflexivity. }
    assert (Lc : is_literal_char c = true).
    { unfold is_literal_char. rewrite E1, Cc, E2. reflexivity. }
    destruct (take_drop_while is_literal_char (c :: r)) as [E [A S]].
    simpl in E, A, S. rewrite Lc in E, A, S.
    set (run := take_while is_literal_char r) in *.
    set (rest := drop_while is_literal_char r) in *.
    assert (T : tokenRe_match_here ((c :: run) ++ rest) =
                Some (mkToken (c :: run) None None None, rest)).
    { apply token_literal; assumption. }
    simpl app in T. injection E as E. rewrite E.
    rewrite (tokenize_loop_here _ _ _ _ T).
    rewrite IH.
    + unfold token_regex. cbn [tok0 tok1 tok2 tok3].
      rewrite (literal_not_dot c run A).
      change (c :: run ++ rest) with ((c :: run) ++ rest).
      rewrite escape_dots_app, (escape_dots_literal (c :: run) A).
      rewrite <- app_assoc. reflexivity.
    + pose proof (drop_while_length is_literal_char r). unfold rest. lia.
    + intros F. apply Cr. apply (drop_while_In is_literal_char). exact F.
Qed.

Lemma includes_one (c : ascii) (s : str) :
  includes [c] s = true <-> In c s.
Proof.
  rewrite includes_spec. split.
  - intros [a [b ->]]. apply in_or_app. right. left. reflexivity.
  - intros H. apply in_split in H. destruct H as [a [b ->]]. exists a, b.
    reflexivity.
Qed.

End TokenizerMore.

(** A pattern without a colon is copied in one pass, its dots escaped and
    nothing else changed; so, when it has no parenthesis and no backslash
    either, [matchPattern] tests exactly that expression between [^] and
    [$], and compares the two strings when it is rejected or does not
    compile. *)
Theorem tokenize_without_parameters (engine : RegExpEngine)
  (pathname pattern : str) (H : ~ In ":"%char pattern) :
  tokenize_loop pattern [] = escape_dots pattern /\
  (~ In "("%char pattern -> ~ In "\"%char pattern ->
   matchPattern engine pathname pattern =
   match safeRegExp engine (lit "^" ++ escape_dots pattern ++ lit "$") None with
   | Some re => RegExp_test engine re pathname
   | None => str_eqb pathname pattern
   end).
Proof.
  assert (T : tokenize_loop pattern [] = escape_dots pattern).
  { apply (tokenize_no_colon (length pattern)); [lia | exact H]. }
  split; [exact T|]. intros P B. unfold matchPattern. cbv zeta.
  replace (includes (lit "(") pattern) with false.
  - replace (includes (lit "\") pattern) with false.
    + rewrite T. reflexivity.
    + symmetry. destruct (includes (lit "\") pattern) eqn:E; [|reflexivity].
      apply includes_one in E. destruct (B E).
  - symmetry. destruct (includes (lit "(") pattern) eqn:E; [|reflexivity].
    apply includes_one in E. destruct (P E).
Qed.

Lemma tokenize_without_parameters_witness :
  tokenize_loop (lit "/feed.xml") [] = escape_dots (lit "/feed.xml") /\
  matchPattern RefEngine.engine (lit "/feedAxml") (lit "/feed.xml") = false.
Proof.
  assert (H : ~ In ":"%char (lit "/feed.xml")).
  { simpl. intros F. repeat (destruct F as [F|F]; [discriminate F|]). exact F. }
  destruct (tokenize_without_parameters RefEngine.engine (lit "/feedAxml")
              (lit "/feed.xml") H) as [T M].
  split; [exact T|]. rewrite M.
  - vm_compute. reflexivity.
  - simpl. intros F. repeat (destruct F as [F|F]; [discriminate F|]). exact F.
  - simpl. intros F. repeat (destruct F as [F|F]; [discriminate F|]). exact F.
Defined.
(** ** The expressions of path templates pass the scan *)

Section TemplateSafe.

Lemma name_char_literal (c : ascii) :
  is_name_char c = true -> is_literal_char c = true.
Proof.
  destruct c as [[] [] [] [] [] [] [] []]; vm_compute; congruence.
Qed.

Lemma name_char_not_paren (c : ascii) :
  is_name_char c = true -> c <> ")"%char.
Proof. intros H ->. vm_compute in H. discriminate. Qed.

Lemma forallb_name_literal (s : str) :
  forallb is_name_char s = true -> forallb is_literal_char s = true.
Proof.
  induction s as [|c s IH]; simpl; [auto|].
  intros H. apply andb_true_iff in H. destruct H as [Hc H].
  rewrite (name_char_literal c Hc), IH by exact H. reflexivity.
Qed.

(** A pair of characters that begins with [x] does not begin inside a
    text without [x]: it is found in what follows that text, or nowhere. *)
Lemma includes_pair_skip (x y : ascii) (s t : str) :
  ~ In x s -> includes [x; y] (s ++ t) = includes [x; y] t.
Proof.
  induction s as [|c s IH]; intros H; [reflexivity|].
  simpl app. cbn [includes]. rewrite IH by (intros F; apply H; right; exact F).
  replace (startsWith [x; y] (c :: s ++ t)) with false; [reflexivity|].
  symmetry. cbn [startsWith].
  replace (ch_eqb x c) with false; [reflexivity|].
  symmetry. apply ch_eqb_neq. intros ->. apply H. left. reflexivity.
Qed.

Lemma name_chars_no_paren (s : str) :
  forallb is_name_char s = true -> ~ In ")"%char s.
Proof.
  induction s as [|c s IH]; simpl; [auto|].
  intros H. apply andb_true_iff in H. destruct H as [Hc H].
  intros [F | F]; [exact (name_char_not_paren c Hc F) | exact (IH H F)].
Qed.

Lemma template_prefix_safe (segment tail : str) (y : ascii) :
  forallb is_name_char segment = true ->
  includes [")"%char; y] (lit "^" ++ (lit "/" ++ segment ++ tail) ++ lit "$") =
  includes [")"%char; y] (tail ++ lit "$").
Proof.
  intros H.
  replace (lit "^" ++ (lit "/" ++ segment ++ tail) ++ lit "$")
    with ((lit "^/" ++ segment) ++ tail ++ lit "$")
    by (simpl; rewrite <- !app_assoc; reflexivity).
  apply includes_pair_skip. simpl. intros [F | [F | F]]; try discriminate.
  exact (name_chars_no_paren segment H F).
Qed.

End TemplateSafe.

(** For every segment and every parameter name made of letters, digits,
    [_] and [-], the expressions that the tokenizer makes of
    [/segment/:name], [/segment/:name*] and [/segment/:name+] pass
    [__isSafeRegex]: such a template is matched by its regular expression,
    not by the comparison of strings that a rejected pattern falls back
    to. *)
Theorem template_regex_is_safe (segment name : str)
  (Hs : forallb is_name_char segment = true) (Ns : segment <> [])
  (Hn : forallb is_name_char name = true) (Nn : name <> []) :
  __isSafeRegex
    (lit "^" ++ tokenize_loop (lit "/" ++ segment ++ lit "/:" ++ name) [] ++ lit "$")
    = true /\
  __isSafeRegex
    (lit "^" ++ tokenize_loop (lit "/" ++ segment ++ lit "/:" ++ name ++ lit "*") []
       ++ lit "$") = true /\
  __isSafeRegex
    (lit "^" ++ tokenize_loop (lit "/" ++ segment ++ lit "/:" ++ name ++ lit "+") []
       ++ lit "$") = true.
Proof.
  destruct (tokenize_templates segment name (forallb_name_literal segment Hs)
              Ns Hn Nn) as [T1 [T2 T3]].
  rewrite T1, T2, T3.
  repeat split; apply scan_accepts_without_quantified_close;
    change (lit ")+") with [")"%char; "+"%char];
    change (lit ")*") with [")"%char; "*"%char];
    change (lit "){") with [")"%char; "{"%char];
    rewrite (template_prefix_safe segment _ _ Hs); reflexivity.
Qed.

Lemma template_regex_is_safe_witness :
  __isSafeRegex
    (lit "^" ++ tokenize_loop (lit "/" ++ lit "sign-in" ++ lit "/:" ++ lit "sign-in") []
       ++ lit "$") = true /\
  __isSafeRegex
    (lit "^" ++ tokenize_loop (lit "/" ++ lit "sign-in" ++ lit "/:" ++ lit "sign-in" ++ lit "*") []
       ++ lit "$") = true /\
  __isSafeRegex
    (lit "^" ++ tokenize_loop (lit "/" ++ lit "sign-in" ++ lit "/:" ++ lit "sign-in" ++ lit "+") []
       ++ lit "$") = true.
Proof.
  apply template_regex_is_safe;
    [reflexivity | discriminate | reflexivity | discriminate].
Defined.
(** ** More about [matchesMiddleware] *)

Section MatcherListFacts.

Lemma matcher_patterns_sources (entries : list matcher_entry) :
  matcher_patterns (MatcherArray entries) =
  flat_map (fun m => match entry_source m with Some s => [s] | None => [] end)
           entries.
Proof.
  simpl. induction entries as [|m entries IH]; [reflexivity|].
  simpl. rewrite fold_entry_patterns_app, IH.
  destruct m as [s | [src|] |]; reflexivity.
Qed.

End MatcherListFacts.

(** With an array as matcher the middleware runs on a pathname exactly
    when one of the strings of the array, or the [source] of one of its
    objects, matches it; a string matcher is that one pattern, except the
    empty string, which counts as no matcher at all and lets the
    middleware run everywhere. *)
Theorem matchesMiddleware_some_entry
  (engine : RegExpEngine) (pathname : str) :
  (forall entries,
     matchesMiddleware engine pathname (Some (MatcherArray entries)) = true <->
     exists m pattern,
       In m entries /\ entry_source m = Some pattern /\
       matchPattern engine pathname pattern = true) /\
  (forall c s,
     matchesMiddleware engine pathname (Some (MatcherString (c :: s))) =
     matchPattern engine pathname (c :: s)) /\
  matchesMiddleware engine pathname (Some (MatcherString [])) = true.
Proof.
  split; [|split].
  - intros entries. unfold matchesMiddleware. cbn [matcher_absent].
    rewrite matcher_patterns_sources, existsb_exists. split.
    + intros [pattern [Hin Hm]]. apply in_flat_map in Hin.
      destruct Hin as [m [Hm1 Hm2]]. exists m, pattern.
      destruct (entry_source m) as [s|]; [|destruct Hm2].
      destruct Hm2 as [<- | []]. auto.
    + intros [m [pattern [Hin [Hs Hm]]]]. exists pattern. split; [|exact Hm].
      apply in_flat_map. exists m. split; [exact Hin|].
      rewrite Hs. left. reflexivity.
  - intros c s. unfold matchesMiddleware. cbn [matcher_absent str_eqb].
    cbn [matcher_patterns existsb]. apply orb_false_r.
  - reflexivity.
Qed.

(** ** Proxy and middleware files *)

Section FileNames.

Lemma drop_while_stops (f : ascii -> bool) (s : str) :
  stops f s -> drop_while f s = s.
Proof.
  destruct s as [|c s]; [reflexivity|]. simpl. intros ->. reflexivity.
Qed.

(** The base name of [dir/name], for a name that is not empty and holds
    no slash, is [name]. *)
Lemma basename_file (dir name : str) :
  name <> [] -> ~ In "/"%char name ->
  basename (dir ++ lit "/" ++ name) = name.
Proof.
  intros Hn Hs. unfold basename.
  assert (T : drop_while (fun c => ch_eqb c "/")
                (rev (dir ++ lit "/" ++ name)) = rev (dir ++ lit "/" ++ name)).
  { apply drop_while_stops. rewrite !rev_app_distr.
    destruct (rev name) as [|x r] eqn:E.
    - apply (f_equal (@rev ascii)) in E. rewrite rev_involutive in E.
      destruct (Hn E).
    - simpl. apply ch_eqb_neq. intros ->. apply Hs.
      apply in_rev. rewrite E. left. reflexivity. }
  rewrite T, rev_involutive.
  change (dir ++ lit "/" ++ name) with (dir ++ "/"%char :: name).
  rewrite split_app, (split_no_sep _ name Hs).
  apply last_last.
Qed.

(** A final extension, a dot and word characters, is removed. *)
Lemma strip_extension_ext (stem ext : str) :
  ext <> [] -> forallb RefEngine.is_word ext = true ->
  strip_extension (stem ++ lit "." ++ ext) = stem.
Proof.
  intros Hn Hw. unfold strip_extension. cbv zeta.
  rewrite !rev_app_distr. change (rev (lit ".")) with (lit ".").
  rewrite <- app_assoc.
  assert (Hr : forallb RefEngine.is_word (rev ext) = true).
  { apply forallb_forall. intros x Hx. apply in_rev in Hx.
    rewrite forallb_forall in Hw. apply Hw. exact Hx. }
  destruct (take_while_run RefEngine.is_word (rev ext) (lit "." ++ rev stem) Hr)
    as [-> ->]; [reflexivity|].
  assert (E : str_eqb (rev ext) [] = false).
  { apply str_eqb_neq. intros E. apply (f_equal (@rev ascii)) in E.
    rewrite rev_involutive in E. destruct (Hn E). }
  rewrite E. cbn [lit app]. eval_ch_eqb.
  apply rev_involutive.
Qed.

End FileNames.

Lemma isProxyFile_stem (dir stem ext : str)
  (Hs : ~ In "/"%char stem)
  (He : ext <> []) (Hw : forallb RefEngine.is_word ext = true) :
  isProxyFile (dir ++ lit "/" ++ stem ++ lit "." ++ ext) =
  str_eqb stem (lit "proxy").
Proof.
  unfold isProxyFile. rewrite basename_file.
  - rewrite strip_extension_ext by assumption. reflexivity.
  - destruct stem; discriminate.
  - intros H. apply in_app_or in H. destruct H as [H | H]; [exact (Hs H)|].
    cbn [lit app] in H. destruct H as [H | H]; [discriminate|].
    rewrite forallb_forall in Hw. specialize (Hw _ H). discriminate.
Qed.

(** Whether a file is a proxy file is decided by its base name without the
    final extension alone: [dir/stem.ext] is one exactly when [stem] is
    [proxy], whatever the directory and the extension. *)
Theorem isProxyFile_by_stem (dir stem ext : str)
  (Hs : ~ In "/"%char stem)
  (He : ext <> []) (Hw : forallb RefEngine.is_word ext = true) :
  isProxyFile (dir ++ lit "/" ++ stem ++ lit "." ++ ext) =
  str_eqb stem (lit "proxy").
Proof. exact (isProxyFile_stem dir stem ext Hs He Hw). Qed.

Lemma isProxyFile_by_stem_witness :
  isProxyFile (lit "/app/src" ++ lit "/" ++ lit "proxy" ++ lit "." ++ lit "mjs") =
  str_eqb (lit "proxy") (lit "proxy").
Proof.
  apply isProxyFile_by_stem;
    [intros H; simpl in H; intuition discriminate | discriminate | reflexivity].
Defined.

(** The handler of the module of [dir/stem.ext] is its export named
    [proxy] when [stem] is [proxy] and its export named [middleware]
    otherwise, when that export is a function, and its default export
    when the named one is [undefined] or [null]; a named export of another
    type hides the default export, and the export named after the other
    kind of file is never looked at. *)
Theorem resolveMiddlewareHandler_named_export (mod_ : Module)
  (dir stem ext : str)
  (Hs : ~ In "/"%char stem)
  (He : ext <> []) (Hw : forallb RefEngine.is_word ext = true) :
  let filePath := dir ++ lit "/" ++ stem ++ lit "." ++ ext in
  let named := if str_eqb stem (lit "proxy") then mod_proxy mod_
               else mod_middleware mod_ in
  (forall f, resolveMiddlewareHandler mod_ filePath = Ok f <->
     named = ExFunction f \/
     ((named = ExUndefined \/ named = ExNull) /\ mod_default mod_ = ExFunction f)) /\
  (named = ExOther -> exists e, resolveMiddlewareHandler mod_ filePath = Thrown e) /\
  (forall other,
     resolveMiddlewareHandler
       (if str_eqb stem (lit "proxy")
        then mkModule (mod_proxy mod_) other (mod_default mod_) (mod_matcher mod_)
        else mkModule other (mod_middleware mod_) (mod_default mod_) (mod_matcher mod_))
       filePath
     = resolveMiddlewareHandler mod_ filePath).
Proof.
  cbv zeta. unfold resolveMiddlewareHandler. cbv zeta.
  rewrite (isProxyFile_stem dir stem ext Hs He Hw).
  destruct (str_eqb stem (lit "proxy"));
    cbn [mod_proxy mod_middleware mod_default].
  - split; [|split].
    + intros f. destruct (mod_proxy mod_) eqn:A; cbn [nullish];
        try destruct (mod_default mod_) eqn:B; split;
        try (intros H; injection H as <-); try discriminate;
        try (intros [H | [[H | H] H']]; try discriminate;
             try (injection H as <-); try (injection H' as <-); reflexivity);
        auto.
    + intros ->. cbn [nullish]. eexists. reflexivity.
    + intros other. reflexivity.
  - split; [|split].
    + intros f. destruct (mod_middleware mod_) eqn:A; cbn [nullish];
        try destruct (mod_default mod_) eqn:B; split;
        try (intros H; injection H as <-); try discriminate;
        try (intros [H | [[H | H] H']]; try discriminate;
             try (injection H as <-); try (injection H' as <-); reflexivity);
        auto.
    + intros ->. cbn [nullish]. eexists. reflexivity.
    + intros other. reflexivity.
Qed.

Lemma resolveMiddlewareHandler_named_export_witness :
  let mod_ := mkModule ExOther ExUndefined
                (ExFunction (fun _ => Ok None)) None in
  let filePath := lit "/app" ++ lit "/" ++ lit "proxy" ++ lit "." ++ lit "ts" in
  let named := if str_eqb (lit "proxy") (lit "proxy") then mod_proxy mod_
               else mod_middleware mod_ in
  (forall f, resolveMiddlewareHandler mod_ filePath = Ok f <->
     named = ExFunction f \/
     ((named = ExUndefined \/ named = ExNull) /\ mod_default mod_ = ExFunction f)) /\
  (named = ExOther -> exists e, resolveMiddlewareHandler mod_ filePath = Thrown e) /\
  (forall other,
     resolveMiddlewareHandler
       (if str_eqb (lit "proxy") (lit "proxy")
        then mkModule (mod_proxy mod_) other (mod_default mod_) (mod_matcher mod_)
        else mkModule other (mod_middleware mod_) (mod_default mod_) (mod_matcher mod_))
       filePath
     = resolveMiddlewareHandler mod_ filePath).
Proof.
  cbv zeta.
  apply (resolveMiddlewareHandler_named_export
           (mkModule ExOther ExUndefined (ExFunction (fun _ => Ok None)) None)
           (lit "/app") (lit "proxy") (lit "ts"));
    [intros H; simpl in H; intuition discriminate | discriminate | reflexivity].
Defined.

Section FindFile.

Variable fs : FileSystem.
Variable root : str.

Lemma first_existing_hd (files : list str) :
  first_existing fs root files = hd_error (existing fs root files).
Proof.
  unfold existing. induction files as [|file files IH]; [reflexivity|].
  simpl. destruct (existsSync fs (path_join fs root file)); [reflexivity|].
  exact IH.
Qed.

Lemma first_existing_from (files : list str) (p : str) :
  first_existing fs root files = Some p ->
  exists file, In file files /\ p = path_join fs root file.
Proof.
  induction files as [|file files IH]; [discriminate|].
  simpl. destruct (existsSync fs (path_join fs root file)).
  - intros H. injection H as <-. exists file. auto.
  - intros H. destruct (IH H) as [file' [I E]]. exists file'. auto.
Qed.

Lemma existing_app (a b : list str) :
  existing fs root (a ++ b) = existing fs root a ++ existing fs root b.
Proof. unfold existing. rewrite map_app, filter_app. reflexivity. Qed.

End FindFile.

(** [findMiddlewareFile] returns the first candidate that exists, the
    proxy files being tried before the middleware files, and [null] when
    none exists; the file returned exists; the deprecation warning is
    logged exactly when no proxy file exists and a middleware file does. *)
Theorem findMiddlewareFile_first_existing (fs : FileSystem) (root : str) :
  fst (findMiddlewareFile fs root) =
    hd_error (existing fs root (PROXY_FILES ++ MIDDLEWARE_FILES)) /\
  (forall p, fst (findMiddlewareFile fs root) = Some p -> existsSync fs p = true) /\
  (fst (findMiddlewareFile fs root) = None <->
   forall file, In file (PROXY_FILES ++ MIDDLEWARE_FILES) ->
                existsSync fs (path_join fs root file) = false) /\
  (snd (findMiddlewareFile fs root) = true <->
   existing fs root PROXY_FILES = [] /\ existing fs root MIDDLEWARE_FILES <> []).
Proof.
  assert (F : fst (findMiddlewareFile fs root) =
              hd_error (existing fs root (PROXY_FILES ++ MIDDLEWARE_FILES))).
  { unfold findMiddlewareFile. rewrite existing_app, !first_existing_hd.
    destruct (existing fs root PROXY_FILES); [|reflexivity].
    destruct (existing fs root MIDDLEWARE_FILES); reflexivity. }
  split; [exact F|]. split; [|split].
  - rewrite F. intros p H.
    destruct (existing fs root (PROXY_FILES ++ MIDDLEWARE_FILES)) as [|x l] eqn:E;
      [discriminate|].
    injection H as ->.
    assert (I : In p (existing fs root (PROXY_FILES ++ MIDDLEWARE_FILES)))
      by (rewrite E; left; reflexivity).
    unfold existing in I. apply filter_In in I. apply I.
  - rewrite F. unfold existing. split.
    + intros H file I.
      destruct (existsSync fs (path_join fs root file)) eqn:X; [|reflexivity].
      assert (I' : In (path_join fs root file)
                     (filter (existsSync fs)
                        (map (path_join fs root) (PROXY_FILES ++ MIDDLEWARE_FILES)))).
      { apply filter_In. split; [apply in_map; exact I | exact X]. }
      destruct (filter _ _); [destruct I' | discriminate].
    + intros H.
      destruct (filter _ _) as [|x l] eqn:E; [reflexivity|].
      assert (I : In x (filter (existsSync fs)
                          (map (path_join fs root) (PROXY_FILES ++ MIDDLEWARE_FILES))))
        by (rewrite E; left; reflexivity).
      apply filter_In in I. destruct I as [I X].
      apply in_map_iff in I. destruct I as [file [<- I]].
      rewrite (H file I) in X. discriminate.
  - unfold findMiddlewareFile. rewrite !first_existing_hd.
    destruct (existing fs root PROXY_FILES); cbn [hd_error].
    + destruct (existing fs root MIDDLEWARE_FILES); cbn [hd_error snd]; split.
      * discriminate.
      * intros [_ H]. destruct H. reflexivity.
      * intros _. split; [reflexivity | discriminate].
      * reflexivity.
    + cbn [snd]. split; [discriminate | intros [H _]; discriminate].
Qed.

(** The file [findMiddlewareFile] returns is read with the export rule of
    its kind: when [path.join] keeps the base name of the candidates, the
    path returned is a proxy file for [isProxyFile] exactly when no
    deprecation warning was logged. *)
Theorem findMiddlewareFile_kind (fs : FileSystem) (root p : str)
  (Hjoin : forall file, In file (PROXY_FILES ++ MIDDLEWARE_FILES) ->
             basename (path_join fs root file) = basename file)
  (Hfound : fst (findMiddlewareFile fs root) = Some p) :
  isProxyFile p = negb (snd (findMiddlewareFile fs root)).
Proof.
  unfold findMiddlewareFile in *.
  destruct (first_existing fs root PROXY_FILES) as [q|] eqn:A.
  - cbn [fst snd negb] in *. injection Hfound as ->.
    destruct (first_existing_from _ _ _ _ A) as [file [I ->]].
    unfold isProxyFile. rewrite (Hjoin file (in_or_app _ _ _ (or_introl I))).
    cbv [PROXY_FILES] in I. cbn [In] in I.
    repeat (destruct I as [<- | I]; [vm_compute; reflexivity|]). destruct I.
  - destruct (first_existing fs root MIDDLEWARE_FILES) as [q|] eqn:B;
      cbn [fst snd negb] in *; [|discriminate].
    injection Hfound as ->.
    destruct (first_existing_from _ _ _ _ B) as [file [I ->]].
    unfold isProxyFile. rewrite (Hjoin file (in_or_app _ _ _ (or_intror I))).
    cbv [MIDDLEWARE_FILES] in I. cbn [In] in I.
    repeat (destruct I as [<- | I]; [vm_compute; reflexivity|]). destruct I.
Qed.

Lemma findMiddlewareFile_kind_witness :
  isProxyFile (lit "/app/src/proxy.js") =
  negb (snd (findMiddlewareFile both_files (lit "/app"))).
Proof.
  apply (findMiddlewareFile_kind both_files (lit "/app") (lit "/app/src/proxy.js")).
  - intros file I. cbv [PROXY_FILES MIDDLEWARE_FILES app] in I. cbn [In] in I.
    repeat (destruct I as [<- | I]; [vm_compute; reflexivity|]). destruct I.
  - vm_compute. reflexivity.
Defined.

(** ** The shapes of a middleware result *)

Section ResultShape.

Variable platform : Platform.
Variable request : Request.

Lemma result_continue_shape : result_shape result_continue.
Proof.
  unfold result_shape, result_continue; cbn.
  repeat split; try discriminate; try congruence;
    try (intros H; destruct H; reflexivity).
Qed.

Lemma result_response_shape (resp : Response) :
  result_shape (result_response resp).
Proof.
  unfold result_shape, result_response; cbn.
  repeat split; try discriminate; try congruence;
    try (intros H; destruct H; reflexivity).
  intros _. left. exists resp. auto.
Qed.

Lemma interpret_response_shape (resp : option Response) :
  result_shape (interpret_response platform request resp).
Proof.
  destruct resp as [resp|]; [|apply result_continue_shape].
  unfold interpret_response. cbv zeta.
  destruct (match headers_get (headers resp) (lit "x-middleware-next") with
            | Some s => str_eqb s (lit "1")
            | None => false
            end).
  { unfold result_shape, result_next; cbn.
    repeat split; try discriminate; try congruence;
      try (intros H; destruct H; reflexivity). }
  destruct ((300 <=? status resp) && (status resp <? 400)) eqn:S.
  - apply andb_true_iff in S. destruct S as [S1 S2].
    apply Nat.leb_le in S1. apply Nat.ltb_lt in S2.
    match goal with
    | |- result_shape (match ?x with _ => _ end) => destruct x as [[|c l]|]
    end.
    2:{ unfold result_shape, result_redirect; cbn.
        repeat split; try discriminate; try congruence;
          try (intros H; destruct H; reflexivity).
        intros _. right. exists c, l, (status resp). auto. }
    all: destruct (headers_get (headers resp) (lit "x-middleware-rewrite"))
           as [[|c' u]|]; try apply result_response_shape;
         unfold result_shape, result_rewrite; cbn;
         repeat split; try discriminate; try congruence;
         match goal with
           | H : (if ?b then None else Some _) = Some _ |- _ =>
               destruct b eqn:Q;
               [discriminate | injection H as <-; apply Nat.eqb_neq; exact Q]
           end.
  - destruct (headers_get (headers resp) (lit "x-middleware-rewrite"))
      as [[|c' u]|]; try apply result_response_shape.
    unfold result_shape, result_rewrite; cbn.
    repeat split; try discriminate; try congruence;
         match goal with
           | H : (if ?b then None else Some _) = Some _ |- _ =>
               destruct b eqn:Q;
               [discriminate | injection H as <-; apply Nat.eqb_neq; exact Q]
           end.
Qed.

End ResultShape.

Lemma runMiddleware_shape (engine : RegExpEngine) (platform : Platform)
  (NODE_ENV : option str) (mod_ : Module) (middlewarePath : str)
  (request : Request) (r : MiddlewareResult)
  (H : runMiddleware engine platform NODE_ENV mod_ middlewarePath request = Ok r) :
  result_shape r.
Proof.
  unfold runMiddleware in H. cbv zeta in H.
  destruct (resolveMiddlewareHandler mod_ middlewarePath) as [f|e]; [|discriminate].
  destruct (decodeURIComponent platform (url_pathname request)) as [d|].
  2:{ injection H as <-. apply result_response_shape. }
  destruct (negb (matchesMiddleware engine (normalizePath d) (mod_matcher mod_))).
  { injection H as <-. apply result_continue_shape. }
  match type of H with
  | match ?x with _ => _ end = _ => destruct x as [resp|e]
  end.
  - injection H as <-. apply interpret_response_shape.
  - destruct (is_production NODE_ENV);
      [|destruct (error_text e); [|discriminate]];
      injection H as <-; apply result_response_shape.
Qed.

(** Every result of [runMiddleware] has one of the shapes its callers
    handle: when [continue] is false there is a response, or a redirect to
    a non-empty URL with the 3xx status of the response of the handler;
    when [continue] is true there is neither; a rewrite continues and
    forwards headers, and its status is set only when it is not 200. *)
Theorem runMiddleware_result_shape (engine : RegExpEngine) (platform : Platform)
  (NODE_ENV : option str) (mod_ : Module) (middlewarePath : str)
  (request : Request) (r : MiddlewareResult)
  (H : runMiddleware engine platform NODE_ENV mod_ middlewarePath request = Ok r) :
  result_shape r.
Proof.
  exact (runMiddleware_shape engine platform NODE_ENV mod_ middlewarePath request r H).
Qed.

Lemma runMiddleware_result_shape_witness :
  result_shape
    (interpret_response RefPlatform.platform (mkRequest (lit "/a") [])
       (Some rewriting_response)).
Proof.
  apply (runMiddleware_result_shape RefEngine.engine RefPlatform.platform None
           rewriting_module (lit "/app/middleware.ts") (mkRequest (lit "/a") [])).
  vm_compute. reflexivity.
Defined.

(** ** The directives of a middleware response *)

(** [x-middleware-next: 1] is looked at first: the result continues with
    no redirect and no rewrite, also when the response has a 3xx status
    with a [Location] or an [x-middleware-rewrite] header, and it forwards,
    in order, every header of the response except the two sentinels. *)
Theorem next_directive_first (platform : Platform) (request : Request)
  (resp : Response)
  (H : headers_get (headers resp) (lit "x-middleware-next") = Some (lit "1")) :
  interpret_response platform request (Some resp) =
  mkResult true None None None None
    (Some (filter (fun kv => negb (is_sentinel (fst kv))) (headers resp))) None.
Proof. exact (interpret_next platform request resp H). Qed.

Lemma next_directive_first_witness :
  interpret_response RefPlatform.platform (mkRequest (lit "/a") [])
    (Some next_response) =
  mkResult true None None None None
    (Some (filter (fun kv => negb (is_sentinel (fst kv))) (headers next_response)))
    None.
Proof.
  apply (next_directive_first RefPlatform.platform (mkRequest (lit "/a") [])
           next_response).
  vm_compute. reflexivity.
Defined.

(** A rewrite forwards, in order, every header of the response except
    [x-middleware-rewrite]; an [x-middleware-next] header whose value is
    not [1] is among the headers forwarded. *)
Theorem rewrite_directive_headers (platform : Platform) (request : Request)
  (resp : Response) (r : MiddlewareResult)
  (H : interpret_response platform request (Some resp) = r)
  (Hr : rewriteUrl r <> None) :
  responseHeaders r =
    Some (filter (fun kv => negb (str_eqb (fst kv) (lit "x-middleware-rewrite")))
            (headers resp)) /\
  (forall v, In (lit "x-middleware-next", v) (headers resp) ->
     exists h, responseHeaders r = Some h /\ In (lit "x-middleware-next", v) h).
Proof.
  pose proof (interpret_rewrite_headers platform request resp r H Hr) as E.
  split; [exact E|].
  intros v I. eexists. split; [exact E|].
  apply filter_In. split; [exact I | reflexivity].
Qed.

Lemma rewrite_directive_headers_witness :
  responseHeaders
    (interpret_response RefPlatform.platform (mkRequest (lit "/a") [])
       (Some rewriting_response)) =
    Some (filter (fun kv => negb (str_eqb (fst kv) (lit "x-middleware-rewrite")))
            (headers rewriting_response)) /\
  (forall v, In (lit "x-middleware-next", v) (headers rewriting_response) ->
     exists h,
       responseHeaders
         (interpret_response RefPlatform.platform (mkRequest (lit "/a") [])
            (Some rewriting_response)) = Some h /\
       In (lit "x-middleware-next", v) h).
Proof.
  apply (rewrite_directive_headers RefPlatform.platform (mkRequest (lit "/a") [])
           rewriting_response); [reflexivity | vm_compute; discriminate].
Defined.

(** ** The worker entries *)

Section Fetch.

(** The guard of both entries looks at the first two characters only. *)
Lemma guard_two_leading_slashes (pathname : str) :
  startsWith (lit "//") (replaceAll "\" "/" pathname) =
  two_leading_slashes pathname.
Proof.
  destruct pathname as [|a [|b rest]]; cbn [replaceAll map lit startsWith
    list_ascii_of_string two_leading_slashes is_slash_like].
  - reflexivity.
  - destruct (ch_eqb a "\"); eval_ch_eqb; rewrite ?andb_false_r; reflexivity.
  - unfold is_slash_like.
    destruct (ch_eqb a "\") eqn:A; destruct (ch_eqb b "\") eqn:B;
      try (apply ch_eqb_eq in A; subst a); try (apply ch_eqb_eq in B; subst b);
      eval_ch_eqb; rewrite ?orb_false_r, ?orb_true_r, ?andb_true_r, ?andb_false_r;
      cbn [andb orb];
      rewrite ?orb_false_r, ?orb_true_r, ?andb_true_r, ?andb_false_r;
      try reflexivity;
      rewrite (Bool.andb_comm (ch_eqb _ _)); reflexivity.
Qed.


End Fetch.

(** The Pages Router entry never throws. It calls no handler exactly when
    the pathname begins with two characters that are each a slash or a
    backslash; otherwise it makes one call, with the request unchanged and
    the pathname followed by the query string: [handleApiRoute] when the
    pathname is [/api] or begins with [/api/], [renderPage] otherwise. An
    exception of the handler is answered by a 500. *)
Theorem pages_router_fetch_routes
  (handleApiRoute renderPage : Request -> str -> outcome Response)
  (request : Request) :
  let pathname := url_pathname request in
  let url := pathname ++ url_search request in
  let out := pages_router_fetch handleApiRoute renderPage request in
  (exists resp, fst out = Ok resp) /\
  (snd out = [] <-> two_leading_slashes pathname = true) /\
  (two_leading_slashes pathname = false ->
   snd out = [if is_api_path pathname then CallHandleApiRoute request url
              else CallRenderPage request url]) /\
  (two_leading_slashes pathname = false ->
   (exists e, (if is_api_path pathname then handleApiRoute else renderPage)
                request url = Thrown e) ->
   fst out = Ok (new_Response (lit "Internal Server Error") 500)).
Proof.
  cbv zeta. unfold pages_router_fetch. cbv zeta.
  rewrite guard_two_leading_slashes. fold (is_api_path (url_pathname request)).
  destruct (two_leading_slashes (url_pathname request)).
  - split; [eexists; reflexivity|]. split; [tauto|].
    split; discriminate.
  - destruct (is_api_path (url_pathname request)); cbn [fst snd].
    + split; [destruct (handleApiRoute _ _); eexists; reflexivity|].
      split; [split; discriminate|]. split; [reflexivity|].
      intros _ [e ->]. reflexivity.
    + split; [destruct (renderPage _ _); eexists; reflexivity|].
      split; [split; discriminate|]. split; [reflexivity|].
      intros _ [e ->]. reflexivity.
Qed.


(** ** Records of headers *)

Section Records.











End Records.


(** ** Unpacking the request headers of the middleware *)

Section Unpack.


Lemma startsWith_app (pre k : str) : startsWith pre (pre ++ k) = true.
Proof. apply startsWith_spec. exists k. reflexivity. Qed.










End Unpack.



(** ** The worker and the result of the middleware *)



(** ** The trailing-slash redirects of the worker *)

Section Prelude.

Lemma two_leading_app (x y : str) :
  2 <= length x -> two_leading_slashes (x ++ y) = two_leading_slashes x.
Proof.
  destruct x as [|a [|b x]]; simpl; intros H; try lia. reflexivity.
Qed.

Lemma two_leading_prefix (x y : str) :
  two_leading_slashes (x ++ y) = false -> two_leading_slashes x = false.
Proof.
  destruct x as [|a [|b x]]; try reflexivity. intros H. exact H.
Qed.

Lemma strip_basePath_app (b x : str) :
  strip_basePath b (b ++ x) =
  match x with [] => lit "/" | a :: l => a :: l end.
Proof.
  unfold strip_basePath. rewrite skipn_app, skipn_all, Nat.sub_diag.
  reflexivity.
Qed.

Lemma endsWith_slash_app (x : str) : endsWith (lit "/") (x ++ lit "/") = true.
Proof. apply endsWith_spec. exists x. reflexivity. Qed.

(** The pathname is what is left followed by the slashes removed, and
    what is left does not end in a slash. *)
Lemma strip_trailing_slashes_spec (p : str) :
  (exists slashes, p = strip_trailing_slashes p ++ slashes) /\
  endsWith (lit "/") (strip_trailing_slashes p) = false.
Proof.
  unfold strip_trailing_slashes.
  destruct (take_drop_while (fun c => ch_eqb c "/") (rev p)) as [E [_ S]].
  split.
  - exists (rev (take_while (fun c => ch_eqb c "/") (rev p))).
    rewrite <- rev_app_distr, <- E, rev_involutive. reflexivity.
  - apply endsWith_false. intros a F.
    apply (f_equal (@rev ascii)) in F.
    rewrite rev_involutive, rev_app_distr in F. simpl in F.
    rewrite F in S. simpl in S. revert S. eval_ch_eqb. discriminate.
Qed.

(** A request that passes the guard, and whose pathname (without
    [basePath]) is [/] or has its final slash as configured, proceeds. *)
Lemma prelude_proceeds (b : str) (ts : bool) (loc s q : str) :
  two_leading_slashes loc = false ->
  (if negb (str_eqb b []) && startsWith b loc then strip_basePath b loc else loc)
  = q ->
  q = lit "/" \/ endsWith (lit "/") q = ts ->
  exists u, worker_prelude b ts (mkRequest loc s) = Proceed q u.
Proof.
  intros G Q T. unfold worker_prelude. cbv zeta. cbn [url_pathname url_search].
  rewrite guard_two_leading_slashes, G, Q.
  destruct T as [-> | T].
  - cbn [negb andb str_eqb lit list_ascii_of_string]. eval_ch_eqb. cbn.
    eexists. reflexivity.
  - rewrite T.
    destruct (negb (str_eqb q (lit "/")) && negb (startsWith (lit "/api") q));
      [|eexists; reflexivity].
    destruct ts; cbn [negb andb]; eexists; reflexivity.
Qed.

End Prelude.

(** A trailing-slash redirect is followed by no other: when the worker
    answers a request by a 308, the request for the location it gives
    (same query string) passes the guard and proceeds, with a pathname
    that is [/] or has its final slash as configured. The pathname of a
    request begins with a slash; [basePath] is empty, or begins with one
    slash. *)
Theorem trailing_slash_redirect_settles (basePath : str) (trailingSlash : bool)
  (request : Request) (r : Response)
  (Hp : startsWith (lit "/") (url_pathname request) = true)
  (Hb : basePath = [] \/
        (startsWith (lit "/") basePath = true /\
         two_leading_slashes basePath = false))
  (Hr : worker_prelude basePath trailingSlash request = Respond r)
  (Hs : status r = 308) :
  exists location pathname urlWithQuery,
    headers r = [(lit "location", location ++ url_search request)] /\
    worker_prelude basePath trailingSlash
      (mkRequest location (url_search request)) = Proceed pathname urlWithQuery /\
    (pathname = lit "/" \/ endsWith (lit "/") pathname = trailingSlash).
Proof.
  destruct request as [p s]. cbn [url_pathname url_search] in *.
  unfold worker_prelude in Hr. cbv zeta in Hr. cbn [url_pathname url_search] in Hr.
  rewrite guard_two_leading_slashes in Hr.
  destruct (two_leading_slashes p) eqn:G.
  { injection Hr as <-. discriminate. }
  assert (Next : forall loc q,
            two_leading_slashes loc = false ->
            (if negb (str_eqb basePath []) && startsWith basePath loc
             then strip_basePath basePath loc else loc) = q ->
            q = lit "/" \/ endsWith (lit "/") q = trailingSlash ->
            r = redirect_Response 308 (loc ++ s) ->
            exists location pathname urlWithQuery,
              headers r = [(lit "location", location ++ s)] /\
              worker_prelude basePath trailingSlash (mkRequest location s)
                = Proceed pathname urlWithQuery /\
              (pathname = lit "/" \/ endsWith (lit "/") pathname = trailingSlash)).
  { intros loc q A B C ->.
    destruct (prelude_proceeds basePath trailingSlash loc s q A B C) as [u U].
    exists loc, q, u. auto. }
  destruct (negb (str_eqb basePath []) && startsWith basePath p) eqn:St.
  - (* basePath is removed *)
    apply andb_true_iff in St. destruct St as [Nb Sb].
    apply startsWith_spec in Sb. destruct Sb as [rest ->].
    rewrite strip_basePath_app in Hr.
    destruct rest as [|c rest].
    { cbn in Hr. revert Hr. eval_ch_eqb. cbn. discriminate. }
    assert (Lp : 2 <= length (basePath ++ c :: rest)).
    { rewrite length_app. destruct basePath; [discriminate|]. simpl. lia. }
    destruct (negb (str_eqb (c :: rest) (lit "/")) &&
              negb (startsWith (lit "/api") (c :: rest))); [|discriminate].
    destruct trailingSlash; cbn [negb andb] in Hr.
    + destruct (endsWith (lit "/") (c :: rest)) eqn:T; cbn [negb] in Hr;
        [discriminate|].
      injection Hr as <-.
      apply (Next ((basePath ++ c :: rest) ++ lit "/") ((c :: rest) ++ lit "/")).
      * rewrite two_leading_app by exact Lp. exact G.
      * rewrite <- app_assoc, startsWith_app, Nb, strip_basePath_app.
        reflexivity.
      * right. apply endsWith_slash_app.
      * reflexivity.
    + destruct (endsWith (lit "/") (c :: rest)) eqn:T; [|discriminate].
      injection Hr as <-.
      destruct (strip_trailing_slashes_spec (c :: rest)) as [[sl E] F].
      apply (Next (basePath ++ strip_trailing_slashes (c :: rest))
                  (match strip_trailing_slashes (c :: rest) with
                   | [] => lit "/"
                   | a :: l => a :: l
                   end)).
      * apply (two_leading_prefix _ sl).
        replace ((basePath ++ strip_trailing_slashes (c :: rest)) ++ sl)
          with (basePath ++ c :: rest); [exact G|].
        rewrite <- app_assoc. f_equal. exact E.
      * rewrite startsWith_app, Nb, strip_basePath_app. reflexivity.
      * destruct (strip_trailing_slashes (c :: rest)); [left; reflexivity|].
        right. exact F.
      * reflexivity.
  - (* basePath is not removed *)
    assert (Lp : p <> lit "/" -> 2 <= length p).
    { intros N. apply startsWith_spec in Hp. destruct Hp as [t ->].
      destruct t; [destruct N; reflexivity | simpl; lia]. }
    assert (Gb : forall x, basePath <> [] ->
                 two_leading_slashes (basePath ++ x) = false).
    { intros x N. destruct Hb as [-> | [B1 B2]]; [destruct N; reflexivity|].
      rewrite two_leading_app; [exact B2|].
      apply startsWith_spec in B1. destruct B1 as [t ->].
      destruct t; [|simpl; lia].
      (* basePath is a single slash: it would have been removed *)
      rewrite app_nil_r, Hp in St. vm_compute in St. discriminate. }
    assert (Q : forall x, x <> [] ->
              (if negb (str_eqb basePath []) && startsWith basePath (basePath ++ x)
               then strip_basePath basePath (basePath ++ x) else basePath ++ x) = x).
    { intros x N. destruct basePath; [reflexivity|].
      rewrite startsWith_app, strip_basePath_app. cbn [str_eqb negb andb].
      destruct x; [destruct N; reflexivity | reflexivity]. }
    destruct (str_eqb p (lit "/")) eqn:Root; cbn [negb andb] in Hr; [discriminate|].
    apply str_eqb_neq in Root.
    destruct (negb (startsWith (lit "/api") p)); [|discriminate].
    destruct trailingSlash; cbn [negb andb] in Hr.
    + destruct (endsWith (lit "/") p) eqn:T; cbn [negb] in Hr; [discriminate|].
      injection Hr as <-.
      apply (Next ((basePath ++ p) ++ lit "/") (p ++ lit "/")).
      * destruct (str_eqb basePath []) eqn:Eb.
        -- apply str_eqb_eq in Eb. rewrite Eb. simpl app.
           rewrite two_leading_app by (apply Lp; exact Root). exact G.
        -- apply str_eqb_neq in Eb. rewrite <- app_assoc. apply Gb. exact Eb.
      * rewrite <- app_assoc. apply Q. destruct p; discriminate.
      * right. apply endsWith_slash_app.
      * reflexivity.
    + destruct (endsWith (lit "/") p) eqn:T; [|discriminate].
      injection Hr as <-.
      destruct (strip_trailing_slashes_spec p) as [[sl E] F].
      destruct (str_eqb basePath []) eqn:Eb.
      * apply (Next (basePath ++ strip_trailing_slashes p)
                    (strip_trailing_slashes p)).
        -- apply str_eqb_eq in Eb. rewrite Eb. simpl app.
           apply (two_leading_prefix _ sl).
           rewrite E in G. exact G.
        -- apply str_eqb_eq in Eb. rewrite Eb. reflexivity.
        -- right. exact F.
        -- reflexivity.
      * apply (Next (basePath ++ strip_trailing_slashes p)
                    (match strip_trailing_slashes p with
                     | [] => lit "/"
                     | a :: l => a :: l
                     end)).
        -- apply Gb. apply str_eqb_neq. exact Eb.
        -- rewrite startsWith_app, strip_basePath_app. reflexivity.
        -- destruct (strip_trailing_slashes p); [left; reflexivity|].
           right. exact F.
        -- reflexivity.
Qed.

Lemma trailing_slash_redirect_settles_witness :
  exists location pathname urlWithQuery,
    headers (redirect_Response 308 (lit "/docs/blog?page=2")) =
      [(lit "location", location ++ lit "?page=2")] /\
    worker_prelude (lit "/docs") false (mkRequest location (lit "?page=2"))
      = Proceed pathname urlWithQuery /\
    (pathname = lit "/" \/ endsWith (lit "/") pathname = false).
Proof.
  apply (trailing_slash_redirect_settles (lit "/docs") false
           (mkRequest (lit "/docs/blog//") (lit "?page=2"))
           (redirect_Response 308 (lit "/docs/blog?page=2"))).
  - reflexivity.
  - right. split; reflexivity.
  - vm_compute. reflexivity.
  - reflexivity.
Defined.
